(** * cmdline-dice: the expression parser and the roll executor of dice.c

    A shallow embedding of [dice.c] / [dice.h]: the scanner
    [find_first_free_opt], the recursive-descent parser ([parse_expr],
    [parse_obj], [parse_roll], [parse_modifier], [parse_operator]), the
    evaluator ([execute_expr], [execute_obj], [execute_roll]) and the four
    roll strategies, the handling of the command line ([parse_options],
    [parse_and_exec_cmdline], [main]) and of the interactive mode
    ([parse_and_exec_interactive_input], [parse_and_exec_set_command],
    [interactive_loop]), followed by the properties proved about them.

    Conventions of the embedding.
    - A [char*] is modelled by the C string it points to: the characters
      from the pointer up to (not including) the terminating NUL.  Pointer
      arithmetic [p + k] is [drop k], a pointer difference [q - p] inside one
      string is an offset.
    - A pointer that may be [NULL] is an [option].
    - [int] is [Z]; the arithmetic that can leave the 32-bit range wraps
      ([int_wrap]).
    - [print_error] appends its message to a log.
    - [malloc] is taken to succeed; the "Out of memory." branches are not
      modelled.
    - [printf] narration under [verbose] does not influence any returned
      value and is left out of the executor, together with its [verbose]
      argument; what the handlers of the command line and of the
      interactive mode print is kept as a list of events. *)

From Stdlib Require Import ZArith Lia Ascii String.
From stdpp Require Import base tactics option list sorting.

Local Open Scope Z_scope.

#[local] Set Warnings "-register-all".

(** ** Machine integers *)

Definition INT_MAX : Z := 2147483647.
Definition INT_MIN : Z := -2147483648.
Definition LONG_MAX : Z := 9223372036854775807.
Definition LONG_MIN : Z := -9223372036854775808.

(** Reduction of a mathematical integer to the 32-bit two's complement
    [int] that holds its low 32 bits. *)
Definition int_wrap (z : Z) : Z := (z + 2147483648) mod 4294967296 - 2147483648.

Definition int_add (a b : Z) : Z := int_wrap (a + b).
Definition int_sub (a b : Z) : Z := int_wrap (a - b).
Definition int_mul (a b : Z) : Z := int_wrap (a * b).

Definition in_int (z : Z) : Prop := INT_MIN <= z <= INT_MAX.

(** ** C strings and the libc functions the parser calls *)

Definition cstring : Type := list ascii.

(** A string literal of the source as a [cstring]. *)
Definition cstr (s : string) : cstring := list_ascii_of_string s.

Definition NUL : ascii := Ascii.zero.

(** [inp[i]]: the character at offset [i]; the terminator from the end of
    the string on. *)
Definition char_at (inp : cstring) (i : Z) : ascii :=
  if i <? 0 then NUL else nth (Z.to_nat i) inp NUL.

Definition mem_char (c : ascii) (set : cstring) : bool :=
  existsb (Ascii.eqb c) set.

(** [strpbrk(s, accept)]: offset of the first character of [s] that occurs
    in [accept]; [None] is the NULL result. *)
Fixpoint strpbrk (s accept : cstring) : option nat :=
  match s with
  | [] => None
  | c :: s' => if mem_char c accept then Some O else S <$> strpbrk s' accept
  end.

(** [strchr(s, c)] for a character [c] other than NUL. *)
Definition strchr (s : cstring) (c : ascii) : option nat := strpbrk s [c].

(** [strspn(s, accept)]: length of the longest prefix of [s] made of
    characters of [accept]. *)
Fixpoint strspn (s accept : cstring) : nat :=
  match s with
  | [] => O
  | c :: s' => if mem_char c accept then S (strspn s' accept) else O
  end.

(** [strlen]. *)
Definition strlen (s : cstring) : Z := Z.of_nat (length s).

(** [strncpy(dst, src, n); dst[n] = '\0';] into a fresh buffer of [n+1]
    characters, read back as a C string: the first [n] characters of [src]
    (all of [src] when it is shorter). *)
Definition strncpy (src : cstring) (n : Z) : cstring := take (Z.to_nat n) src.

Definition digits : cstring := cstr "0123456789".

Definition isdigit (c : ascii) : bool := mem_char c digits.

Definition isspace (c : ascii) : bool :=
  mem_char c [" "; "009"; "010"; "011"; "012"; "013"]%char.

Definition digit_value (c : ascii) : Z := Z.of_nat (nat_of_ascii c) - 48.

(** The decimal value of the leading digits of [s], continuing from [acc]. *)
Fixpoint digits_value (acc : Z) (s : cstring) : Z :=
  match s with
  | [] => acc
  | c :: s' => if isdigit c then digits_value (10 * acc + digit_value c) s' else acc
  end.

Fixpoint skip_space (s : cstring) : cstring :=
  match s with
  | [] => []
  | c :: s' => if isspace c then skip_space s' else s
  end.

Definition clamp_long (z : Z) : Z := Z.max LONG_MIN (Z.min LONG_MAX z).

(** [strtol(s, NULL, 10)] with a 64-bit [long]: leading white space, an
    optional sign, the leading digits; saturating at the ends of [long]. *)
Definition strtol (s : cstring) : Z :=
  match skip_space s with
  | "-"%char :: s' => clamp_long (- digits_value 0 s')
  | "+"%char :: s' => clamp_long (digits_value 0 s')
  | s' => clamp_long (digits_value 0 s')
  end.

(** [atoi(s)] as the BSD and GNU C libraries define it,
    [(int) strtol(s, NULL, 10)].  ISO C leaves the result undefined when
    the number does not fit an [int]; here it is the low 32 bits. *)
Definition atoi (s : cstring) : Z := int_wrap (strtol s).

(** ** Errors and undefined behaviour while parsing

    A parsing computation yields the messages it handed to [print_error]
    and, unless it ran into behaviour that C leaves undefined, a value. *)

Definition M (A : Type) : Type := (list string * option A)%type.

Definition ret {A} (a : A) : M A := ([], Some a).

Definition bind {A B} (m : M A) (f : A -> M B) : M B :=
  match m with
  | (log, Some a) => let '(log', r) := f a in (log ++ log', r)
  | (log, None) => (log, None)
  end.

Definition print_error (message : string) : M unit := ([message], Some tt).

Definition undefined {A} : M A := ([], None).

Notation "'let*' x ':=' m 'in' k" := (bind m (fun x => k))
  (at level 10, x name, m at level 100, k at level 200, only parsing).
Notation "m >>> k" := (bind m (fun _ => k))
  (at level 100, k at level 200, right associativity, only parsing).

(** The messages of the source, under the names the specification uses. *)
Definition EmptyOperand : string := "Missing Object.".
Definition MismatchedParentheses : string := "Mismatched parentheses.".
Definition MissingDelimiter : string := "Garbled roll (no 'd' delimiter).".
Definition EmptyConstant : string := "Missing constant.".
Definition InvalidConstant : string := "Invalid constant.".
Definition UnknownModifier : string := "Invalid Modifier Character.".
Definition MissingModifierConstant : string := "Missing Modifier Constant.".
Definition MissingRoll : string := "Missing Roll.".
Definition MissingModifier : string := "Missing Modifier.".

(** ** The syntax tree of dice.h *)

Inductive OpType : Type := A_OP | M_OP.

Inductive Operation : Type := NOOP | PLUS | MINUS | TIMES | DIVIDE.

Inductive ModifierType : Type :=
  NONE | CHOOSE_HIGH | CHOOSE_LOW | REROLL_BELOW | KEEP_AND_REROLL_ABOVE.

Record RollModifier : Type := mkRollModifier {
  mod_type : ModifierType;
  mod_constant : Z
}.

Record RollNode : Type := mkRollNode {
  dieCount : Z;
  dieSides : Z;
  rollMod : option RollModifier
}.

Inductive ExprList : Type :=
| mkExprList (lhList : option ExprList) (obj : option ObjNode)
             (opt : Operation) (rhList : option ExprList)
with ObjNode : Type :=
| mkObjNode (roll : option RollNode) (constant : Z) (subList : option ExprList).

Definition lhList (e : ExprList) : option ExprList :=
  match e with mkExprList l _ _ _ => l end.
Definition obj (e : ExprList) : option ObjNode :=
  match e with mkExprList _ o _ _ => o end.
Definition opt (e : ExprList) : Operation :=
  match e with mkExprList _ _ o _ => o end.
Definition rhList (e : ExprList) : option ExprList :=
  match e with mkExprList _ _ _ r => r end.

Definition roll (o : ObjNode) : option RollNode :=
  match o with mkObjNode r _ _ => r end.
Definition constant (o : ObjNode) : Z :=
  match o with mkObjNode _ c _ => c end.
Definition subList (o : ObjNode) : option ExprList :=
  match o with mkObjNode _ _ s => s end.

(** ** The scanner *)

(** What [find_first_free_opt] returns: a pointer into [inp] (as its
    offset), the address of the literal ["?"], or NULL. *)
Inductive FirstOpt : Type :=
| OptAt (off : nat)
| OptSentinel
| OptNull.

(** The [while] loop of [find_first_free_opt].  [scan] is the current
    result of [strpbrk] as an offset from [inp]; every turn moves it
    forward, so [fuel] turns, with [fuel] the length of [inp], are never
    used up. *)
Fixpoint scan_loop (fuel : nat) (inp : cstring) (len : Z) (opchars : cstring)
    (scan : option nat) (parensDepth : Z) : M FirstOpt :=
  let finish :=
    if negb (parensDepth =? 0) then
      print_error MismatchedParentheses >>> ret OptSentinel
    else ret OptNull in
  match scan with
  | Some off =>
      if Z.of_nat off <? len then
        match fuel with
        | O => finish
        | S fuel' =>
            let next := (fun k => off + 1 + k)%nat <$> strpbrk (drop (off + 1) inp) opchars in
            let c := char_at inp (Z.of_nat off) in
            if Ascii.eqb c "("%char then
              scan_loop fuel' inp len opchars next (parensDepth + 1)
            else if Ascii.eqb c ")"%char then
              if parensDepth - 1 <? 0 then
                print_error MismatchedParentheses >>> ret OptSentinel
              else scan_loop fuel' inp len opchars next (parensDepth - 1)
            else
              if parensDepth =? 0 then ret (OptAt off)
              else scan_loop fuel' inp len opchars next parensDepth
        end
      else finish
  | None => finish
  end.

Definition find_first_free_opt (inp : cstring) (len : Z) (opchars : cstring) : M FirstOpt :=
  scan_loop (length inp) inp len opchars (strpbrk inp opchars) 0.

(** ** The parser *)

#[global] Instance Operation_eq_dec : EqDecision Operation.
Proof. solve_decision. Defined.

Definition is_null {A} (p : option A) : bool :=
  match p with None => true | Some _ => false end.

(** [parse_operator(inp)] looks at [*inp]. *)
Definition parse_operator (inp : cstring) : Operation :=
  let c := char_at inp 0 in
  if Ascii.eqb c "+"%char then PLUS
  else if Ascii.eqb c "-"%char then MINUS
  else if Ascii.eqb c "*"%char then TIMES
  else if Ascii.eqb c "/"%char then DIVIDE
  else NOOP.

(** The [switch] of [parse_modifier]; [None] is its [default] branch. *)
Definition modifier_type_of (c : ascii) : option ModifierType :=
  if Ascii.eqb c "c"%char then Some CHOOSE_HIGH
  else if Ascii.eqb c "b"%char then Some REROLL_BELOW
  else if Ascii.eqb c "v"%char then Some KEEP_AND_REROLL_ABOVE
  else if Ascii.eqb c "w"%char then Some CHOOSE_LOW
  else None.

Definition parse_modifier (inp : cstring) (len : Z) : M (option RollModifier) :=
  if len <=? 0 then print_error MissingModifier >>> ret None
  else
    match modifier_type_of (char_at inp 0) with
    | None => print_error UnknownModifier >>> ret None
    | Some type =>
        if len <? 2 then print_error MissingModifierConstant >>> ret None
        else
          let constant := strncpy (drop 1 inp) (len - 1) in
          let value := atoi constant in
          ret (Some (mkRollModifier type value))
    end.

(** [parse_roll] from the computation of [a_chars] on: [d_off] is
    [d_loc - inp], [mod_chars] and [rmod] (the source's [mod]) are as the first half left them.
    [STACK_ALLOC(char, constB, b_chars+1)] and [strncpy(constB, d_loc+1,
    b_chars)] have no defined behaviour for a negative [b_chars], which is
    what a modifier letter in front of the ['d'] produces. *)
Definition parse_roll_consts (inp : cstring) (len : Z) (d_off : nat)
    (mod_chars : Z) (rmod : option RollModifier) : M (option RollNode) :=
  let a_chars := Z.of_nat d_off in
  let b_chars := len - (Z.of_nat d_off + 1 + mod_chars) in
  if b_chars <? 0 then undefined
  else
    let constA := strncpy inp a_chars in
    let constB := strncpy (drop (d_off + 1) inp) b_chars in
    let a_char_len := strlen constA in
    let b_char_len := strlen constB in
    if (a_char_len =? 0) || (b_char_len =? 0) then
      print_error EmptyConstant >>> ret None
    else
      let a_nums_len := Z.of_nat (strspn constA digits) in
      let b_nums_len := Z.of_nat (strspn constB digits) in
      if negb (a_nums_len =? a_char_len) || negb (b_nums_len =? b_char_len) then
        print_error InvalidConstant >>> ret None
      else
        ret (Some (mkRollNode (atoi constA) (atoi constB) rmod)).

Definition parse_roll (inp : cstring) (len : Z) : M (option RollNode) :=
  if len <=? 0 then print_error MissingRoll >>> ret None
  else
    match strchr inp "d"%char with
    | None => print_error MissingDelimiter >>> ret None
    | Some d_off =>
        if Z.of_nat d_off >=? len then print_error MissingDelimiter >>> ret None
        else
          match strpbrk inp (cstr "cbvw") with
          | Some mod_off =>
              if Z.of_nat mod_off <? len then
                let mod_chars := len - Z.of_nat mod_off in
                let* rmod := parse_modifier (drop mod_off inp) mod_chars in
                match rmod with
                | None => ret None
                | Some _ => parse_roll_consts inp len d_off mod_chars rmod
                end
              else parse_roll_consts inp len d_off 0 None
          | None => parse_roll_consts inp len d_off 0 None
          end
    end.

Definition opchars_of (type : OpType) : cstring :=
  match type with
  | M_OP => cstr "()*/"
  | A_OP => cstr "()+-"
  end.

(** The bodies of the two mutually recursive functions, with the recursive
    calls as parameters. *)
Section Bodies.
Variable parse_expr : cstring -> Z -> OpType -> M (option ExprList).
Variable parse_obj : cstring -> Z -> M (option ObjNode).

(** When the scanner returns the literal ["?"], the source does not test
    for it: it runs the branch for a found operator, with
    [first_opt - inp] the difference of a pointer to the literal and a
    pointer into the input.  That difference has no defined value, and it
    is the length of the left operand and, subtracted from [len], of the
    right one: the run has left defined behaviour, after the scanner's
    message. *)
Definition parse_expr_body (inp : cstring) (len : Z) (type : OpType)
    : M (option ExprList) :=
  if len <=? 0 then print_error EmptyOperand >>> ret None
  else
    let opchars := opchars_of type in
    let* first_opt := find_first_free_opt inp len opchars in
    match first_opt with
    | OptAt p =>
        let* obj :=
          match type with
          | M_OP => parse_obj inp (Z.of_nat p)
          | A_OP => ret None
          end in
        let* lhExpr :=
          match type with
          | M_OP => ret None
          | A_OP => parse_expr inp (Z.of_nat p) M_OP
          end in
        let opt := parse_operator (drop p inp) in
        let* subExpr :=
          parse_expr (drop (p + 1) inp) (len - (Z.of_nat p + 1)) type in
        if (is_null obj && is_null lhExpr) || bool_decide (opt = NOOP)
           || is_null subExpr
        then ret None
        else ret (Some (mkExprList lhExpr obj opt subExpr))
    | OptSentinel => undefined
    | OptNull =>
        let* obj :=
          match type with
          | M_OP => parse_obj inp len
          | A_OP => ret None
          end in
        let* lhNode :=
          match type with
          | M_OP => ret None
          | A_OP => parse_expr inp len M_OP
          end in
        if is_null obj && is_null lhNode then ret None
        else ret (Some (mkExprList lhNode obj NOOP None))
    end.

Definition parse_obj_body (inp : cstring) (len : Z) : M (option ObjNode) :=
  if len <=? 0 then print_error EmptyOperand >>> ret None
  else if Ascii.eqb (char_at inp 0) "("%char then
    if negb (Ascii.eqb (char_at inp (len - 1)) ")"%char) then
      print_error MismatchedParentheses >>> ret None
    else
      let* subExpr := parse_expr (drop 1 inp) (len - 2) A_OP in
      match subExpr with
      | None => ret None
      | Some _ => ret (Some (mkObjNode None 0 subExpr))
      end
  else if Z.of_nat (strspn inp digits) =? len then
    let numbuf := strncpy inp len in
    ret (Some (mkObjNode None (atoi numbuf) None))
  else
    let* roll := parse_roll inp len in
    match roll with
    | None => ret None
    | Some _ => ret (Some (mkObjNode roll 0 None))
    end.
End Bodies.

(** The recursion is tied by a counter that bounds the depth of the calls;
    [parse_expr] and [parse_obj] below start it high enough for the span
    they are given (lemmas [parse_expr_eq] and [parse_obj_eq]). *)
Fixpoint parse_expr_fuel (fuel : nat) (inp : cstring) (len : Z) (type : OpType)
    : M (option ExprList) :=
  match fuel with
  | O => undefined
  | S fuel' =>
      parse_expr_body (parse_expr_fuel fuel') (parse_obj_fuel fuel') inp len type
  end
with parse_obj_fuel (fuel : nat) (inp : cstring) (len : Z) : M (option ObjNode) :=
  match fuel with
  | O => undefined
  | S fuel' => parse_obj_body (parse_expr_fuel fuel') inp len
  end.

Definition expr_depth (len : Z) (type : OpType) : nat :=
  match type with
  | A_OP => 3 * Z.to_nat len + 3
  | M_OP => 3 * Z.to_nat len + 2
  end.

Definition obj_depth (len : Z) : nat := 3 * Z.to_nat len + 1.

Definition parse_expr (inp : cstring) (len : Z) (type : OpType) : M (option ExprList) :=
  parse_expr_fuel (expr_depth len type) inp len type.

Definition parse_obj (inp : cstring) (len : Z) : M (option ObjNode) :=
  parse_obj_fuel (obj_depth len) inp len.

(** The call of [main]'s helpers: the whole argument at additive level. *)
Definition parse (s : string) : M (option ExprList) :=
  parse_expr (cstr s) (strlen (cstr s)) A_OP.

(** ** Running a tree

    The evaluator draws from [get_next_random] and can stop the process
    (division by zero, a NULL or out-of-bounds access, [exit(1)]).  The
    random source is the list of the numbers [random()] returns next, in
    order.  A run [Returns] a value and the numbers it left unused,
    [Faults], or is [Starved]: it asked for a number after the last one
    listed, so a longer list is needed to see how it goes on. *)

Inductive Outcome (A : Type) : Type :=
| Returns (a : A) (rng : list Z)
| Faults
| Starved.
Arguments Returns {A} a rng.
Arguments Faults {A}.
Arguments Starved {A}.

Definition Exec (A : Type) : Type := list Z -> Outcome A.

Definition eret {A} (a : A) : Exec A := fun rng => Returns a rng.

Definition ebind {A B} (m : Exec A) (f : A -> Exec B) : Exec B :=
  fun rng =>
    match m rng with
    | Returns a rng' => f a rng'
    | Faults => Faults
    | Starved => Starved
    end.

Definition fault {A} : Exec A := fun _ => Faults.
Definition starved {A} : Exec A := fun _ => Starved.

Notation "'let+' x ':=' m 'in' k" := (ebind m (fun x => k))
  (at level 10, x name, m at level 100, k at level 200, only parsing).
Notation "'let+' ' p ':=' m 'in' k" := (ebind m (fun x => match x with p => k end))
  (at level 10, p pattern, m at level 100, k at level 200, only parsing).

(** [for (int i = 0; i < n; i++) body], threading the variables the body
    updates; [i] is the value of the counter at the first of the [n] turns. *)
Fixpoint for_loop {St : Type} (n : nat) (i : nat) (body : nat -> St -> Exec St)
    (s : St) : Exec St :=
  match n with
  | O => eret s
  | S n' => let+ s' := body i s in for_loop n' (S i) body s'
  end.

(** A loop that draws at least once per turn never takes more turns than
    there are numbers left: [with_supply] hands that bound to the loop. *)
Definition with_supply {A} (loop : nat -> Exec A) : Exec A :=
  fun rng => loop (length rng) rng.

Definition get_next_random : Exec Z :=
  fun rng =>
    match rng with
    | [] => Starved
    | r :: rng' => Returns r rng'
    end.

(** [(r % dieSides) + 1] for a non-zero [dieSides]; C's [%] truncates
    like [Z.rem]. *)
Definition die_value (dieSides r : Z) : Z := int_add (Z.rem r dieSides) 1.

(** [(get_next_random() % dieSides) + 1]. *)
Definition roll_die (dieSides : Z) : Exec Z :=
  let+ r := get_next_random in
  if dieSides =? 0 then fault else eret (die_value dieSides r).

(** [sum_up(rolls, count)]. *)
Definition sum_up (rolls : list Z) (count : Z) : Z :=
  fold_left int_add (take (Z.to_nat count) rolls) 0.

Definition compare_roll_high (r1 r2 : Z) : Z := int_sub r2 r1.
Definition compare_roll_low (r1 r2 : Z) : Z := int_sub r1 r2.

(** [qsort] of libc over a whole [int] array: it leaves the elements
    ordered so that [comp] of two neighbours is never positive.  With a
    comparator under which only equal numbers compare as 0 that array is
    unique, whatever the algorithm; straight insertion is used here. *)
Fixpoint qsort_insert (comp : Z -> Z -> Z) (x : Z) (l : list Z) : list Z :=
  match l with
  | [] => [x]
  | y :: l' => if comp x y <=? 0 then x :: l else y :: qsort_insert comp x l'
  end.

Definition qsort (comp : Z -> Z -> Z) (l : list Z) : list Z :=
  foldr (qsort_insert comp) [] l.

Section Executor.
(** [STACK_ALLOC(int, name, n)] is not defined in the two source files;
    it declares [name] as an array of [n] elements on the stack.  The
    elements start with whatever the stack held: [stack_junk k] for the
    [k]-th. *)
Variable stack_junk : nat -> Z.

Definition STACK_ALLOC (n : Z) : list Z := map stack_junk (seq 0 (Z.to_nat n)).

(** A negative [dieCount] (which [atoi] gives for a count beyond
    [INT_MAX]) makes [rolls] an array of a negative number of elements,
    here and in [execute_reroll_below_roll] and [execute_exploding_roll].
    That has no defined behaviour; the run is taken to stop there, though
    a compiled program may as well skip the loop and return 0.  No
    property below is about such a count. *)
Definition execute_basic_roll (dieCount dieSides : Z) : Exec Z :=
  if dieCount <? 0 then fault
  else
    let rolls := STACK_ALLOC dieCount in
    let+ rolls :=
      for_loop (Z.to_nat dieCount) 0
        (fun i rolls =>
           let+ r := roll_die dieSides in
           eret (<[i := r]> rolls))
        rolls in
    eret (sum_up rolls dieCount).

(** A negative [nChoose] makes [rolls] an array of no or a negative
    number of elements and [rolls[nChoose]] a write in front of it.
    [nChoose + 1] is not reduced to 32 bits: it leaves the range only for
    [nChoose = INT_MAX], an array no stack holds. *)
Definition execute_choose_n_roll (dieCount dieSides nChoose : Z)
    (comp : Z -> Z -> Z) : Exec Z :=
  if nChoose <? 0 then fault
  else
    let rolls := STACK_ALLOC (nChoose + 1) in
    let chosen := 0 in
    let+ '(rolls, chosen) :=
      for_loop (Z.to_nat dieCount) 0
        (fun i '(rolls, chosen) =>
           let+ roll := roll_die dieSides in
           if chosen <? nChoose then
             eret (<[Z.to_nat chosen := roll]> rolls, chosen + 1)
           else
             eret (qsort comp (<[Z.to_nat nChoose := roll]> rolls), chosen))
        (rolls, chosen) in
    eret (sum_up rolls nChoose).

(** [while (roll <= rerollThresh) roll = (get_next_random() % dieSides) + 1;] *)
Fixpoint reroll_while (turns : nat) (dieSides rerollThresh roll : Z) : Exec Z :=
  if roll <=? rerollThresh then
    match turns with
    | O => starved
    | S turns' =>
        let+ roll' := roll_die dieSides in
        reroll_while turns' dieSides rerollThresh roll'
    end
  else eret roll.

Definition execute_reroll_below_roll (dieCount dieSides rerollThresh : Z) : Exec Z :=
  if dieCount <? 0 then fault
  else
    let rolls := STACK_ALLOC dieCount in
    let+ rolls :=
      for_loop (Z.to_nat dieCount) 0
        (fun i rolls =>
           let+ roll := roll_die dieSides in
           let+ roll := with_supply (fun turns =>
                          reroll_while turns dieSides rerollThresh roll) in
           eret (<[i := roll]> rolls))
        rolls in
    eret (sum_up rolls dieCount).

(** [while (roll >= explodeThresh) { roll = ...; rollTotal += roll; }] *)
Fixpoint explode_while (turns : nat) (dieSides explodeThresh roll rollTotal : Z)
    : Exec Z :=
  if roll >=? explodeThresh then
    match turns with
    | O => starved
    | S turns' =>
        let+ roll' := roll_die dieSides in
        explode_while turns' dieSides explodeThresh roll' (int_add rollTotal roll')
    end
  else eret rollTotal.

Definition execute_exploding_roll (dieCount dieSides explodeThresh : Z) : Exec Z :=
  if dieCount <? 0 then fault
  else
    let rolls := STACK_ALLOC dieCount in
    let+ rolls :=
      for_loop (Z.to_nat dieCount) 0
        (fun i rolls =>
           let rollTotal := 0 in
           let+ roll := roll_die dieSides in
           let rollTotal := int_add rollTotal roll in
           let+ rollTotal := with_supply (fun turns =>
                               explode_while turns dieSides explodeThresh roll rollTotal) in
           eret (<[i := rollTotal]> rolls))
        rolls in
    eret (sum_up rolls dieCount).

Definition execute_roll (roll : RollNode) : Exec Z :=
  match rollMod roll with
  | Some m =>
      match mod_type m with
      | CHOOSE_HIGH =>
          execute_choose_n_roll (dieCount roll) (dieSides roll) (mod_constant m)
            compare_roll_high
      | CHOOSE_LOW =>
          execute_choose_n_roll (dieCount roll) (dieSides roll) (mod_constant m)
            compare_roll_low
      | REROLL_BELOW =>
          execute_reroll_below_roll (dieCount roll) (dieSides roll) (mod_constant m)
      | KEEP_AND_REROLL_ABOVE =>
          execute_exploding_roll (dieCount roll) (dieSides roll) (mod_constant m)
      | NONE => eret 0
      end
  | None => execute_basic_roll (dieCount roll) (dieSides roll)
  end.

(** [expr_is_singlet]. *)
Definition expr_is_singlet (expr : ExprList) : bool :=
  is_null (rhList expr) && bool_decide (opt expr = NOOP).

(** [lhResult / rhResult]: no quotient for a zero divisor, nor for
    [INT_MIN / -1]. *)
Definition int_div (a b : Z) : Exec Z :=
  if (b =? 0) || ((a =? INT_MIN) && (b =? -1)) then fault else eret (Z.quot a b).

(** [execute_expr] and [execute_obj]; following a NULL pointer faults, and
    so does the [default] branch with its [exit(1)]. *)
Fixpoint execute_expr (expr : ExprList) : Exec Z :=
  match expr with
  | mkExprList lhList obj opt rhList =>
      let+ lhResult :=
        match lhList with
        | Some l => execute_expr l
        | None =>
            match obj with
            | Some o => execute_obj o
            | None => fault
            end
        end in
      if expr_is_singlet expr then eret lhResult
      else
        match rhList with
        | None => fault
        | Some r =>
            let+ rhResult := execute_expr r in
            match opt with
            | PLUS => eret (int_add lhResult rhResult)
            | MINUS => eret (int_sub lhResult rhResult)
            | TIMES => eret (int_mul lhResult rhResult)
            | DIVIDE => int_div lhResult rhResult
            | NOOP => fault
            end
        end
  end
with execute_obj (obj : ObjNode) : Exec Z :=
  match obj with
  | mkObjNode roll constant subList =>
      match roll with
      | Some r => execute_roll r
      | None =>
          match subList with
          | Some e => execute_expr e
          | None => eret constant
          end
      end
  end.

(** Parse a whole argument and run the tree, as [parse_and_exec_cmdline]
    does for each argument; [None] when there is no tree to run. *)
Definition evaluate (s : string) (rng : list Z) : option (Outcome Z) :=
  match parse s with
  | (_, Some (Some tree)) => Some (execute_expr tree rng)
  | _ => None
  end.
End Executor.

(** ** The command line and the interactive mode

    What the program prints is kept as the list of its lines and labels,
    in order.  The executor's narration of single dice in verbose mode is
    left out, as it is in the executor above. *)

Inductive Verbosity : Type := VER_QUIET | VER_DEFAULT | VER_VERBOSE.

Inductive Mode : Type := MODE_CMDLINE | MODE_HELP | MODE_INTERACTIVE | MODE_TUI.

Record ConfigOptions : Type := mkConfigOptions {
  verbosity : Verbosity;
  mode : Mode;
  option_count : Z
}.

#[global] Instance Verbosity_eq_dec : EqDecision Verbosity.
Proof. solve_decision. Defined.

#[global] Instance Mode_eq_dec : EqDecision Mode.
Proof. solve_decision. Defined.

#[global] Instance ascii_eq_dec : EqDecision ascii := ascii_dec.

Inductive Event : Type :=
| UsageText                  (* the two lines of [print_usage] *)
| HelpText                   (* the text of [print_help] *)
| Separator                  (* the line of dashes *)
| LabelBreak                 (* a line break and the line of dashes *)
| RollLabel (i : Z)          (* [printf("Roll %d:", i)] *)
| Blank                      (* [printf(" ")] *)
| TotalPrefix                (* [printf("Total: ")] *)
| TotalLine (v : Z)          (* [printf("%d\n", result)] *)
| ErrorLine (msg : string)   (* [print_error(msg)] *)
| VerbositySet (v : Verbosity) (* "Verbosity set to ..." *)
| Banner                     (* "dice, interactive mode:" and the first prompt *)
| Prompt.                    (* ">>> " *)

(** A run of the program from a random source: what it has printed, and
    how it went on. *)
Definition Proc (A : Type) : Type := list Z -> list Event * Outcome A.

Definition pret {A} (a : A) : Proc A := fun rng => ([], Returns a rng).

Definition pbind {A B} (m : Proc A) (f : A -> Proc B) : Proc B :=
  fun rng =>
    match m rng with
    | (out, Returns a rng') => let '(out', r) := f a rng' in (out ++ out', r)
    | (out, Faults) => (out, Faults)
    | (out, Starved) => (out, Starved)
    end.

Definition emit (e : Event) : Proc unit := fun rng => ([e], Returns tt rng).

Definition emit_if (b : bool) (e : Event) : Proc unit :=
  if b then emit e else pret tt.

(** A call of the executor. *)
Definition of_exec {A} (m : Exec A) : Proc A := fun rng => ([], m rng).

(** A call of the parser: its messages are printed; undefined behaviour
    is taken to stop the process. *)
Definition of_parse {A} (m : M A) : Proc A :=
  fun rng =>
    match m with
    | (log, Some a) => (map ErrorLine log, Returns a rng)
    | (log, None) => (map ErrorLine log, Faults)
    end.

Notation "'let!' x ':=' m 'in' k" := (pbind m (fun x => k))
  (at level 10, x name, m at level 100, k at level 200, only parsing).
Notation "m ';;;' k" := (pbind m (fun _ => k))
  (at level 100, k at level 200, right associativity, only parsing).

(** [print_usage]: the text, then [exit(1)]. *)
Definition print_usage {A} : Proc A := fun _ => ([UsageText], Faults).

Definition print_help : Proc unit := emit HelpText.

(** [strcmp(a, b) == 0]. *)
Definition strcmp_eq (a b : cstring) : bool := bool_decide (a = b).

(** [strncmp(a, b, n) == 0]. *)
Definition strncmp_eq (a b : cstring) (n : nat) : bool :=
  bool_decide (take n a = take n b).

(** [strcspn(s, reject)]: length of the longest prefix of [s] without a
    character of [reject]. *)
Fixpoint strcspn (s reject : cstring) : nat :=
  match s with
  | [] => O
  | c :: s' => if mem_char c reject then O else S (strcspn s' reject)
  end.

(** The end of [parse_options], after its loop; [i] is the index the loop
    stopped at. *)
Definition parse_options_end (i : Z) (verbose quiet : bool) (opts : ConfigOptions)
    : ConfigOptions :=
  let both := verbose && quiet in
  let verbose := if both then false else verbose in
  let quiet := if both then false else quiet in
  let opts :=
    if verbose then mkConfigOptions VER_VERBOSE (mode opts) (option_count opts)
    else opts in
  let opts :=
    if quiet then mkConfigOptions VER_QUIET (mode opts) (option_count opts)
    else opts in
  mkConfigOptions (verbosity opts) (mode opts) (i - 1).

(** The loop of [parse_options]; [args] is [argv] from index [i] on. *)
Fixpoint parse_options_loop (args : list cstring) (i : Z) (verbose quiet : bool)
    (opts : ConfigOptions) : Proc ConfigOptions :=
  match args with
  | [] => pret (parse_options_end i verbose quiet opts)
  | arg :: args' =>
      if Ascii.eqb (char_at arg 0) "-"%char then
        if strcmp_eq arg (cstr "-help") then
          if i =? 1 then
            pret (mkConfigOptions (verbosity opts) MODE_HELP (option_count opts))
          else print_usage
        else
          let verbose := if strcmp_eq arg (cstr "-v") then true else verbose in
          let quiet := if strcmp_eq arg (cstr "-q") then true else quiet in
          let opts :=
            if strcmp_eq arg (cstr "-i") then
              mkConfigOptions (verbosity opts) MODE_INTERACTIVE (option_count opts)
            else opts in
          parse_options_loop args' (i + 1) verbose quiet opts
      else pret (parse_options_end i verbose quiet opts)
  end.

(** [parse_options(argc, argv)]: [argv] with the program's name first. *)
Definition parse_options (argv : list cstring) : Proc ConfigOptions :=
  parse_options_loop (drop 1 argv) 1 false false
    (mkConfigOptions VER_DEFAULT MODE_CMDLINE 0).

Section Driver.
Variable stack_junk : nat -> Z.

(** One turn of the loops of [parse_and_exec_cmdline] and of
    [parse_and_exec_interactive_input], which have the same body: the
    label [i], the parse of the span, and the total if there is a tree. *)
Definition roll_turn (verbose quiet : bool) (i : Z) (inp : cstring) (len : Z)
    : Proc unit :=
  emit_if (negb quiet) (RollLabel i) ;;;
  (if verbose then emit LabelBreak else emit_if (negb quiet) Blank) ;;;
  let! tree := of_parse (parse_expr inp len A_OP) in
  (match tree with
   | Some t =>
       let! result := of_exec (execute_expr stack_junk t) in
       emit_if verbose TotalPrefix ;;;
       emit (TotalLine result)
   | None => pret tt
   end) ;;;
  emit_if verbose Separator.

(** The loop of [parse_and_exec_cmdline]; [args] is [argv] from index
    [i] on. *)
Fixpoint cmdline_loop (verbose quiet : bool) (i : Z) (args : list cstring)
    : Proc unit :=
  match args with
  | [] => pret tt
  | arg :: args' =>
      roll_turn verbose quiet (i + 1) arg (strlen arg) ;;;
      cmdline_loop verbose quiet (i + 1) args'
  end.

(** [parse_and_exec_cmdline(argc, argv, options)], [argv] being the
    [argc] arguments to roll. *)
Definition parse_and_exec_cmdline (argv : list cstring) (options : ConfigOptions)
    : Proc unit :=
  (if Z.of_nat (length argv) =? 0 then print_usage else pret tt) ;;;
  let verbose := bool_decide (verbosity options = VER_VERBOSE) in
  let quiet := bool_decide (verbosity options = VER_QUIET) in
  emit_if verbose Separator ;;;
  cmdline_loop verbose quiet 0 argv.

(** [parse_and_exec_set_command(cmd, options)]; the options are returned
    as the call leaves them. *)
Definition parse_and_exec_set_command (cmd : cstring) (options : ConfigOptions)
    : Proc ConfigOptions :=
  if (strlen cmd >=? 10) && strncmp_eq cmd (cstr "verbosity ") 10 then
    let cmd := drop 10 cmd in
    let nl := [ascii_of_nat 10] in
    if strcmp_eq cmd (cstr "verbose" ++ nl) || strcmp_eq cmd (cstr "v" ++ nl)
       || strcmp_eq cmd (cstr "-v" ++ nl) then
      emit (VerbositySet VER_VERBOSE) ;;;
      pret (mkConfigOptions VER_VERBOSE (mode options) (option_count options))
    else if strcmp_eq cmd (cstr "normal" ++ nl)
            || strcmp_eq cmd (cstr "default" ++ nl) then
      emit (VerbositySet VER_DEFAULT) ;;;
      pret (mkConfigOptions VER_DEFAULT (mode options) (option_count options))
    else if strcmp_eq cmd (cstr "quiet" ++ nl) || strcmp_eq cmd (cstr "q" ++ nl)
            || strcmp_eq cmd (cstr "-q" ++ nl) then
      emit (VerbositySet VER_QUIET) ;;;
      pret (mkConfigOptions VER_QUIET (mode options) (option_count options))
    else
      emit (ErrorLine "Unrecognized verbosity setting.") ;;; pret options
  else
    emit (ErrorLine "Unrecognized setting.") ;;; pret options.

(** The loop over the rolls of a line; [cur] is [current_location].  A
    turn moves [cur] forward by at least one character, so the turns are
    at most as many as the characters of the line: [turns] starts there,
    and the branch for no turn left is never taken (lemma
    [interactive_rolls_enough]). *)
Fixpoint interactive_rolls (turns : nat) (verbose quiet : bool) (i : Z)
    (cur : cstring) : Proc unit :=
  match cur with
  | [] => pret tt
  | _ :: _ =>
      match turns with
      | O => fun _ => ([], Starved)
      | S turns' =>
          let n_chars_this_roll := strcspn cur [" "%char; ascii_of_nat 10] in
          roll_turn verbose quiet i cur (Z.of_nat n_chars_this_roll) ;;;
          let cur := drop n_chars_this_roll cur in
          let cur := if strlen cur =? 0 then cur else drop 1 cur in
          interactive_rolls turns' verbose quiet (i + 1) cur
      end
  end.

(** [parse_and_exec_interactive_input(input, options)]. *)
Definition parse_and_exec_interactive_input (input : cstring)
    (options : ConfigOptions) : Proc ConfigOptions :=
  if (strlen input >=? 4) && strncmp_eq input (cstr "set ") 4 then
    parse_and_exec_set_command (drop 4 input) options
  else
    let verbose := bool_decide (verbosity options = VER_VERBOSE) in
    let quiet := bool_decide (verbosity options = VER_QUIET) in
    emit_if verbose Separator ;;;
    interactive_rolls (length input) verbose quiet 1 input ;;;
    pret options.

(** The loop of [interactive_loop] over the lines [fgets] returns, until
    it returns NULL.  The seeding of the generator by [init_random] has no
    part here: the random source is given. *)
Fixpoint interactive_lines (lines : list cstring) (options : ConfigOptions)
    : Proc unit :=
  match lines with
  | [] => pret tt
  | inpBuf :: lines' =>
      if Ascii.eqb (char_at inpBuf 0) (ascii_of_nat 27)
         || Ascii.eqb (char_at inpBuf 0) "q"%char
         || strcmp_eq inpBuf (cstr "exit" ++ [ascii_of_nat 10])
      then pret tt
      else
        let! options := parse_and_exec_interactive_input inpBuf options in
        emit Prompt ;;;
        interactive_lines lines' options
  end.

Definition interactive_loop (options : ConfigOptions) (lines : list cstring)
    : Proc unit :=
  emit Banner ;;; interactive_lines lines options.

(** [main(argc, argv)] with the lines of the standard input; it returns
    the exit status. *)
Definition main (argv : list cstring) (lines : list cstring) : Proc Z :=
  (if Z.of_nat (length argv) <? 2 then print_usage else pret tt) ;;;
  let! options := parse_options argv in
  if bool_decide (mode options = MODE_HELP) then print_help ;;; pret 0
  else
    let i := option_count options + 1 in
    (match mode options with
     | MODE_CMDLINE => parse_and_exec_cmdline (drop (Z.to_nat i) argv) options
     | MODE_INTERACTIVE => interactive_loop options lines
     | MODE_TUI => pret tt
     | MODE_HELP => pret tt
     end) ;;;
    pret 0.
End Driver.

(** * The vocabulary of the statements *)

(** ** Trees *)

(** The tree of a number standing alone at multiplicative level. *)
Definition const_term (n : Z) : ExprList :=
  mkExprList None (Some (mkObjNode None n None)) NOOP None.

(** The tree of [a - b] for two multiplicative operands, and of a single
    multiplicative operand, at additive level. *)
Definition a_node (l : ExprList) (o : Operation) (r : ExprList) : ExprList :=
  mkExprList (Some l) None o (Some r).
Definition a_singlet (l : ExprList) : ExprList :=
  mkExprList (Some l) None NOOP None.

(** ** Numbers *)

(** The sum of a list of integers, without wrap-around. *)
Definition sum_Z (l : list Z) : Z := foldr Z.add 0 l.

(** The number a string of digits denotes. *)
Definition decimal (s : cstring) : Z := digits_value 0 s.

(** ** Orders of selection *)

(** The two orders of selection: largest first, smallest first. *)
Definition descending : relation Z := fun a b => b <= a.
Definition ascending : relation Z := fun a b => a <= b.

#[local] Instance descending_dec : RelDecision descending.
Proof. intros a b. unfold descending. apply _. Defined.
#[local] Instance ascending_dec : RelDecision ascending.
Proof. intros a b. unfold ascending. apply _. Defined.

(** The [n] values of [l] that come first in the order [R]: the [n]
    largest for [descending], the [n] smallest for [ascending]. *)
Definition first_n_by (R : relation Z) `{!RelDecision R} (n : nat) (l : list Z)
    : list Z :=
  take n (merge_sort R l).

(** [chosen] are [n] of the values [draws], and each of them comes before
    every value left out, in the order [R]. *)
Definition best_n (R : relation Z) (n : nat) (draws chosen : list Z) : Prop :=
  length chosen = n /\
  exists others,
    draws ≡ₚ chosen ++ others /\
    forall x y, x ∈ chosen -> y ∈ others -> R x y.

(** A value a die can show: between 1 and [INT_MAX]. *)
Definition die_face (v : Z) : Prop := 1 <= v <= INT_MAX.

(** ** The loop of [execute_choose_n_roll] *)

(** What one turn of the loop of [execute_choose_n_roll] does with the
    value [roll] it has drawn. *)
Definition choose_step (nChoose : Z) (comp : Z -> Z -> Z) (st : list Z * Z) (roll : Z)
    : list Z * Z :=
  let '(rolls, chosen) := st in
  if chosen <? nChoose then (<[Z.to_nat chosen := roll]> rolls, chosen + 1)
  else (qsort comp (<[Z.to_nat nChoose := roll]> rolls), chosen).

(** The state of that loop after the draws [D], for [n = nChoose]: the
    first [min (length D) n] slots of [rolls] hold the [n] draws that
    [comp] puts first. *)
Definition choose_inv (n : nat) (comp : Z -> Z -> Z) (D : list Z) (st : list Z * Z)
    : Prop :=
  length st.1 = S n /\
  st.2 = Z.of_nat (length D `min` n) /\
  take (length D `min` n) st.1 ≡ₚ take n (qsort comp D).

(** ** Nesting of parentheses *)

(** The nesting depth after the characters of [s], entered at [depth];
    [None] when a [')'] comes at depth 0. *)
Fixpoint depth_after (depth : nat) (s : cstring) : option nat :=
  match s with
  | [] => Some depth
  | c :: s' =>
      if Ascii.eqb c "("%char then depth_after (S depth) s'
      else if Ascii.eqb c ")"%char then
        match depth with
        | O => None
        | S depth' => depth_after depth' s'
        end
      else depth_after depth s'
  end.

(** Parentheses are balanced when no [')'] comes at depth 0 and the depth
    ends at 0. *)
Definition balanced (s : cstring) : Prop := depth_after 0 s = Some O.

(** The scanner, character by character: [s] is what is left of [inp]
    from offset [k] on. *)
Fixpoint scan_span (opchars : cstring) (len : Z) (s : cstring) (k : nat)
    (parensDepth : Z) : M FirstOpt :=
  let finish :=
    if negb (parensDepth =? 0) then
      print_error MismatchedParentheses >>> ret OptSentinel
    else ret OptNull in
  match s with
  | [] => finish
  | c :: s' =>
      if mem_char c opchars then
        if Z.of_nat k <? len then
          if Ascii.eqb c "("%char then
            scan_span opchars len s' (S k) (parensDepth + 1)
          else if Ascii.eqb c ")"%char then
            if parensDepth - 1 <? 0 then
              print_error MismatchedParentheses >>> ret OptSentinel
            else scan_span opchars len s' (S k) (parensDepth - 1)
          else
            if parensDepth =? 0 then ret (OptAt k)
            else scan_span opchars len s' (S k) parensDepth
        else finish
      else scan_span opchars len s' (S k) parensDepth
  end.

(** ** Tactics for the parsing monad *)

(** Unfolding of the parsing monad in a hypothesis or in the goal. *)
Ltac munfold_in H := unfold bind, ret, print_error, undefined in H; simpl in H.
Ltac munfold := unfold bind, ret, print_error, undefined; simpl.

(** Case analysis on the result of a parsing step that is bound in [H]. *)
Ltac mstep H :=
  match type of H with
  | context [bind ?m _] =>
      let log := fresh "log" in
      let r := fresh "r" in
      let E := fresh "E" in
      destruct m as [log [r|]] eqn:E; unfold bind at 1 in H; cbv beta iota in H
  end.

(** ** Well-formed trees *)

(** The operators of a level. *)
Definition op_of_level (level : OpType) (o : Operation) : bool :=
  match level, o with
  | A_OP, PLUS | A_OP, MINUS | M_OP, TIMES | M_OP, DIVIDE => true
  | _, _ => false
  end.

(** A roll node whose modifier, if any, is one of the four kinds. *)
Definition roll_wf (r : RollNode) : Prop :=
  match rollMod r with
  | Some m => mod_type m <> NONE
  | None => True
  end.

(** The shape of the trees of a level.  An additive node has no [obj] and
    a multiplicative tree as [lhList]; a multiplicative node has no
    [lhList] and an object as [obj].  A node without [rhList] has [NOOP];
    a node with one has an operator of its level and a tree of the same
    level behind it.  An object is a roll, a nested additive tree or a
    constant, the other fields being NULL or 0. *)
Fixpoint expr_wf (level : OpType) (e : ExprList) : Prop :=
  match e with
  | mkExprList lh o op rh =>
      match level with
      | A_OP =>
          o = None /\
          match lh with
          | Some l => expr_wf M_OP l
          | None => False
          end
      | M_OP =>
          lh = None /\
          match o with
          | Some ob => obj_wf ob
          | None => False
          end
      end /\
      match rh with
      | None => op = NOOP
      | Some r => op_of_level level op = true /\ expr_wf level r
      end
  end
with obj_wf (o : ObjNode) : Prop :=
  match o with
  | mkObjNode r c s =>
      match r, s with
      | Some rn, None => c = 0 /\ roll_wf rn
      | None, Some e => c = 0 /\ expr_wf A_OP e
      | None, None => True
      | Some _, Some _ => False
      end
  end.

(** ** Free operators *)

(** Offset [q] of [inp] holds an operator of the level, outside all
    parentheses. *)
Definition free_operator (type : OpType) (inp : list ascii) (q : nat) : Prop :=
  exists c,
    inp !! q = Some c /\
    op_of_level type (parse_operator [c]) = true /\
    balanced (take q inp).

(** ** Pieces of a roll *)

(** No character of [s] is in [set]. *)
Definition no_char (set : cstring) (s : cstring) : bool :=
  forallb (fun c => negb (mem_char c set)) s.

Definition is_empty (s : cstring) : bool :=
  match s with
  | [] => true
  | _ :: _ => false
  end.

(** ** Arguments and lines *)

(** An argument that [parse_options] takes for a flag: it starts with a
    dash. *)
Definition is_flag (arg : cstring) : bool := Ascii.eqb (char_at arg 0) "-"%char.

(** The arguments up to the first one that is no flag. *)
Fixpoint leading_flags (args : list cstring) : list cstring :=
  match args with
  | [] => []
  | arg :: args' => if is_flag arg then arg :: leading_flags args' else []
  end.

Definition has_flag (f : string) (flags : list cstring) : bool :=
  bool_decide (cstr f ∈ flags).

Definition flags_verbosity (flags : list cstring) : Verbosity :=
  match has_flag "-v" flags, has_flag "-q" flags with
  | true, false => VER_VERBOSE
  | false, true => VER_QUIET
  | _, _ => VER_DEFAULT
  end.

Definition flags_mode (flags : list cstring) : Mode :=
  if has_flag "-i" flags then MODE_INTERACTIVE else MODE_CMDLINE.

(** The line feed that ends a line of input. *)
Definition LF : ascii := ascii_of_nat 10.


(** * Properties *)

(** ** The parser's recursion *)

Lemma scan_loop_at fuel inp len opchars scan depth log p :
  scan_loop fuel inp len opchars scan depth = (log, Some (OptAt p)) ->
  Z.of_nat p < len.
Proof.
  revert scan depth log.
  induction fuel as [|fuel IH]; intros scan depth log H; simpl in H.
  - destruct scan as [off|]; [destruct (Z.of_nat off <? len)|];
      destruct (depth =? 0); munfold_in H; congruence.
  - destruct scan as [off|].
    + destruct (Z.of_nat off <? len) eqn:Hlt.
      * destruct (Ascii.eqb _ "("%char); [eauto|].
        destruct (Ascii.eqb _ ")"%char).
        { destruct (depth - 1 <? 0); [munfold_in H; congruence | eauto]. }
        destruct (depth =? 0); [|eauto].
        munfold_in H. injection H as _ ->. lia.
      * destruct (depth =? 0); munfold_in H; congruence.
    + destruct (depth =? 0); munfold_in H; congruence.
Qed.

Lemma find_first_free_opt_at inp len opchars log p :
  find_first_free_opt inp len opchars = (log, Some (OptAt p)) ->
  Z.of_nat p < len.
Proof. apply scan_loop_at. Qed.

Lemma parse_expr_body_ext pe1 po1 pe2 po2 inp len type :
  (forall inp' len' type',
      (expr_depth len' type' < expr_depth len type)%nat ->
      pe1 inp' len' type' = pe2 inp' len' type') ->
  (forall inp' len',
      (obj_depth len' < expr_depth len type)%nat -> po1 inp' len' = po2 inp' len') ->
  parse_expr_body pe1 po1 inp len type = parse_expr_body pe2 po2 inp len type.
Proof.
  intros He Ho. unfold parse_expr_body.
  destruct (len <=? 0) eqn:Hlen; [done|]. apply Z.leb_gt in Hlen.
  destruct (find_first_free_opt inp len (opchars_of type))
    as [log [[p| |]|]] eqn:Hscan; simpl; try done.
  - apply find_first_free_opt_at in Hscan.
    destruct type.
    + rewrite (He inp (Z.of_nat p) M_OP) by (unfold expr_depth; lia).
      rewrite (He (drop (p + 1) inp) (len - (Z.of_nat p + 1)) A_OP)
        by (unfold expr_depth; lia).
      done.
    + rewrite (Ho inp (Z.of_nat p)) by (unfold expr_depth, obj_depth; lia).
      rewrite (He (drop (p + 1) inp) (len - (Z.of_nat p + 1)) M_OP)
        by (unfold expr_depth; lia).
      done.
  - destruct type.
    + rewrite (He inp len M_OP) by (unfold expr_depth; lia). done.
    + rewrite (Ho inp len) by (unfold expr_depth, obj_depth; lia). done.
Qed.

Lemma parse_obj_body_ext pe1 pe2 inp len :
  (forall inp' len' type',
      (expr_depth len' type' < obj_depth len)%nat ->
      pe1 inp' len' type' = pe2 inp' len' type') ->
  parse_obj_body pe1 inp len = parse_obj_body pe2 inp len.
Proof.
  intros He. unfold parse_obj_body.
  destruct (len <=? 0) eqn:Hlen; [done|]. apply Z.leb_gt in Hlen.
  destruct (Ascii.eqb _ "("%char); [|done].
  destruct (negb _); [done|].
  rewrite (He (drop 1 inp) (len - 2) A_OP) by (unfold expr_depth, obj_depth; lia).
  done.
Qed.

Lemma parse_fuel_enough n :
  (forall inp len type m,
      (expr_depth len type <= n)%nat -> (expr_depth len type <= m)%nat ->
      parse_expr_fuel n inp len type = parse_expr_fuel m inp len type) /\
  (forall inp len m,
      (obj_depth len <= n)%nat -> (obj_depth len <= m)%nat ->
      parse_obj_fuel n inp len = parse_obj_fuel m inp len).
Proof.
  induction n as [|n [IHe IHo]]; split.
  - intros inp len [] m H; unfold expr_depth in H; lia.
  - intros inp len m H; unfold obj_depth in H; lia.
  - intros inp len type [|m] Hn Hm; [destruct type; unfold expr_depth in Hm; lia|].
    simpl. apply parse_expr_body_ext.
    + intros inp' len' type' Hlt. apply IHe; lia.
    + intros inp' len' Hlt. apply IHo; lia.
  - intros inp len [|m] Hn Hm; [unfold obj_depth in Hm; lia|].
    simpl. apply parse_obj_body_ext.
    intros inp' len' type' Hlt. apply IHe; lia.
Qed.

(** [parse_expr] and [parse_obj] satisfy the equations of the source. *)
Lemma parse_expr_eq inp len type :
  parse_expr inp len type = parse_expr_body parse_expr parse_obj inp len type.
Proof.
  unfold parse_expr at 1.
  destruct (expr_depth len type) as [|n] eqn:Hd;
    [destruct type; unfold expr_depth in Hd; lia|].
  simpl. apply parse_expr_body_ext.
  - intros inp' len' type' Hlt. apply (proj1 (parse_fuel_enough n)); lia.
  - intros inp' len' Hlt. apply (proj2 (parse_fuel_enough n)); lia.
Qed.

Lemma parse_obj_eq inp len :
  parse_obj inp len = parse_obj_body parse_expr inp len.
Proof.
  unfold parse_obj at 1.
  destruct (obj_depth len) as [|n] eqn:Hd; [unfold obj_depth in Hd; lia|].
  simpl. apply parse_obj_body_ext.
  intros inp' len' type' Hlt. apply (proj1 (parse_fuel_enough n)); lia.
Qed.

(** ** Grouping and precedence *)

(** What [parse_expr] returns once the scanner has found an operator. *)
Lemma parse_expr_found inp len type log p :
  find_first_free_opt inp len (opchars_of type) = (log, Some (OptAt p)) ->
  parse_expr inp len type =
    bind (log, Some tt) (fun _ =>
    let* obj :=
      match type with
      | M_OP => parse_obj inp (Z.of_nat p)
      | A_OP => ret None
      end in
    let* lhExpr :=
      match type with
      | M_OP => ret None
      | A_OP => parse_expr inp (Z.of_nat p) M_OP
      end in
    let* subExpr := parse_expr (drop (p + 1) inp) (len - (Z.of_nat p + 1)) type in
    if (is_null obj && is_null lhExpr)
       || bool_decide (parse_operator (drop p inp) = NOOP) || is_null subExpr
    then ret None
    else ret (Some (mkExprList lhExpr obj (parse_operator (drop p inp)) subExpr))).
Proof.
  intros Hscan. pose proof (find_first_free_opt_at _ _ _ _ _ Hscan) as Hp.
  rewrite parse_expr_eq. unfold parse_expr_body.
  destruct (len <=? 0) eqn:Hlen; [apply Z.leb_le in Hlen; lia|].
  rewrite Hscan. reflexivity.
Qed.

Lemma parse_expr_found_inv inp len type log p log' tree :
  find_first_free_opt inp len (opchars_of type) = (log, Some (OptAt p)) ->
  parse_expr inp len type = (log', Some (Some tree)) ->
  exists logo o logl l logr sub,
    match type with
    | M_OP => parse_obj inp (Z.of_nat p)
    | A_OP => ret None
    end = (logo, Some o) /\
    match type with
    | M_OP => ret None
    | A_OP => parse_expr inp (Z.of_nat p) M_OP
    end = (logl, Some l) /\
    parse_expr (drop (p + 1) inp) (len - (Z.of_nat p + 1)) type
      = (logr, Some (Some sub)) /\
    tree = mkExprList l o (parse_operator (drop p inp)) (Some sub) /\
    parse_operator (drop p inp) <> NOOP /\
    (is_null o && is_null l = false).
Proof.
  intros Hscan H. rewrite (parse_expr_found _ _ _ _ _ Hscan) in H.
  unfold bind at 1 in H.
  mstep H; [|congruence]. mstep H; [|congruence]. mstep H; [|congruence].
  destruct (is_null r && is_null r0) eqn:Hnull; [munfold_in H; congruence|].
  destruct (bool_decide _) eqn:Hop; [munfold_in H; congruence|].
  destruct r1 as [sub|]; [|munfold_in H; congruence].
  munfold_in H. injection H as _ <-.
  apply bool_decide_eq_false in Hop.
  exists log0, r, log1, r0, log2, sub. done.
Qed.

(** C2.  An operator found outside parentheses makes the text after it
    the right-hand continuation, parsed at the same level: whenever the
    scanner returns the operator at offset [p] and [parse_expr] returns a
    tree, the tree's [rhList] is the tree [parse_expr] returns for
    [inp + p + 1] with the remaining length, and its [opt] is the operator
    at [p].  So "1-2-3" parses as 1-(2-3), with the tree of "2-3" as the
    right operand, and evaluates to 2; "2-3-4" evaluates to 3. *)
Theorem same_level_operators_group_right :
  (forall inp len type log p log' tree,
      find_first_free_opt inp len (opchars_of type) = (log, Some (OptAt p)) ->
      parse_expr inp len type = (log', Some (Some tree)) ->
      exists logr sub,
        parse_expr (drop (p + 1) inp) (len - (Z.of_nat p + 1)) type
          = (logr, Some (Some sub)) /\
        rhList tree = Some sub /\
        opt tree = parse_operator (drop p inp)) /\
  (exists t23,
      parse "2-3" = ([], Some (Some t23)) /\
      t23 = a_node (const_term 2) MINUS (a_singlet (const_term 3)) /\
      parse "1-2-3" = ([], Some (Some (a_node (const_term 1) MINUS t23)))) /\
  (forall stack_junk rng, evaluate stack_junk "1-2-3" rng = Some (Returns 2 rng)) /\
  (forall stack_junk rng, evaluate stack_junk "2-3-4" rng = Some (Returns 3 rng)).
Proof.
  split; [|split; [|split]].
  - intros inp len type log p log' tree Hscan H.
    destruct (parse_expr_found_inv _ _ _ _ _ _ _ Hscan H)
      as (logo & o & logl & l & logr & sub & _ & _ & Hsub & -> & _ & _).
    exists logr, sub. done.
  - eexists. split; [vm_compute; reflexivity|]. split; reflexivity.
  - intros stack_junk rng. vm_compute. reflexivity.
  - intros stack_junk rng. vm_compute. reflexivity.
Qed.

Lemma same_level_operators_group_right_witness :
  exists logr sub,
    parse_expr (drop (1 + 1) (cstr "1-2-3")) (5 - (Z.of_nat 1 + 1)) A_OP
      = (logr, Some (Some sub)) /\
    rhList (a_node (const_term 1) MINUS
              (a_node (const_term 2) MINUS (a_singlet (const_term 3)))) = Some sub /\
    opt (a_node (const_term 1) MINUS
           (a_node (const_term 2) MINUS (a_singlet (const_term 3))))
      = parse_operator (drop 1 (cstr "1-2-3")).
Proof.
  apply (proj1 same_level_operators_group_right (cstr "1-2-3") 5 A_OP [] 1%nat []).
  - vm_compute. reflexivity.
  - vm_compute. reflexivity.
Defined.

(** C3.  At additive level the operand in front of the operator is parsed
    by [parse_expr] at multiplicative level and stored in [lhList]; at
    multiplicative level it is parsed by [parse_obj] as one object and
    stored in [obj], with no [lhList].  So "2+3*4" evaluates to 14 and
    "(2+3)*4" to 20. *)
Theorem multiplicative_binds_tighter :
  (forall inp len log p log' tree,
      find_first_free_opt inp len (opchars_of A_OP) = (log, Some (OptAt p)) ->
      parse_expr inp len A_OP = (log', Some (Some tree)) ->
      obj tree = None /\
      exists logl l,
        parse_expr inp (Z.of_nat p) M_OP = (logl, Some (Some l)) /\
        lhList tree = Some l) /\
  (forall inp len log p log' tree,
      find_first_free_opt inp len (opchars_of M_OP) = (log, Some (OptAt p)) ->
      parse_expr inp len M_OP = (log', Some (Some tree)) ->
      lhList tree = None /\
      exists logo o,
        parse_obj inp (Z.of_nat p) = (logo, Some (Some o)) /\
        obj tree = Some o) /\
  (forall stack_junk rng, evaluate stack_junk "2+3*4" rng = Some (Returns 14 rng)) /\
  (forall stack_junk rng, evaluate stack_junk "(2+3)*4" rng = Some (Returns 20 rng)).
Proof.
  split; [|split; [|split]].
  - intros inp len log p log' tree Hscan H.
    destruct (parse_expr_found_inv _ _ _ _ _ _ _ Hscan H)
      as (logo & o & logl & l & logr & sub & Ho & Hl & _ & -> & _ & Hnull).
    munfold_in Ho. injection Ho as _ <-. simpl in *.
    split; [done|]. destruct l as [l|]; [|done]. eauto.
  - intros inp len log p log' tree Hscan H.
    destruct (parse_expr_found_inv _ _ _ _ _ _ _ Hscan H)
      as (logo & o & logl & l & logr & sub & Ho & Hl & _ & -> & _ & Hnull).
    munfold_in Hl. injection Hl as _ <-. simpl in *.
    split; [done|]. destruct o as [o|]; [|done]. eauto.
  - intros stack_junk rng. vm_compute. reflexivity.
  - intros stack_junk rng. vm_compute. reflexivity.
Qed.

Lemma multiplicative_binds_tighter_witness :
  (obj (a_node (mkExprList None (Some (mkObjNode None 2 None)) NOOP None) PLUS
          (a_singlet (mkExprList None (Some (mkObjNode None 3 None)) TIMES
                        (Some (const_term 4))))) = None /\
   exists logl l,
     parse_expr (cstr "2+3*4") (Z.of_nat 1) M_OP = (logl, Some (Some l)) /\
     lhList (a_node (mkExprList None (Some (mkObjNode None 2 None)) NOOP None) PLUS
               (a_singlet (mkExprList None (Some (mkObjNode None 3 None)) TIMES
                             (Some (const_term 4))))) = Some l) /\
  (lhList (mkExprList None (Some (mkObjNode None 3 None)) TIMES (Some (const_term 4)))
     = None /\
   exists logo o,
     parse_obj (cstr "3*4") (Z.of_nat 1) = (logo, Some (Some o)) /\
     obj (mkExprList None (Some (mkObjNode None 3 None)) TIMES (Some (const_term 4)))
       = Some o).
Proof.
  split.
  - apply (proj1 multiplicative_binds_tighter (cstr "2+3*4") 5 [] 1%nat []).
    + vm_compute. reflexivity.
    + vm_compute. reflexivity.
  - apply (proj1 (proj2 multiplicative_binds_tighter) (cstr "3*4") 3 [] 1%nat []).
    + vm_compute. reflexivity.
    + vm_compute. reflexivity.
Defined.

(** ** Sums of [int]s *)


Lemma int_wrap_mod z : int_wrap z = (z + 2147483648) mod 4294967296 - 2147483648.
Proof. reflexivity. Qed.

Lemma int_wrap_add_l a b : int_wrap (int_wrap a + b) = int_wrap (a + b).
Proof.
  rewrite !int_wrap_mod. f_equal.
  replace ((a + 2147483648) mod 4294967296 - 2147483648 + b + 2147483648)
    with ((a + 2147483648) mod 4294967296 + b) by lia.
  rewrite Zplus_mod_idemp_l. f_equal. lia.
Qed.

Lemma int_wrap_add_r a b : int_wrap (a + int_wrap b) = int_wrap (a + b).
Proof. rewrite (Z.add_comm a), int_wrap_add_l. f_equal. lia. Qed.

Lemma int_wrap_small z : in_int z -> int_wrap z = z.
Proof.
  unfold in_int, INT_MIN, INT_MAX. intros H. rewrite int_wrap_mod.
  rewrite Z.mod_small; lia.
Qed.

Lemma fold_int_add l acc :
  fold_left int_add l (int_wrap acc) = int_wrap (acc + sum_Z l).
Proof.
  revert acc. induction l as [|x l IH]; intros acc; simpl.
  - f_equal. lia.
  - unfold int_add at 2. rewrite int_wrap_add_l, IH. f_equal. lia.
Qed.

(** [sum_up] over a whole array is the sum of its elements as an [int]. *)
Lemma sum_up_all l : sum_up l (Z.of_nat (length l)) = int_wrap (sum_Z l).
Proof.
  unfold sum_up. rewrite Nat2Z.id, firstn_all.
  change 0 with (int_wrap 0) at 1. apply fold_int_add.
Qed.

Lemma sum_up_take l n :
  0 <= n -> sum_up l n = int_wrap (sum_Z (take (Z.to_nat n) l)).
Proof.
  intros Hn. unfold sum_up. change 0 with (int_wrap 0) at 1. apply fold_int_add.
Qed.

Lemma int_wrap_sum_map_wrap l :
  int_wrap (sum_Z (map int_wrap l)) = int_wrap (sum_Z l).
Proof.
  induction l as [|x l IH]; simpl; [done|].
  rewrite int_wrap_add_l, <- int_wrap_add_r, IH, int_wrap_add_r. done.
Qed.

(** ** Loops that fill [rolls] *)

Lemma STACK_ALLOC_length stack_junk n :
  length (STACK_ALLOC stack_junk n) = Z.to_nat n.
Proof. unfold STACK_ALLOC. rewrite length_map, length_seq. done. Qed.

(** A [for] loop whose [k]-th turn uses up the numbers [chunk] and stores
    [v] in [rolls[i + k]], for the [k]-th pair [(chunk, v)] of [items]. *)
Lemma for_loop_fill (body : nat -> list Z -> Exec (list Z))
    (items : list (list Z * Z)) :
  Forall (fun item => forall i rolls rest,
            body i rolls (item.1 ++ rest) = Returns (<[i := item.2]> rolls) rest)
         items ->
  forall i rolls rest,
    (i + length items <= length rolls)%nat ->
    for_loop (length items) i body rolls (concat (items.*1) ++ rest)
    = Returns (take i rolls ++ items.*2 ++ drop (i + length items) rolls) rest.
Proof.
  induction 1 as [|[chunk v] items Hitem _ IH]; intros i rolls rest Hlen; simpl.
  - unfold eret. rewrite Nat.add_0_r, take_drop. done.
  - simpl in Hlen. unfold ebind. rewrite <- app_assoc, Hitem. simpl.
    rewrite IH by (rewrite length_insert; lia). f_equal.
    rewrite drop_insert_lt by lia.
    rewrite (take_S_r _ _ v) by (apply list_lookup_insert_eq; lia).
    rewrite take_insert_ge by lia.
    rewrite <- app_assoc. simpl.
    replace (i + S (length items))%nat with (S (i + length items)) by lia. done.
Qed.

Lemma for_loop_fill_all stack_junk (body : nat -> list Z -> Exec (list Z))
    (items : list (list Z * Z)) rest :
  Forall (fun item => forall i rolls rest,
            body i rolls (item.1 ++ rest) = Returns (<[i := item.2]> rolls) rest)
         items ->
  for_loop (length items) 0 body (STACK_ALLOC stack_junk (Z.of_nat (length items)))
    (concat (items.*1) ++ rest)
  = Returns (items.*2) rest.
Proof.
  intros H.
  rewrite (for_loop_fill body items H) by (rewrite STACK_ALLOC_length; lia).
  rewrite drop_ge by (rewrite STACK_ALLOC_length; lia).
  simpl. rewrite app_nil_r. done.
Qed.

Lemma roll_die_cons dieSides r rng :
  dieSides <> 0 -> roll_die dieSides (r :: rng) = Returns (die_value dieSides r) rng.
Proof.
  intros H. unfold roll_die, ebind, get_next_random.
  destruct (dieSides =? 0) eqn:E; [apply Z.eqb_eq in E; done | done].
Qed.

(** ** Reroll below a threshold *)

Lemma reroll_while_stop turns dieSides rerollThresh roll rng :
  rerollThresh < roll ->
  reroll_while turns dieSides rerollThresh roll rng = Returns roll rng.
Proof.
  intros H. destruct turns; simpl;
    (destruct (roll <=? rerollThresh) eqn:E; [apply Z.leb_le in E; lia | done]).
Qed.

Lemma reroll_while_rejects dieSides rerollThresh rej kept rest :
  dieSides <> 0 ->
  Forall (fun r => die_value dieSides r <= rerollThresh) rej ->
  rerollThresh < die_value dieSides kept ->
  forall turns roll,
    roll <= rerollThresh -> (length rej < turns)%nat ->
    reroll_while turns dieSides rerollThresh roll (rej ++ kept :: rest)
    = Returns (die_value dieSides kept) rest.
Proof.
  intros Hsides Hrej Hkept.
  induction Hrej as [|r rej Hr _ IH]; intros [|turns] roll Hroll Hturns;
    simpl in Hturns; try lia; simpl.
  - apply Z.leb_le in Hroll. rewrite Hroll. unfold ebind.
    rewrite roll_die_cons by done. by apply reroll_while_stop.
  - pose proof Hroll as Hle. apply Z.leb_le in Hroll. rewrite Hroll. unfold ebind.
    rewrite roll_die_cons by done. apply IH; [done | lia].
Qed.

(** One turn of the [for] loop of [execute_reroll_below_roll]. *)
Lemma reroll_turn dieSides rerollThresh rej kept i (rolls : list Z) rest :
  dieSides <> 0 ->
  Forall (fun r => die_value dieSides r <= rerollThresh) rej ->
  rerollThresh < die_value dieSides kept ->
  (let+ roll := roll_die dieSides in
   let+ roll := with_supply (fun turns =>
                  reroll_while turns dieSides rerollThresh roll) in
   eret (<[i := roll]> rolls)) ((rej ++ [kept]) ++ rest)
  = Returns (<[i := die_value dieSides kept]> rolls) rest.
Proof.
  intros Hsides Hrej Hkept. unfold ebind at 1.
  destruct Hrej as [|r rej Hr Hrej]; simpl; rewrite roll_die_cons by done.
  - unfold ebind, with_supply. by rewrite reroll_while_stop.
  - unfold ebind, with_supply. rewrite <- app_assoc. simpl.
    rewrite (reroll_while_rejects dieSides rerollThresh rej kept rest); try done.
    rewrite length_app. simpl. lia.
Qed.

(** C4.  [dice] lists, for each die, the numbers of the random source
    whose draws were rejected and then the one whose draw was kept.  When
    every rejected draw is at most the threshold and every kept draw is
    above it, [execute_reroll_below_roll] uses up exactly these numbers and
    returns the sum, as an [int], of the kept draws: each die counts with
    its first draw above the threshold.  "1d6b3" with the draws 2, 2, 5
    evaluates to 5. *)
Theorem reroll_below_keeps_first_above :
  (forall stack_junk dieCount dieSides rerollThresh (dice : list (list Z * Z)) rest,
      dieSides <> 0 ->
      dieCount = Z.of_nat (length dice) ->
      Forall (fun die =>
                Forall (fun r => die_value dieSides r <= rerollThresh) die.1 /\
                rerollThresh < die_value dieSides die.2) dice ->
      execute_reroll_below_roll stack_junk dieCount dieSides rerollThresh
        (concat (map (fun die => die.1 ++ [die.2]) dice) ++ rest)
      = Returns (int_wrap (sum_Z (map (fun die => die_value dieSides die.2) dice)))
          rest) /\
  (forall stack_junk r1 r2 r3 rest,
      map (die_value 6) [r1; r2; r3] = [2; 2; 5] ->
      evaluate stack_junk "1d6b3" ([r1; r2; r3] ++ rest) = Some (Returns 5 rest)).
Proof.
  assert (General :
    forall stack_junk dieCount dieSides rerollThresh (dice : list (list Z * Z)) rest,
      dieSides <> 0 ->
      dieCount = Z.of_nat (length dice) ->
      Forall (fun die =>
                Forall (fun r => die_value dieSides r <= rerollThresh) die.1 /\
                rerollThresh < die_value dieSides die.2) dice ->
      execute_reroll_below_roll stack_junk dieCount dieSides rerollThresh
        (concat (map (fun die => die.1 ++ [die.2]) dice) ++ rest)
      = Returns (int_wrap (sum_Z (map (fun die => die_value dieSides die.2) dice)))
          rest).
  { intros stack_junk dieCount dieSides rerollThresh dice rest Hsides -> Hdice.
    unfold execute_reroll_below_roll.
    destruct (Z.of_nat (length dice) <? 0) eqn:E; [apply Z.ltb_lt in E; lia|].
    rewrite Nat2Z.id. unfold ebind at 1.
    set (items := map (fun die : list Z * Z =>
                         (die.1 ++ [die.2], die_value dieSides die.2)) dice).
    replace (length dice) with (length items) by apply length_map.
    replace (map (fun die : list Z * Z => die.1 ++ [die.2]) dice) with (items.*1)
      by (unfold items; rewrite <- list_fmap_compose; done).
    rewrite for_loop_fill_all.
    - unfold eret. f_equal.
      replace (length items) with (length items.*2) by apply length_fmap.
      rewrite sum_up_all. f_equal. f_equal.
      unfold items. rewrite <- list_fmap_compose. done.
    - unfold items. apply Forall_fmap. eapply Forall_impl; [exact Hdice|].
      intros [rej kept] [Hrej Hkept] i rolls rest'. simpl in *.
      by apply reroll_turn. }
  split; [exact General|].
  intros stack_junk r1 r2 r3 rest Hdraws.
  injection Hdraws as H1 H2 H3.
  pose proof (General stack_junk 1 6 3 [([r1; r2], r3)] rest) as Hrun.
  simpl in Hrun. rewrite H3 in Hrun.
  unfold evaluate.
  replace (parse "1d6b3") with
    (@nil string,
     Some (Some (a_singlet (mkExprList None
       (Some (mkObjNode (Some (mkRollNode 1 6 (Some (mkRollModifier REROLL_BELOW 3))))
                0 None)) NOOP None))))
    by (vm_compute; reflexivity).
  simpl. unfold ebind, execute_roll. simpl.
  rewrite Hrun; [done | done | done |].
  repeat constructor; simpl; lia.
Qed.

Lemma reroll_below_keeps_first_above_witness :
  execute_reroll_below_roll (fun _ => 0) 1 6 3
    (concat (map (fun die : list Z * Z => die.1 ++ [die.2]) [([1; 1], 4)]) ++ [0])
  = Returns (int_wrap (sum_Z (map (fun die : list Z * Z => die_value 6 die.2)
                                [([1; 1], 4)])))
      [0].
Proof.
  apply (proj1 reroll_below_keeps_first_above (fun _ => 0) 1 6 3 [([1; 1], 4)] [0]).
  - lia.
  - reflexivity.
  - repeat constructor; vm_compute; congruence.
Defined.

(** ** Exploding dice *)

Lemma explode_while_stop turns dieSides explodeThresh roll rollTotal rng :
  roll < explodeThresh ->
  explode_while turns dieSides explodeThresh roll rollTotal rng
  = Returns rollTotal rng.
Proof.
  intros H. destruct turns; simpl;
    (destruct (roll >=? explodeThresh) eqn:E; [apply Z.geb_le in E; lia | done]).
Qed.

Lemma explode_while_explodes dieSides explodeThresh more last rest :
  dieSides <> 0 ->
  Forall (fun r => explodeThresh <= die_value dieSides r) more ->
  die_value dieSides last < explodeThresh ->
  forall turns roll acc,
    explodeThresh <= roll -> (length more < turns)%nat ->
    explode_while turns dieSides explodeThresh roll (int_wrap acc)
      (more ++ last :: rest)
    = Returns (int_wrap (acc + sum_Z (map (die_value dieSides) (more ++ [last]))))
        rest.
Proof.
  intros Hsides Hmore Hlast.
  induction Hmore as [|r more Hr _ IH]; intros [|turns] roll acc Hroll Hturns;
    simpl in Hturns; try lia; simpl.
  - apply Z.geb_le in Hroll. rewrite Hroll. unfold ebind.
    rewrite roll_die_cons by done. rewrite explode_while_stop by done.
    unfold int_add. rewrite int_wrap_add_l. do 2 f_equal. lia.
  - apply Z.geb_le in Hroll. rewrite Hroll. unfold ebind.
    rewrite roll_die_cons by done.
    unfold int_add. rewrite int_wrap_add_l, IH by (done || lia).
    do 2 f_equal. lia.
Qed.

(** One turn of the [for] loop of [execute_exploding_roll]. *)
Lemma explode_turn dieSides explodeThresh exploded last i (rolls : list Z) rest :
  dieSides <> 0 ->
  Forall (fun r => explodeThresh <= die_value dieSides r) exploded ->
  die_value dieSides last < explodeThresh ->
  (let rollTotal := 0 in
   let+ roll := roll_die dieSides in
   let rollTotal := int_add rollTotal roll in
   let+ rollTotal := with_supply (fun turns =>
                       explode_while turns dieSides explodeThresh roll rollTotal) in
   eret (<[i := rollTotal]> rolls)) ((exploded ++ [last]) ++ rest)
  = Returns
      (<[i := int_wrap (sum_Z (map (die_value dieSides) (exploded ++ [last])))]> rolls)
      rest.
Proof.
  intros Hsides Hexp Hlast. cbv zeta. unfold ebind at 1.
  destruct Hexp as [|r exploded Hr Hexp]; simpl; rewrite roll_die_cons by done.
  - unfold ebind, with_supply. rewrite explode_while_stop by done.
    unfold eret, int_add. do 3 f_equal. lia.
  - unfold ebind, with_supply, int_add. rewrite <- app_assoc. simpl.
    rewrite (explode_while_explodes dieSides explodeThresh exploded last rest);
      try done.
    rewrite length_app. simpl. lia.
Qed.

(** C5.  [dice] lists, for each die, the numbers of the random source
    whose draws exploded and then the one whose draw did not.  When every
    exploding draw is at least the threshold and every last draw is below
    it, [execute_exploding_roll] uses up exactly these numbers and returns
    the sum, as an [int], of the per-die totals, each the sum of all the
    draws of that die.  "1d6v6" with the draws 6, 6, 2 evaluates to 14. *)
Theorem exploding_roll_sums_every_draw :
  (forall stack_junk dieCount dieSides explodeThresh (dice : list (list Z * Z)) rest,
      dieSides <> 0 ->
      dieCount = Z.of_nat (length dice) ->
      Forall (fun die =>
                Forall (fun r => explodeThresh <= die_value dieSides r) die.1 /\
                die_value dieSides die.2 < explodeThresh) dice ->
      execute_exploding_roll stack_junk dieCount dieSides explodeThresh
        (concat (map (fun die => die.1 ++ [die.2]) dice) ++ rest)
      = Returns
          (int_wrap (sum_Z (map (fun die =>
                                   sum_Z (map (die_value dieSides) (die.1 ++ [die.2])))
                              dice)))
          rest) /\
  (forall stack_junk r1 r2 r3 rest,
      map (die_value 6) [r1; r2; r3] = [6; 6; 2] ->
      evaluate stack_junk "1d6v6" ([r1; r2; r3] ++ rest) = Some (Returns 14 rest)).
Proof.
  assert (General :
    forall stack_junk dieCount dieSides explodeThresh (dice : list (list Z * Z)) rest,
      dieSides <> 0 ->
      dieCount = Z.of_nat (length dice) ->
      Forall (fun die =>
                Forall (fun r => explodeThresh <= die_value dieSides r) die.1 /\
                die_value dieSides die.2 < explodeThresh) dice ->
      execute_exploding_roll stack_junk dieCount dieSides explodeThresh
        (concat (map (fun die => die.1 ++ [die.2]) dice) ++ rest)
      = Returns
          (int_wrap (sum_Z (map (fun die =>
                                   sum_Z (map (die_value dieSides) (die.1 ++ [die.2])))
                              dice)))
          rest).
  { intros stack_junk dieCount dieSides explodeThresh dice rest Hsides -> Hdice.
    unfold execute_exploding_roll.
    destruct (Z.of_nat (length dice) <? 0) eqn:E; [apply Z.ltb_lt in E; lia|].
    rewrite Nat2Z.id. unfold ebind at 1.
    set (items := map (fun die : list Z * Z =>
                         (die.1 ++ [die.2],
                          int_wrap (sum_Z (map (die_value dieSides) (die.1 ++ [die.2])))))
                    dice).
    replace (length dice) with (length items) by apply length_map.
    replace (map (fun die : list Z * Z => die.1 ++ [die.2]) dice) with (items.*1)
      by (unfold items; rewrite <- list_fmap_compose; done).
    rewrite for_loop_fill_all.
    - unfold eret. f_equal.
      replace (length items) with (length items.*2) by apply length_fmap.
      rewrite sum_up_all.
      unfold items. rewrite <- list_fmap_compose.
      rewrite <- (int_wrap_sum_map_wrap
                    (map (fun die : list Z * Z =>
                            sum_Z (map (die_value dieSides) (die.1 ++ [die.2]))) dice)).
      f_equal. f_equal. rewrite <- list_fmap_compose. done.
    - unfold items. apply Forall_fmap. eapply Forall_impl; [exact Hdice|].
      intros [exploded last] [Hexp Hlast] i rolls rest'. simpl in *.
      by apply explode_turn. }
  split; [exact General|].
  intros stack_junk r1 r2 r3 rest Hdraws.
  injection Hdraws as H1 H2 H3.
  pose proof (General stack_junk 1 6 6 [([r1; r2], r3)] rest) as Hrun.
  simpl in Hrun. rewrite H1, H2, H3 in Hrun.
  unfold evaluate.
  replace (parse "1d6v6") with
    (@nil string,
     Some (Some (a_singlet (mkExprList None
       (Some (mkObjNode
                (Some (mkRollNode 1 6 (Some (mkRollModifier KEEP_AND_REROLL_ABOVE 6))))
                0 None)) NOOP None))))
    by (vm_compute; reflexivity).
  simpl. unfold ebind, execute_roll. simpl.
  rewrite Hrun; [done | done | done |].
  repeat constructor; simpl; lia.
Qed.

Lemma exploding_roll_sums_every_draw_witness :
  execute_exploding_roll (fun _ => 0) 1 6 6
    (concat (map (fun die : list Z * Z => die.1 ++ [die.2]) [([5; 5], 1)]) ++ [0])
  = Returns
      (int_wrap (sum_Z (map (fun die : list Z * Z =>
                               sum_Z (map (die_value 6) (die.1 ++ [die.2])))
                          [([5; 5], 1)])))
      [0].
Proof.
  apply (proj1 exploding_roll_sums_every_draw (fun _ => 0) 1 6 6 [([5; 5], 1)] [0]).
  - lia.
  - reflexivity.
  - repeat constructor; vm_compute; congruence.
Defined.

(** ** Choosing more dice than are rolled *)

(** C6 (failing input).  [execute_choose_n_roll(1, 6, 2, ...)] draws once,
    into [rolls[0]], and returns [sum_up(rolls, 2)]: the draw plus
    [rolls[1]], a slot that was never written.  With 77 left on the stack
    and a draw of 3, "1d6c2" evaluates to 80. *)
Theorem choose_two_of_one_die_adds_unset_slot :
  (forall stack_junk r rest,
      execute_choose_n_roll stack_junk 1 6 2 compare_roll_high (r :: rest)
      = Returns (int_wrap (die_value 6 r + stack_junk 1%nat)) rest) /\
  map (die_value 6) [2] = [3] /\
  evaluate (fun _ => 77) "1d6c2" [2] = Some (Returns 80 []).
Proof.
  split; [|split; vm_compute; reflexivity].
  intros stack_junk r rest.
  unfold execute_choose_n_roll. simpl. unfold ebind at 1. simpl.
  unfold eret, sum_up. simpl. unfold int_add at 1.
  change (int_add 0 (die_value 6 r)) with (int_wrap (0 + die_value 6 r)).
  rewrite int_wrap_add_l. do 2 f_equal.
Qed.

(** ** The modifier's constant *)

(** C7 (failing input).  [parse_modifier] hands whatever follows the
    letter to [atoi] without looking at it: "c2x" yields ChooseHighest 2,
    and "4d6c2x" parses to the tree of "4d6c2". *)
Theorem parse_modifier_accepts_non_digits :
  parse_modifier (cstr "c2x") 3 = ([], Some (Some (mkRollModifier CHOOSE_HIGH 2))) /\
  parse_modifier (cstr "cx") 2 = ([], Some (Some (mkRollModifier CHOOSE_HIGH 0))) /\
  parse "4d6c2x" = parse "4d6c2" /\
  parse "4d6c2x"
  = ([], Some (Some (a_singlet (mkExprList None
       (Some (mkObjNode
                (Some (mkRollNode 4 6 (Some (mkRollModifier CHOOSE_HIGH 2)))) 0 None))
       NOOP None)))).
Proof. repeat split; vm_compute; reflexivity. Qed.

(** ** Bytes behind the span *)

(** C10 (failing input).  The buffers "12" and "1+" agree on their first
    byte; with length 1, [parse_expr] returns the constant 1 for the second
    and fails for the first, because [strspn(inp, "0123456789")] in
    [parse_obj] counts the digit behind the span. *)
Theorem parse_expr_reads_digit_behind_span :
  take 1 (cstr "12") = take 1 (cstr "1+") /\
  parse_expr (cstr "1+") 1 A_OP = ([], Some (Some (a_singlet (const_term 1)))) /\
  parse_expr (cstr "12") 1 A_OP = ([MissingDelimiter], Some None) /\
  parse_obj (cstr "12") 1 <> parse_obj (cstr "1+") 1.
Proof. repeat split; try (vm_compute; reflexivity). vm_compute. congruence. Qed.

(** ** The numbers of a roll *)

Lemma strpbrk_split s accept off :
  strpbrk s accept = Some off ->
  exists c, mem_char c accept = true /\ s = take off s ++ c :: drop (off + 1) s.
Proof.
  revert off. induction s as [|c s IH]; intros off H; simpl in H; [done|].
  destruct (mem_char c accept) eqn:Hc.
  - injection H as <-. exists c. done.
  - destruct (strpbrk s accept) as [off'|]; [|done]. injection H as <-.
    destruct (IH off' eq_refl) as (c' & Hc' & Hs).
    exists c'. split; [done|]. simpl. by rewrite <- Hs.
Qed.

Lemma strchr_split s c off :
  strchr s c = Some off -> s = take off s ++ c :: drop (off + 1) s.
Proof.
  intros H. destruct (strpbrk_split _ _ _ H) as (c' & Hc' & Hs).
  unfold mem_char in Hc'. simpl in Hc'. rewrite orb_false_r in Hc'.
  apply Ascii.eqb_eq in Hc'. by subst c'.
Qed.

Lemma strspn_all s accept :
  strspn s accept = length s -> forallb (fun c => mem_char c accept) s = true.
Proof.
  induction s as [|c s IH]; simpl; [done|].
  destruct (mem_char c accept); [|done]. intros H. apply IH. lia.
Qed.

Lemma isdigit_inv c :
  isdigit c = true ->
  isspace c = false /\ c <> "-"%char /\ c <> "+"%char /\ 0 <= digit_value c <= 9.
Proof.
  unfold isdigit, mem_char, digits. simpl. rewrite !orb_true_iff.
  rewrite !Ascii.eqb_eq.
  intros H. repeat (destruct H as [->|H]); try discriminate;
    (split; [reflexivity|]); (split; [discriminate|]); (split; [discriminate|]);
    vm_compute; split; discriminate.
Qed.

Lemma digits_value_nonneg s acc :
  0 <= acc -> forallb isdigit s = true -> 0 <= digits_value acc s.
Proof.
  revert acc. induction s as [|c s IH]; intros acc Hacc H; simpl in *; [done|].
  apply andb_true_iff in H as [Hc Hs]. rewrite Hc.
  apply IH; [|done]. pose proof (isdigit_inv c Hc). lia.
Qed.

(** [atoi] of a non-empty string of digits. *)
Lemma atoi_digits s :
  s <> [] -> forallb isdigit s = true ->
  atoi s = int_wrap (Z.min LONG_MAX (decimal s)) /\ 0 <= decimal s.
Proof.
  intros Hne Hs.
  pose proof (digits_value_nonneg s 0 ltac:(lia) Hs) as Hpos.
  split; [|done].
  destruct s as [|c s]; [done|].
  pose proof Hs as Hc. simpl in Hc. apply andb_true_iff in Hc as [Hc _].
  destruct (isdigit_inv c Hc) as (Hsp & Hminus & Hplus & _).
  unfold atoi, strtol. simpl skip_space. rewrite Hsp.
  assert (Hclamp : clamp_long (digits_value 0 (c :: s))
                   = Z.min LONG_MAX (decimal (c :: s))).
  { unfold clamp_long, decimal, LONG_MIN, LONG_MAX in *. lia. }
  destruct c as [[] [] [] [] [] [] [] []]; try (by rewrite Hclamp); done.
Qed.

Lemma atoi_digits_small s :
  s <> [] -> forallb isdigit s = true -> decimal s <= INT_MAX ->
  atoi s = decimal s /\ 0 <= atoi s.
Proof.
  intros Hne Hs Hsmall. destruct (atoi_digits s Hne Hs) as [-> Hpos].
  rewrite Z.min_r by (unfold LONG_MAX, INT_MAX in *; lia).
  rewrite int_wrap_small by (unfold in_int, INT_MIN; lia). done.
Qed.

(** What [parse_roll_consts] has checked when it returns a node. *)
Lemma parse_roll_consts_inv inp len d_off mod_chars rmod log r :
  parse_roll_consts inp len d_off mod_chars rmod = (log, Some (Some r)) ->
  let constA := strncpy inp (Z.of_nat d_off) in
  let constB := strncpy (drop (d_off + 1) inp)
                  (len - (Z.of_nat d_off + 1 + mod_chars)) in
  constA <> [] /\ constB <> [] /\
  forallb isdigit constA = true /\ forallb isdigit constB = true /\
  r = mkRollNode (atoi constA) (atoi constB) rmod.
Proof.
  intros H constA constB. unfold parse_roll_consts in H.
  destruct (_ <? 0); [munfold_in H; congruence|].
  fold constA constB in H.
  destruct ((strlen constA =? 0) || (strlen constB =? 0)) eqn:Hempty;
    [munfold_in H; congruence|].
  destruct (negb _ || negb _) eqn:Hdigits; [munfold_in H; congruence|].
  munfold_in H. injection H as _ <-.
  apply orb_false_iff in Hempty as [HA HB]. apply Z.eqb_neq in HA, HB.
  apply orb_false_iff in Hdigits as [HdA HdB].
  apply negb_false_iff, Z.eqb_eq in HdA, HdB. unfold strlen in *.
  repeat split.
  - intros E. rewrite E in HA. done.
  - intros E. rewrite E in HB. done.
  - apply strspn_all. lia.
  - apply strspn_all. lia.
Qed.

Lemma take_drop_commute_sub (inp : list ascii) n p :
  (p <= n)%nat -> take (n - p) (drop p inp) = drop p (take n inp).
Proof. intros H. rewrite take_drop_commute. f_equal. f_equal. lia. Qed.

Lemma take_split_at (inp : list ascii) n p c :
  (p < n)%nat -> inp !! p = Some c ->
  take n inp = take p inp ++ c :: take (n - (p + 1)) (drop (p + 1) inp).
Proof.
  intros Hp Hc.
  rewrite <- (take_drop p (take n inp)).
  rewrite take_take, Nat.min_l by lia. f_equal.
  rewrite <- take_drop_commute_sub by lia.
  rewrite (drop_S _ _ _ Hc).
  replace (n - p)%nat with (S (n - (p + 1))) by lia.
  replace (p + 1)%nat with (S p) by lia. done.
Qed.

Lemma strpbrk_lookup (s : list ascii) accept off :
  strpbrk s accept = Some off ->
  exists c, s !! off = Some c /\ mem_char c accept = true.
Proof.
  revert off. induction s as [|x s IH]; intros off H; simpl in H; [done|].
  destruct (mem_char x accept) eqn:Hx.
  - injection H as <-. by exists x.
  - destruct (strpbrk s accept) as [off'|]; [|done]. injection H as <-.
    destruct (IH off' eq_refl) as (c & Hc & Hm). by exists c.
Qed.

(** C8, as the code has it.  When [parse_roll] returns a node, the span
    (the first [len] characters of [inp]) is a non-empty string of digits,
    a ['d'], a second non-empty string of digits and then nothing more or
    one of the letters [c], [b], [v], [w] with the text of its constant.
    The node holds [atoi] of the two strings of digits and the modifier of
    the letter: each number is the decimal value of its string, and so at
    least 0, whenever that value is at most [INT_MAX]; nothing makes it
    positive. *)
Theorem parse_roll_count_and_sides inp len log r :
  parse_roll inp len = (log, Some (Some r)) ->
  exists constA constB modtext,
    take (Z.to_nat len) inp = constA ++ "d"%char :: constB ++ modtext /\
    constA <> [] /\ constB <> [] /\
    forallb isdigit constA = true /\ forallb isdigit constB = true /\
    match modtext with
    | [] => rollMod r = None
    | c :: constant =>
        exists type,
          modifier_type_of c = Some type /\
          rollMod r = Some (mkRollModifier type (atoi constant))
    end /\
    dieCount r = atoi constA /\ dieSides r = atoi constB /\
    (decimal constA <= INT_MAX -> dieCount r = decimal constA /\ 0 <= dieCount r) /\
    (decimal constB <= INT_MAX -> dieSides r = decimal constB /\ 0 <= dieSides r).
Proof.
  intros H. unfold parse_roll in H.
  destruct (len <=? 0) eqn:Hlen; [munfold_in H; congruence|].
  apply Z.leb_gt in Hlen.
  destruct (strchr inp "d"%char) as [d_off|] eqn:Hd; [|munfold_in H; congruence].
  destruct (Z.of_nat d_off >=? len) eqn:Hdlen; [munfold_in H; congruence|].
  rewrite Z.geb_leb in Hdlen. apply Z.leb_gt in Hdlen.
  destruct (strpbrk_lookup _ _ _ Hd) as (cd & Hcd & Hcdm).
  assert (cd = "d"%char) as ->.
  { simpl in Hcdm. rewrite orb_false_r in Hcdm. by apply Ascii.eqb_eq in Hcdm. }
  (* what the second half has checked, for the modifier the first half found *)
  assert (Hconsts : forall mod_chars rmod log',
    parse_roll_consts inp len d_off mod_chars rmod = (log', Some (Some r)) ->
    0 <= len - (Z.of_nat d_off + 1 + mod_chars) /\
    let constA := take d_off inp in
    let constB := take (Z.to_nat (len - (Z.of_nat d_off + 1 + mod_chars)))
                    (drop (d_off + 1) inp) in
    constA <> [] /\ constB <> [] /\
    forallb isdigit constA = true /\ forallb isdigit constB = true /\
    rollMod r = rmod /\
    dieCount r = atoi constA /\ dieSides r = atoi constB /\
    (decimal constA <= INT_MAX -> dieCount r = decimal constA /\ 0 <= dieCount r) /\
    (decimal constB <= INT_MAX -> dieSides r = decimal constB /\ 0 <= dieSides r)).
  { intros mod_chars rmod log' Hc. split.
    { unfold parse_roll_consts in Hc.
      destruct (_ <? 0) eqn:E; [munfold_in Hc; congruence|]. by apply Z.ltb_ge in E. }
    apply parse_roll_consts_inv in Hc as (HA & HB & HdA & HdB & ->).
    unfold strncpy in *. rewrite Nat2Z.id in *. cbv zeta. cbn [rollMod dieCount dieSides].
    do 7 (split; [done|]).
    split; intros Hsmall; by apply atoi_digits_small. }
  destruct (strpbrk inp (cstr "cbvw")) as [mod_off|] eqn:Hmod.
  - destruct (Z.of_nat mod_off <? len) eqn:Hmlen.
    + apply Z.ltb_lt in Hmlen.
      destruct (strpbrk_lookup _ _ _ Hmod) as (c & Hc & Hcm).
      mstep H; [|congruence]. destruct r0 as [m|]; [|munfold_in H; congruence].
      destruct (parse_roll_consts inp len d_off (len - Z.of_nat mod_off) (Some m))
        as [log2 res] eqn:E2.
      injection H as _ ->.
      apply Hconsts in E2 as (Hb & HA & HB & HdA & HdB & Hr & Hcount & Hsides & HsA & HsB).
      cbv zeta in *.
      replace (Z.to_nat (len - (Z.of_nat d_off + 1 + (len - Z.of_nat mod_off))))
        with (mod_off - (d_off + 1))%nat in * by lia.
      (* the modifier *)
      unfold parse_modifier in E.
      destruct (len - Z.of_nat mod_off <=? 0); [munfold_in E; congruence|].
      change (char_at (drop mod_off inp) 0) with (nth 0 (drop mod_off inp) NUL) in E.
      rewrite nth_lookup, lookup_drop, Nat.add_0_r, Hc in E.
      cbn [default from_option] in E. unfold id in E.
      destruct (modifier_type_of c) as [ty|] eqn:Hty; [|munfold_in E; congruence].
      destruct (len - Z.of_nat mod_off <? 2); [munfold_in E; congruence|].
      munfold_in E. injection E as _ <-.
      exists (take d_off inp), (take (mod_off - (d_off + 1)) (drop (d_off + 1) inp)),
        (c :: take (Z.to_nat len - (mod_off + 1)) (drop (mod_off + 1) inp)).
      split.
      { rewrite (take_split_at inp (Z.to_nat len) mod_off c) by (done || lia).
        rewrite (take_split_at inp mod_off d_off "d"%char) by (done || lia).
        by rewrite <- app_assoc. }
      do 4 (split; [done|]). split.
      { exists ty. split; [done|]. rewrite Hr. do 3 f_equal.
        unfold strncpy. rewrite drop_drop.
        by replace (Z.to_nat (len - Z.of_nat mod_off - 1))
          with (Z.to_nat len - (mod_off + 1))%nat by lia. }
      done.
    + apply Z.ltb_ge in Hmlen.
      apply Hconsts in H as (Hb & HA & HB & HdA & HdB & Hr & Hrest). cbv zeta in *.
      replace (Z.to_nat (len - (Z.of_nat d_off + 1 + 0)))
        with (Z.to_nat len - (d_off + 1))%nat in * by lia.
      exists (take d_off inp), (take (Z.to_nat len - (d_off + 1)) (drop (d_off + 1) inp)), [].
      split.
      { rewrite app_nil_r. apply take_split_at; [lia|done]. }
      done.
  - apply Hconsts in H as (Hb & HA & HB & HdA & HdB & Hr & Hrest). cbv zeta in *.
    replace (Z.to_nat (len - (Z.of_nat d_off + 1 + 0)))
      with (Z.to_nat len - (d_off + 1))%nat in * by lia.
    exists (take d_off inp), (take (Z.to_nat len - (d_off + 1)) (drop (d_off + 1) inp)), [].
    split.
    { rewrite app_nil_r. apply take_split_at; [lia|done]. }
    done.
Qed.

Lemma parse_roll_count_and_sides_witness :
  exists constA constB modtext,
    take (Z.to_nat 6) (cstr "3d12c2+1") = constA ++ "d"%char :: constB ++ modtext /\
    constA <> [] /\ constB <> [] /\
    forallb isdigit constA = true /\ forallb isdigit constB = true /\
    match modtext with
    | [] => rollMod (mkRollNode 3 12 (Some (mkRollModifier CHOOSE_HIGH 2))) = None
    | c :: constant =>
        exists type,
          modifier_type_of c = Some type /\
          rollMod (mkRollNode 3 12 (Some (mkRollModifier CHOOSE_HIGH 2)))
          = Some (mkRollModifier type (atoi constant))
    end /\
    dieCount (mkRollNode 3 12 (Some (mkRollModifier CHOOSE_HIGH 2))) = atoi constA /\
    dieSides (mkRollNode 3 12 (Some (mkRollModifier CHOOSE_HIGH 2))) = atoi constB /\
    (decimal constA <= INT_MAX ->
     dieCount (mkRollNode 3 12 (Some (mkRollModifier CHOOSE_HIGH 2))) = decimal constA /\
     0 <= dieCount (mkRollNode 3 12 (Some (mkRollModifier CHOOSE_HIGH 2)))) /\
    (decimal constB <= INT_MAX ->
     dieSides (mkRollNode 3 12 (Some (mkRollModifier CHOOSE_HIGH 2))) = decimal constB /\
     0 <= dieSides (mkRollNode 3 12 (Some (mkRollModifier CHOOSE_HIGH 2)))).
Proof.
  apply (parse_roll_count_and_sides (cstr "3d12c2+1") 6 []).
  vm_compute. reflexivity.
Defined.

(** C8 as stated fails: "0d6" parses to a roll of no dice, "3d0" to a roll
    of dice with no sides. *)
Lemma parse_roll_accepts_zero :
  parse_roll (cstr "0d6") 3 = ([], Some (Some (mkRollNode 0 6 None))) /\
  parse_roll (cstr "3d0") 3 = ([], Some (Some (mkRollNode 3 0 None))) /\
  ~ (forall inp len log r,
        parse_roll inp len = (log, Some (Some r)) ->
        1 <= dieCount r /\ 1 <= dieSides r).
Proof.
  split; [vm_compute; reflexivity|]. split; [vm_compute; reflexivity|].
  intros H.
  destruct (H (cstr "0d6") 3 [] (mkRollNode 0 6 None)) as [Hcount _].
  - vm_compute. reflexivity.
  - simpl in Hcount. lia.
Qed.

(** ** Choosing the best [n] dice *)

#[local] Instance descending_trans : Transitive descending.
Proof. intros a b c. unfold descending. lia. Qed.
#[local] Instance ascending_trans : Transitive ascending.
Proof. intros a b c. unfold ascending. lia. Qed.
#[local] Instance descending_antisymm : AntiSymm (=) descending.
Proof. intros a b. unfold descending. lia. Qed.
#[local] Instance ascending_antisymm : AntiSymm (=) ascending.
Proof. intros a b. unfold ascending. lia. Qed.
#[local] Instance descending_total : Total descending.
Proof. intros a b. unfold descending. lia. Qed.
#[local] Instance ascending_total : Total ascending.
Proof. intros a b. unfold ascending. lia. Qed.

Lemma sum_Z_perm l l' : l ≡ₚ l' -> sum_Z l = sum_Z l'.
Proof. induction 1; simpl; lia. Qed.

Lemma Sorted_take (R : relation Z) `{!Transitive R} n l :
  Sorted R l -> Sorted R (take n l).
Proof.
  intros H. apply Sorted_StronglySorted in H; [|done].
  apply StronglySorted_Sorted. rewrite <- (take_drop n l) in H.
  by apply StronglySorted_app_1_l in H.
Qed.

Section QsortOrder.
Context (comp : Z -> Z -> Z) (R : relation Z) (P : Z -> Prop).
Context `{!RelDecision R, !Transitive R, !AntiSymm (=) R, !Total R}.
Hypothesis comp_R : forall a b, P a -> P b -> (comp a b <= 0 <-> R a b).

Lemma qsort_insert_perm x l : qsort_insert comp x l ≡ₚ x :: l.
Proof.
  induction l as [|y l IH]; simpl; [done|].
  destruct (comp x y <=? 0); [done|]. rewrite IH. apply Permutation_swap.
Qed.

Lemma qsort_perm l : qsort comp l ≡ₚ l.
Proof.
  induction l as [|x l IH]; simpl; [done|].
  by rewrite qsort_insert_perm, IH.
Qed.

Lemma qsort_length l : length (qsort comp l) = length l.
Proof. apply Permutation_length, qsort_perm. Qed.

Lemma qsort_insert_sorted x l :
  P x -> Forall P l -> Sorted R l -> Sorted R (qsort_insert comp x l).
Proof.
  intros Hx Hl Hs. induction Hs as [|y l Hs IH Hhd]; simpl.
  - repeat constructor.
  - apply Forall_cons in Hl as [Hy Hl].
    destruct (comp x y <=? 0) eqn:E.
    + apply Z.leb_le, comp_R in E; [|done..]. repeat constructor; done.
    + apply Z.leb_gt in E.
      assert (R y x) as Hyx.
      { destruct (total R x y) as [Hxy|]; [|done].
        apply comp_R in Hxy; [lia|done..]. }
      constructor; [by apply IH|].
      destruct Hhd as [|z l Hyz]; simpl; [by constructor|].
      destruct (comp x z <=? 0); by constructor.
Qed.

Lemma qsort_sorted l : Forall P l -> Sorted R (qsort comp l).
Proof.
  induction 1 as [|x l Hx Hl IH]; simpl; [constructor|].
  apply qsort_insert_sorted; [done| |done].
  by rewrite qsort_perm.
Qed.

Lemma qsort_unique l l' : Forall P l -> l ≡ₚ l' -> qsort comp l = qsort comp l'.
Proof.
  intros Hl Hperm. apply (Sorted_unique R).
  - by apply qsort_sorted.
  - apply qsort_sorted. by rewrite <- Hperm.
  - by rewrite !qsort_perm.
Qed.

Lemma qsort_merge_sort l : Forall P l -> qsort comp l = merge_sort R l.
Proof.
  intros Hl. apply (Sorted_unique R).
  - by apply qsort_sorted.
  - by apply Sorted_merge_sort.
  - by rewrite qsort_perm, merge_sort_Permutation.
Qed.

Lemma qsort_of_sorted l : Forall P l -> Sorted R l -> qsort comp l = l.
Proof.
  intros Hl Hs. apply (Sorted_unique R); [by apply qsort_sorted | done |].
  apply qsort_perm.
Qed.

Lemma qsort_snoc l x :
  Forall P l -> P x -> qsort comp (l ++ [x]) = qsort_insert comp x (qsort comp l).
Proof.
  intros Hl Hx.
  change (qsort_insert comp x (qsort comp l)) with (qsort comp (x :: l)).
  apply qsort_unique.
  - apply Forall_app. split; [done|]. by constructor.
  - by rewrite Permutation_app_comm.
Qed.

(** Inserting into the first [n] elements and keeping [n] is inserting
    into the whole list and keeping [n]. *)
Lemma qsort_insert_take x l n :
  (n <= length l)%nat ->
  take n (qsort_insert comp x (take n l)) = take n (qsort_insert comp x l).
Proof.
  revert n. induction l as [|y l IH]; intros [|n] Hn; simpl in *;
    try done; try lia.
  destruct (comp x y <=? 0); simpl.
  - f_equal. destruct n as [|n]; simpl; [done|]. f_equal.
    rewrite take_take. f_equal. lia.
  - f_equal. apply IH. lia.
Qed.
End QsortOrder.

Lemma insert_last (l : list Z) n v :
  length l = S n -> <[n := v]> l = take n l ++ [v].
Proof.
  intros Hl. rewrite insert_take_drop by lia.
  by rewrite drop_ge by lia.
Qed.

Section ChooseLoop.
Context (comp : Z -> Z -> Z) (R : relation Z) (P : Z -> Prop).
Context `{!RelDecision R, !Transitive R, !AntiSymm (=) R, !Total R}.
Hypothesis comp_R : forall a b, P a -> P b -> (comp a b <= 0 <-> R a b).

Lemma choose_step_inv n D st v :
  Forall P D -> P v ->
  choose_inv n comp D st ->
  choose_inv n comp (D ++ [v]) (choose_step (Z.of_nat n) comp st v).
Proof.
  intros HD Hv. destruct st as [rolls chosen]. intros (Hlen & Hchosen & Hperm).
  simpl in *. subst chosen.
  assert (HDv : Forall P (D ++ [v])) by (apply Forall_app; split; [done | by constructor]).
  destruct (Z.of_nat (length D `min` n) <? Z.of_nat n) eqn:E.
  - apply Z.ltb_lt in E.
    assert (length D < n)%nat as Hlt by lia.
    rewrite Nat.min_l in * by lia. rewrite Nat2Z.id.
    unfold choose_inv. simpl. rewrite length_insert, length_app. simpl.
    replace (length D + 1)%nat with (S (length D)) by lia.
    rewrite Nat.min_l by lia.
    split; [done|]. split; [lia|].
    rewrite (take_S_r _ _ v) by (apply list_lookup_insert_eq; lia).
    rewrite take_insert_ge by lia. rewrite Hperm.
    rewrite !take_ge by (rewrite qsort_length; rewrite ?length_app; simpl; lia).
    by rewrite !qsort_perm.
  - apply Z.ltb_ge in E.
    assert (n <= length D)%nat as Hge by lia.
    rewrite Nat.min_r in * by lia. rewrite Nat2Z.id.
    unfold choose_inv. simpl. rewrite length_app. simpl.
    rewrite Nat.min_r by lia.
    rewrite insert_last by done.
    set (T := take n (qsort comp D)) in *.
    assert (HT : Forall P T).
    { apply Forall_take. by rewrite qsort_perm. }
    assert (HA : Forall P (take n rolls ++ [v])).
    { apply Forall_app. split; [by rewrite Hperm | by constructor]. }
    assert (Hsort : qsort comp (take n rolls ++ [v]) = qsort_insert comp v T).
    { rewrite (qsort_unique comp R P comp_R _ (T ++ [v]) HA) by (by rewrite Hperm).
      rewrite (qsort_snoc comp R P comp_R) by done.
      f_equal. apply (qsort_of_sorted comp R P comp_R); [done|].
      apply Sorted_take; [done|]. by apply (qsort_sorted comp R P comp_R). }
    rewrite Hsort. split.
    { rewrite <- Hsort, qsort_length, length_app, length_take. simpl. lia. }
    split; [done|].
    unfold T. rewrite qsort_insert_take by (rewrite qsort_length; lia).
    by rewrite (qsort_snoc comp R P comp_R).
Qed.

Lemma choose_loop dieSides n rest raws :
  dieSides <> 0 ->
  Forall (fun r => P (die_value dieSides r)) raws ->
  forall D st i,
    Forall P D ->
    choose_inv n comp D st ->
    exists st',
      for_loop (length raws) i
        (fun _ '(rolls, chosen) =>
           let+ roll := roll_die dieSides in
           if chosen <? Z.of_nat n then
             eret (<[Z.to_nat chosen := roll]> rolls, chosen + 1)
           else
             eret (qsort comp (<[n := roll]> rolls), chosen))
        st (raws ++ rest)
      = Returns st' rest /\
      choose_inv n comp (D ++ map (die_value dieSides) raws) st'.
Proof.
  intros Hsides Hraws.
  induction Hraws as [|r raws Hr _ IH]; intros D st i HD Hinv; simpl.
  - exists st. rewrite app_nil_r. done.
  - unfold ebind at 1. destruct st as [rolls chosen].
    unfold ebind at 1. rewrite roll_die_cons by done.
    destruct (IH (D ++ [die_value dieSides r])
                (choose_step (Z.of_nat n) comp (rolls, chosen) (die_value dieSides r))
                (S i)) as (st' & Hrun & Hinv').
    { apply Forall_app. split; [done | by constructor]. }
    { by apply choose_step_inv. }
    exists st'. rewrite <- app_assoc in Hinv'. split; [|exact Hinv'].
    rewrite <- Hrun. unfold choose_step. rewrite Nat2Z.id.
    by destruct (chosen <? Z.of_nat n).
Qed.

(** [execute_choose_n_roll] with at least as many dice as are chosen. *)
Lemma execute_choose_n_roll_first_n stack_junk dieCount dieSides nChoose raws rest :
  0 <= nChoose <= dieCount ->
  dieSides <> 0 ->
  dieCount = Z.of_nat (length raws) ->
  Forall (fun r => P (die_value dieSides r)) raws ->
  execute_choose_n_roll stack_junk dieCount dieSides nChoose comp (raws ++ rest)
  = Returns
      (int_wrap (sum_Z (first_n_by R (Z.to_nat nChoose)
                          (map (die_value dieSides) raws))))
      rest.
Proof.
  intros Hn Hsides -> Hraws. unfold execute_choose_n_roll.
  destruct (nChoose <? 0) eqn:E; [apply Z.ltb_lt in E; lia|].
  rewrite Nat2Z.id. unfold ebind at 1.
  set (n := Z.to_nat nChoose).
  replace nChoose with (Z.of_nat n) by lia.
  destruct (choose_loop dieSides n rest raws Hsides Hraws []
              (STACK_ALLOC stack_junk (Z.of_nat n + 1), 0) 0%nat)
    as ([rolls chosen] & Hrun & Hlen & _ & Hperm).
  { constructor. }
  { unfold choose_inv. simpl. rewrite STACK_ALLOC_length.
    split; [lia|]. split; [done|]. by rewrite take_nil. }
  rewrite Hrun. unfold eret. f_equal. simpl in *.
  rewrite length_map in Hperm. rewrite Nat.min_r in Hperm by lia.
  rewrite sum_up_take by lia. rewrite Nat2Z.id. f_equal.
  rewrite (sum_Z_perm _ _ Hperm). unfold first_n_by.
  rewrite (qsort_merge_sort comp R P comp_R); [done|].
  by apply Forall_fmap.
Qed.
End ChooseLoop.

Lemma compare_roll_high_order a b :
  die_face a -> die_face b -> (compare_roll_high a b <= 0 <-> descending a b).
Proof.
  unfold die_face, INT_MAX, compare_roll_high, int_sub, descending. intros Ha Hb.
  rewrite int_wrap_small by (unfold in_int, INT_MIN, INT_MAX; lia). lia.
Qed.

Lemma compare_roll_low_order a b :
  die_face a -> die_face b -> (compare_roll_low a b <= 0 <-> ascending a b).
Proof.
  unfold die_face, INT_MAX, compare_roll_low, int_sub, ascending. intros Ha Hb.
  rewrite int_wrap_small by (unfold in_int, INT_MIN, INT_MAX; lia). lia.
Qed.

(** A draw from a non-negative random number is a face of the die. *)
Lemma die_value_face dieSides r :
  0 < dieSides <= INT_MAX -> 0 <= r ->
  1 <= die_value dieSides r <= dieSides /\ die_face (die_value dieSides r).
Proof.
  unfold die_face, INT_MAX. intros Hs Hr. unfold die_value, int_add.
  pose proof (Z.rem_bound_pos r dieSides Hr ltac:(lia)).
  rewrite int_wrap_small by (unfold in_int, INT_MIN, INT_MAX; lia). lia.
Qed.

Lemma first_n_by_perm (R : relation Z)
    `{!RelDecision R, !Transitive R, !AntiSymm (=) R, !Total R} n l l' :
  l ≡ₚ l' -> first_n_by R n l = first_n_by R n l'.
Proof.
  intros Hperm. unfold first_n_by. f_equal.
  apply (Sorted_unique R); [by apply Sorted_merge_sort..|].
  by rewrite !merge_sort_Permutation.
Qed.

(** [first_n_by R n l] are the best [n] of [l]. *)
Lemma first_n_by_best (R : relation Z) `{!RelDecision R, !Transitive R, !Total R} n l :
  (n <= length l)%nat -> best_n R n l (first_n_by R n l).
Proof.
  intros Hn. unfold best_n, first_n_by. split.
  { rewrite length_take. rewrite (Permutation_length (merge_sort_Permutation R l)). lia. }
  exists (drop n (merge_sort R l)). rewrite take_drop. split.
  - by rewrite merge_sort_Permutation.
  - intros x y Hx Hy.
    pose proof (StronglySorted_merge_sort R l) as Hs.
    rewrite <- (take_drop n (merge_sort R l)) in Hs.
    by apply (StronglySorted_app_1_elem_of _ _ _ _ _ Hs).
Qed.

Lemma sum_Z_faces dieSides l :
  Forall (fun v => 1 <= v <= dieSides) l ->
  0 <= sum_Z l <= Z.of_nat (length l) * dieSides.
Proof. induction 1 as [|v l Hv _ IH]; simpl; lia. Qed.

(** C1.  With [1 <= nChoose <= dieCount], a die of [dieSides] sides and
    the non-negative numbers [raws] coming from the random source,
    [execute_choose_n_roll] uses up one number per die and returns the sum,
    as an [int], of the first [nChoose] of the draws in descending order
    under [compare_roll_high] (the [nChoose] largest), in ascending order
    under [compare_roll_low] (the [nChoose] smallest): [best_n] says that
    these are [nChoose] of the draws and that each of them is at least
    (at most) every draw left out.  Feeding the same numbers in another order
    returns the same value, and the [int] is the sum itself when
    [nChoose * dieSides] fits an [int].  "4d6c2" with the draws 1, 6, 3, 4,
    in any order, evaluates to 10. *)
Theorem choose_n_sums_the_n_best :
  (forall stack_junk dieCount dieSides nChoose raws rest,
      1 <= nChoose <= dieCount ->
      0 < dieSides <= INT_MAX ->
      dieCount = Z.of_nat (length raws) ->
      Forall (fun r => 0 <= r) raws ->
      execute_choose_n_roll stack_junk dieCount dieSides nChoose compare_roll_high
        (raws ++ rest)
      = Returns (int_wrap (sum_Z (first_n_by descending (Z.to_nat nChoose)
                                    (map (die_value dieSides) raws)))) rest /\
      execute_choose_n_roll stack_junk dieCount dieSides nChoose compare_roll_low
        (raws ++ rest)
      = Returns (int_wrap (sum_Z (first_n_by ascending (Z.to_nat nChoose)
                                    (map (die_value dieSides) raws)))) rest /\
      (forall raws' comp,
          raws' ≡ₚ raws ->
          comp = compare_roll_high \/ comp = compare_roll_low ->
          execute_choose_n_roll stack_junk dieCount dieSides nChoose comp
            (raws' ++ rest)
          = execute_choose_n_roll stack_junk dieCount dieSides nChoose comp
              (raws ++ rest)) /\
      best_n descending (Z.to_nat nChoose) (map (die_value dieSides) raws)
        (first_n_by descending (Z.to_nat nChoose) (map (die_value dieSides) raws)) /\
      best_n ascending (Z.to_nat nChoose) (map (die_value dieSides) raws)
        (first_n_by ascending (Z.to_nat nChoose) (map (die_value dieSides) raws)) /\
      (nChoose * dieSides <= INT_MAX ->
       forall R (HR : RelDecision R),
         int_wrap (sum_Z (first_n_by R (Z.to_nat nChoose)
                            (map (die_value dieSides) raws)))
         = sum_Z (first_n_by R (Z.to_nat nChoose) (map (die_value dieSides) raws)))) /\
  (forall stack_junk raws rest,
      map (die_value 6) raws ≡ₚ [1; 6; 3; 4] ->
      evaluate stack_junk "4d6c2" (raws ++ rest) = Some (Returns 10 rest)).
Proof.
  assert (Run :
    forall stack_junk dieCount dieSides nChoose raws rest,
      0 <= nChoose <= dieCount ->
      dieSides <> 0 ->
      dieCount = Z.of_nat (length raws) ->
      Forall (fun r => die_face (die_value dieSides r)) raws ->
      execute_choose_n_roll stack_junk dieCount dieSides nChoose compare_roll_high
        (raws ++ rest)
      = Returns (int_wrap (sum_Z (first_n_by descending (Z.to_nat nChoose)
                                    (map (die_value dieSides) raws)))) rest /\
      execute_choose_n_roll stack_junk dieCount dieSides nChoose compare_roll_low
        (raws ++ rest)
      = Returns (int_wrap (sum_Z (first_n_by ascending (Z.to_nat nChoose)
                                    (map (die_value dieSides) raws)))) rest).
  { intros. split.
    - by apply (execute_choose_n_roll_first_n _ descending die_face
                  compare_roll_high_order).
    - by apply (execute_choose_n_roll_first_n _ ascending die_face
                  compare_roll_low_order). }
  split.
  - intros stack_junk dieCount dieSides nChoose raws rest Hn Hs Hcount Hraws.
    assert (Hfaces : Forall (fun r => die_face (die_value dieSides r)) raws).
    { eapply Forall_impl; [exact Hraws|]. intros r Hr. by apply die_value_face. }
    destruct (Run stack_junk dieCount dieSides nChoose raws rest) as [Hhigh Hlow];
      [lia | lia | done | done |].
    split; [done|]. split; [done|]. split.
    { intros raws' comp Hperm Hcomp.
      destruct (Run stack_junk dieCount dieSides nChoose raws' rest) as [Hhigh' Hlow'];
        [lia | lia | by rewrite Hperm | by rewrite Hperm |].
      destruct Hcomp as [-> | ->].
      + rewrite Hhigh, Hhigh'. do 3 f_equal. apply first_n_by_perm; [apply _..|].
        by rewrite Hperm.
      + rewrite Hlow, Hlow'. do 3 f_equal. apply first_n_by_perm; [apply _..|].
        by rewrite Hperm. }
    split; [apply first_n_by_best; [apply _..|]; rewrite length_map; lia|].
    split; [apply first_n_by_best; [apply _..|]; rewrite length_map; lia|].
    intros Hsmall R HR. apply int_wrap_small.
    assert (Hdraws : Forall (fun v => 1 <= v <= dieSides)
                       (map (die_value dieSides) raws)).
    { apply Forall_fmap. eapply Forall_impl; [exact Hraws|].
      intros r Hr. simpl. by apply die_value_face. }
    pose proof (sum_Z_faces dieSides
                  (first_n_by R (Z.to_nat nChoose) (map (die_value dieSides) raws))) as Hsum.
    assert (Hlen : (length (first_n_by R (Z.to_nat nChoose)
                              (map (die_value dieSides) raws)) <= Z.to_nat nChoose)%nat).
    { unfold first_n_by. rewrite length_take. lia. }
    unfold in_int, INT_MIN.
    assert (0 <= sum_Z (first_n_by R (Z.to_nat nChoose) (map (die_value dieSides) raws))
            <= Z.of_nat (length (first_n_by R (Z.to_nat nChoose)
                                   (map (die_value dieSides) raws))) * dieSides).
    { apply Hsum. unfold first_n_by. apply Forall_take.
      by rewrite merge_sort_Permutation. }
    nia.
  - intros stack_junk raws rest Hdraws.
    assert (Hfaces : Forall (fun r => die_face (die_value 6 r)) raws).
    { change (Forall (die_face ∘ die_value 6) raws).
      apply Forall_fmap. rewrite Hdraws.
      repeat constructor; unfold die_face, INT_MAX; lia. }
    assert (Hlen : length raws = 4%nat).
    { rewrite <- (length_fmap (die_value 6)). by rewrite Hdraws. }
    destruct (Run stack_junk 4 6 2 raws rest) as [Hhigh _];
      [lia | lia | lia | done |].
    rewrite (first_n_by_perm descending _ _ _ Hdraws) in Hhigh.
    unfold evaluate.
    replace (parse "4d6c2") with
      (@nil string,
       Some (Some (a_singlet (mkExprList None
         (Some (mkObjNode
                  (Some (mkRollNode 4 6 (Some (mkRollModifier CHOOSE_HIGH 2)))) 0 None))
         NOOP None))))
      by (vm_compute; reflexivity).
    simpl. unfold ebind, execute_roll. simpl. rewrite Hhigh. done.
Qed.

Lemma choose_n_sums_the_n_best_witness :
  execute_choose_n_roll (fun _ => 0) 4 6 2 compare_roll_high ([0; 5; 2; 3] ++ [7])
  = Returns (int_wrap (sum_Z (first_n_by descending (Z.to_nat 2)
                                (map (die_value 6) [0; 5; 2; 3])))) [7] /\
  execute_choose_n_roll (fun _ => 0) 4 6 2 compare_roll_low ([0; 5; 2; 3] ++ [7])
  = Returns (int_wrap (sum_Z (first_n_by ascending (Z.to_nat 2)
                                (map (die_value 6) [0; 5; 2; 3])))) [7] /\
  (forall raws' comp,
      raws' ≡ₚ [0; 5; 2; 3] ->
      comp = compare_roll_high \/ comp = compare_roll_low ->
      execute_choose_n_roll (fun _ => 0) 4 6 2 comp (raws' ++ [7])
      = execute_choose_n_roll (fun _ => 0) 4 6 2 comp ([0; 5; 2; 3] ++ [7])) /\
  best_n descending (Z.to_nat 2) (map (die_value 6) [0; 5; 2; 3])
    (first_n_by descending (Z.to_nat 2) (map (die_value 6) [0; 5; 2; 3])) /\
  best_n ascending (Z.to_nat 2) (map (die_value 6) [0; 5; 2; 3])
    (first_n_by ascending (Z.to_nat 2) (map (die_value 6) [0; 5; 2; 3])) /\
  (2 * 6 <= INT_MAX ->
   forall R (HR : RelDecision R),
     int_wrap (sum_Z (first_n_by R (Z.to_nat 2) (map (die_value 6) [0; 5; 2; 3])))
     = sum_Z (first_n_by R (Z.to_nat 2) (map (die_value 6) [0; 5; 2; 3]))).
Proof.
  apply (proj1 choose_n_sums_the_n_best (fun _ => 0) 4 6 2 [0; 5; 2; 3] [7]).
  - lia.
  - unfold INT_MAX. lia.
  - reflexivity.
  - repeat constructor; lia.
Defined.

(** ** Unbalanced parentheses *)

Lemma scan_span_outside opchars len s k depth :
  len <= Z.of_nat k ->
  scan_span opchars len s k depth
  = if negb (depth =? 0) then
      print_error MismatchedParentheses >>> ret OptSentinel
    else ret OptNull.
Proof.
  revert k. induction s as [|c s IH]; intros k Hk; simpl; [done|].
  destruct (mem_char c opchars).
  - destruct (Z.of_nat k <? len) eqn:E; [apply Z.ltb_lt in E; lia | done].
  - apply IH. lia.
Qed.

Lemma char_at_drop inp k c s :
  drop k inp = c :: s -> char_at inp (Z.of_nat k) = c /\ drop (k + 1) inp = s.
Proof.
  intros H. split.
  - unfold char_at. destruct (Z.of_nat k <? 0) eqn:E; [apply Z.ltb_lt in E; lia|].
    rewrite Nat2Z.id, nth_lookup.
    assert (inp !! k = Some c) as ->; [|done].
    replace k with (k + 0)%nat by lia. rewrite <- lookup_drop, H. done.
  - rewrite <- drop_drop, H. done.
Qed.

(** The loop of [find_first_free_opt] computes [scan_span]. *)
Lemma scan_loop_span inp len opchars s :
  forall fuel k depth,
    drop k inp = s ->
    (length s <= fuel)%nat ->
    scan_loop fuel inp len opchars
      ((fun j => (k + j)%nat) <$> strpbrk s opchars) depth
    = scan_span opchars len s k depth.
Proof.
  induction s as [|c s IH]; intros fuel k depth Hs Hfuel; simpl.
  - destruct fuel; done.
  - destruct (mem_char c opchars) eqn:Hc; simpl.
    + rewrite Nat.add_0_r.
      destruct fuel as [|fuel]; [simpl in Hfuel; lia|]. simpl in Hfuel.
      simpl scan_loop.
      destruct (Z.of_nat k <? len) eqn:Hk; [|done].
      destruct (char_at_drop _ _ _ _ Hs) as [-> Hs']. rewrite Hs'.
      assert (Hnext : forall d,
                 scan_loop fuel inp len opchars
                   ((fun k0 : nat => (k + 1 + k0)%nat) <$> strpbrk s opchars) d
                 = scan_span opchars len s (S k) d).
      { intros d. rewrite <- (IH fuel (S k) d); [|rewrite <- Hs'; f_equal; lia | lia].
        f_equal. apply option_fmap_ext. intros j. lia. }
      destruct (Ascii.eqb c "("%char); [apply Hnext|].
      destruct (Ascii.eqb c ")"%char).
      { destruct (depth - 1 <? 0); [done | apply Hnext]. }
      destruct (depth =? 0); [done | apply Hnext].
    + rewrite <- option_fmap_compose.
      rewrite <- (IH fuel (S k) depth); [|by apply char_at_drop in Hs as [_ <-];
                                            f_equal; lia | simpl in Hfuel; lia].
      f_equal. apply option_fmap_ext. intros j. simpl. lia.
Qed.

Lemma find_first_free_opt_span inp len opchars :
  find_first_free_opt inp len opchars = scan_span opchars len inp 0 0.
Proof.
  unfold find_first_free_opt.
  rewrite <- (scan_loop_span inp len opchars inp (length inp) 0 0); [|done..].
  f_equal. by destruct (strpbrk inp opchars).
Qed.

Lemma not_opchar_not_paren opchars c :
  mem_char "("%char opchars = true -> mem_char ")"%char opchars = true ->
  mem_char c opchars = false ->
  Ascii.eqb c "("%char = false /\ Ascii.eqb c ")"%char = false.
Proof.
  intros Hopen Hclose Hc. split.
  - destruct (Ascii.eqb c "("%char) eqn:E; [|done].
    apply Ascii.eqb_eq in E. congruence.
  - destruct (Ascii.eqb c ")"%char) eqn:E; [|done].
    apply Ascii.eqb_eq in E. congruence.
Qed.

(** What the scanner's result says about the depth of nesting. *)
Lemma scan_span_spec opchars len :
  mem_char "("%char opchars = true -> mem_char ")"%char opchars = true ->
  forall (s : list ascii) k d log res,
    scan_span opchars len s k (Z.of_nat d) = (log, res) ->
    match res with
    | Some (OptAt p) =>
        exists j c,
          p = (k + j)%nat /\ Z.of_nat p < len /\
          depth_after d (take j s) = Some O /\
          s !! j = Some c /\
          Ascii.eqb c "("%char = false /\ Ascii.eqb c ")"%char = false /\
          mem_char c opchars = true
    | Some OptNull => depth_after d (take (Z.to_nat len - k) s) = Some O
    | Some OptSentinel => log = [MismatchedParentheses]
    | None => False
    end.
Proof.
  intros Hopen Hclose.
  assert (Finish : forall d k s log res,
    (if negb (Z.of_nat d =? 0) then
       print_error MismatchedParentheses >>> ret OptSentinel
     else ret OptNull) = (log, res) ->
    (Z.to_nat len - k = 0)%nat \/ s = [] ->
    match res with
    | Some (OptAt p) => False
    | Some OptNull => depth_after d (take (Z.to_nat len - k) s) = Some O
    | Some OptSentinel => log = [MismatchedParentheses]
    | None => False
    end).
  { intros d k s log res H Hs.
    assert (take (Z.to_nat len - k) s = []) as ->
      by (destruct Hs as [-> | ->]; [done | by rewrite take_nil]).
    destruct (Z.of_nat d =? 0) eqn:E; munfold_in H; injection H as <- <-; [|done].
    apply Z.eqb_eq in E. simpl. f_equal. lia. }
  induction s as [|c s IH]; intros k d log res H; simpl in H.
  - pose proof (Finish d k [] log res H (or_intror eq_refl)) as HF.
    by destruct res as [[]|].
  - destruct (mem_char c opchars) eqn:Hc.
    + destruct (Z.of_nat k <? len) eqn:Hk.
      * apply Z.ltb_lt in Hk.
        replace (Z.to_nat len - k)%nat with (S (Z.to_nat len - S k)) by lia.
        destruct (Ascii.eqb c "("%char) eqn:Hc1.
        { replace (Z.of_nat d + 1) with (Z.of_nat (S d)) in H by lia.
          apply IH in H. destruct res as [[p| |]|]; try done.
          - destruct H as (j & c' & -> & ? & ? & ? & ? & ? & ?).
            exists (S j), c'. simpl. rewrite Hc1. repeat split; try done; lia.
          - simpl. by rewrite Hc1. }
        destruct (Ascii.eqb c ")"%char) eqn:Hc2.
        { destruct (Z.of_nat d - 1 <? 0) eqn:Hd.
          - munfold_in H. by injection H as <- <-.
          - apply Z.ltb_ge in Hd. destruct d as [|d]; [lia|].
            replace (Z.of_nat (S d) - 1) with (Z.of_nat d) in H by lia.
            apply IH in H. destruct res as [[p| |]|]; try done.
            + destruct H as (j & c' & -> & ? & ? & ? & ? & ? & ?).
              exists (S j), c'. simpl. rewrite Hc1, Hc2.
              repeat split; try done; lia.
            + simpl. by rewrite Hc1, Hc2. }
        destruct (Z.of_nat d =? 0) eqn:Hd.
        { apply Z.eqb_eq in Hd. munfold_in H. injection H as <- <-.
          exists O, c. simpl. repeat split; try done; try lia.
          f_equal. lia. }
        apply IH in H. destruct res as [[p| |]|]; try done.
        { destruct H as (j & c' & -> & ? & ? & ? & ? & ? & ?).
          exists (S j), c'. simpl. rewrite Hc1, Hc2. repeat split; try done; lia. }
        simpl. by rewrite Hc1, Hc2.
      * apply Z.ltb_ge in Hk.
        assert (Z.to_nat len - k = 0)%nat as Hout by lia.
        pose proof (Finish d k (c :: s) log res H (or_introl Hout)) as HF.
        by destruct res as [[]|].
    + destruct (not_opchar_not_paren _ _ Hopen Hclose Hc) as [Hc1 Hc2].
      apply IH in H. destruct res as [[p| |]|]; try done.
      * destruct H as (j & c' & -> & ? & ? & ? & ? & ? & ?).
        exists (S j), c'. simpl. rewrite Hc1, Hc2. repeat split; try done; lia.
      * destruct (Z.to_nat len - k)%nat as [|m] eqn:Hm.
        { replace (Z.to_nat len - S k)%nat with O in H by lia.
          by rewrite take_0 in *. }
        replace (Z.to_nat len - S k)%nat with m in H by lia.
        simpl. by rewrite Hc1, Hc2.
Qed.

Lemma depth_after_skip_balanced a c b :
  depth_after 0 a = Some O ->
  Ascii.eqb c "("%char = false -> Ascii.eqb c ")"%char = false ->
  depth_after 0 (a ++ c :: b) = depth_after 0 b.
Proof.
  intros Ha Hc1 Hc2.
  assert (forall d d', depth_after d a = Some d' ->
                       depth_after d (a ++ c :: b) = depth_after d' b) as Happ.
  { clear Ha. induction a as [|x a IH]; intros d d' H; simpl in *.
    - injection H as <-. by rewrite Hc1, Hc2.
    - destruct (Ascii.eqb x "("%char); [by apply IH|].
      destruct (Ascii.eqb x ")"%char); [|by apply IH].
      destruct d; [done | by apply IH]. }
  by apply Happ.
Qed.

Lemma opchars_have_parens type :
  mem_char "("%char (opchars_of type) = true /\
  mem_char ")"%char (opchars_of type) = true.
Proof. by destruct type. Qed.

(** A span with unbalanced parentheses: whatever the level, the parse
    comes to the scanner's ["?"] on the span or on the right operand of an
    operator, and so leaves defined behaviour, unless an operand in front
    has done so before. *)
Lemma parse_expr_unbalanced n :
  forall inp len type,
    (Z.to_nat len <= n)%nat ->
    ~ balanced (take (Z.to_nat len) inp) ->
    (parse_expr inp len type).2 = None.
Proof.
  induction n as [|n IH]; intros inp len type Hn Hunb.
  { replace (Z.to_nat len) with O in Hunb by lia. by destruct Hunb. }
  rewrite parse_expr_eq. unfold parse_expr_body.
  destruct (len <=? 0) eqn:Hlen.
  { apply Z.leb_le in Hlen. replace (Z.to_nat len) with O in Hunb by lia.
    by destruct Hunb. }
  apply Z.leb_gt in Hlen.
  rewrite find_first_free_opt_span.
  destruct (scan_span (opchars_of type) len inp 0 0) as [log res] eqn:Hscan.
  destruct (opchars_have_parens type) as [Hopen Hclose].
  pose proof (scan_span_spec _ len Hopen Hclose inp O O log res Hscan) as Hspec.
  destruct res as [[p| |]|]; try done; unfold bind at 1; cbv beta iota.
  - destruct Hspec as (j & c & -> & Hp & Hpre & Hc & Hc1 & Hc2 & Hop). simpl in *.
    assert (Hrest : ~ balanced (take (Z.to_nat (len - (Z.of_nat j + 1)))
                                  (drop (j + 1) inp))).
    { intros Hbal. apply Hunb. unfold balanced in *.
      rewrite (take_split_at inp (Z.to_nat len) j c) by (done || lia).
      rewrite depth_after_skip_balanced by done.
      replace (Z.to_nat len - (j + 1))%nat with (Z.to_nat (len - (Z.of_nat j + 1)))
        by lia.
      done. }
    specialize (IH (drop (j + 1) inp) (len - (Z.of_nat j + 1)) type
                  ltac:(lia) Hrest).
    destruct (match type with
              | A_OP => ret None
              | M_OP => parse_obj inp (Z.of_nat j)
              end) as [logo [o|]]; [|done].
    unfold bind at 1; cbv beta iota.
    destruct (match type with
              | A_OP => parse_expr inp (Z.of_nat j) M_OP
              | M_OP => ret None
              end) as [logl [l|]]; [|done].
    unfold bind at 1; cbv beta iota.
    destruct (parse_expr (drop (j + 1) inp) (len - (Z.of_nat j + 1)) type)
      as [logr [r|]]; [done|done].
  - replace (Z.to_nat len - 0)%nat with (Z.to_nat len) in Hspec by lia. done.
Qed.

(** C9, as the code has it.  Take a span whose parentheses are
    unbalanced: some [')'] comes at depth 0, or the depth is not 0 at the
    end.  The scanner does print "Mismatched parentheses." and return its
    ["?"], on the span or on what follows an operator with balanced text
    in front; but [parse_expr] does not test for the ["?"] and goes on to
    subtract [inp] from it: no run on such a span returns, with or without
    a tree, within defined behaviour.  So it is for "(1+2" and for "1+2)",
    each after the one message. *)
Theorem unbalanced_parentheses_leave_defined_behaviour :
  (forall inp len type,
      ~ balanced (take (Z.to_nat len) inp) ->
      (find_first_free_opt inp len (opchars_of type)
         = ([MismatchedParentheses], Some OptSentinel) \/
       exists log p,
         find_first_free_opt inp len (opchars_of type) = (log, Some (OptAt p)) /\
         balanced (take p inp) /\
         ~ balanced (take (Z.to_nat (len - (Z.of_nat p + 1))) (drop (p + 1) inp))) /\
      (parse_expr inp len type).2 = None) /\
  (forall inp len type,
      0 < len ->
      find_first_free_opt inp len (opchars_of type)
        = ([MismatchedParentheses], Some OptSentinel) ->
      parse_expr inp len type = ([MismatchedParentheses], None)) /\
  parse "(1+2" = ([MismatchedParentheses], None) /\
  parse "1+2)" = ([MismatchedParentheses], None).
Proof.
  split; [|split; [|split; vm_compute; reflexivity]].
  - intros inp len type Hunb. split.
    + rewrite find_first_free_opt_span.
      destruct (scan_span (opchars_of type) len inp 0 0) as [log res] eqn:Hscan.
      destruct (opchars_have_parens type) as [Hopen Hclose].
      pose proof (scan_span_spec _ len Hopen Hclose inp O O log res Hscan) as Hspec.
      destruct res as [[p| |]|]; try done.
      * right. exists log, p. split; [done|].
        destruct Hspec as (j & c & -> & Hp & Hpre & Hc & Hc1 & Hc2 & Hop). simpl in *.
        split; [done|].
        intros Hbal. apply Hunb. unfold balanced in *.
        rewrite (take_split_at inp (Z.to_nat len) j c) by (done || lia).
        rewrite depth_after_skip_balanced by done.
        replace (Z.to_nat len - (j + 1))%nat with (Z.to_nat (len - (Z.of_nat j + 1)))
          by lia.
        done.
      * left. by subst log.
      * replace (Z.to_nat len - 0)%nat with (Z.to_nat len) in Hspec by lia. done.
    + by apply (parse_expr_unbalanced (Z.to_nat len)).
  - intros inp len type Hlen Hscan.
    rewrite parse_expr_eq. unfold parse_expr_body.
    destruct (len <=? 0) eqn:E; [apply Z.leb_le in E; lia|].
    by rewrite Hscan.
Qed.

Lemma unbalanced_parentheses_leave_defined_behaviour_witness :
  (find_first_free_opt (cstr "1+2)") 4 (opchars_of A_OP)
     = ([MismatchedParentheses], Some OptSentinel) \/
   exists log p,
     find_first_free_opt (cstr "1+2)") 4 (opchars_of A_OP) = (log, Some (OptAt p)) /\
     balanced (take p (cstr "1+2)")) /\
     ~ balanced (take (Z.to_nat (4 - (Z.of_nat p + 1))) (drop (p + 1) (cstr "1+2)")))) /\
  (parse_expr (cstr "1+2)") 4 A_OP).2 = None.
Proof.
  apply (proj1 unbalanced_parentheses_leave_defined_behaviour (cstr "1+2)") 4 A_OP).
  unfold balanced. vm_compute. discriminate.
Defined.

(** ** How far the parse depends on the bytes behind the span *)

Lemma char_at_lookup (inp : list ascii) i :
  0 <= i -> char_at inp i = default NUL (inp !! Z.to_nat i).
Proof.
  intros Hi. unfold char_at.
  destruct (i <? 0) eqn:E; [apply Z.ltb_lt in E; lia|]. apply nth_lookup.
Qed.

Lemma char_at_take (inp : list ascii) L i :
  0 <= i < Z.of_nat L -> char_at (take L inp) i = char_at inp i.
Proof.
  intros Hi. rewrite !char_at_lookup by lia. by rewrite lookup_take_lt by lia.
Qed.

Lemma char_at_drop_add (inp : list ascii) k i :
  0 <= i -> char_at (drop k inp) i = char_at inp (Z.of_nat k + i).
Proof.
  intros Hi. rewrite !char_at_lookup by lia. rewrite lookup_drop.
  do 2 f_equal. lia.
Qed.

Lemma strpbrk_take s accept L :
  strpbrk (take L s) accept
  = match strpbrk s accept with
    | Some off => if decide (off < L)%nat then Some off else None
    | None => None
    end.
Proof.
  revert L. induction s as [|c s IH]; intros [|L]; simpl; try done.
  - by destruct (if mem_char c accept then _ else _).
  - destruct (mem_char c accept); [done|]. rewrite IH.
    destruct (strpbrk s accept) as [off|]; simpl; [|done].
    destruct (decide (off < L)%nat), (decide (S off < S L)%nat); simpl; done || lia.
Qed.

Lemma strspn_take s accept L :
  strspn (take L s) accept = (L `min` strspn s accept)%nat.
Proof.
  revert L. induction s as [|c s IH]; intros [|L]; simpl; try done.
  destruct (mem_char c accept); [|done]. by rewrite IH.
Qed.

Lemma strspn_stops s accept L :
  (L <= strspn s accept)%nat ->
  mem_char (char_at s (Z.of_nat L)) accept = false ->
  mem_char NUL accept = false ->
  strspn s accept = L.
Proof.
  intros Hge Hstop Hnul. revert L Hge Hstop.
  induction s as [|c s IH]; intros L Hge Hstop; simpl in *; [lia|].
  destruct (mem_char c accept) eqn:Hc.
  - destruct L as [|L].
    + rewrite char_at_lookup in Hstop by lia. simpl in Hstop. congruence.
    + f_equal. apply IH; [lia|].
      rewrite char_at_lookup in * by lia.
      replace (Z.to_nat (Z.of_nat (S L))) with (S L) in Hstop by lia.
      by rewrite Nat2Z.id.
  - lia.
Qed.

Lemma scan_span_take opchars len s k depth :
  scan_span opchars len (take (Z.to_nat len - k) s) k depth
  = scan_span opchars len s k depth.
Proof.
  revert k depth. induction s as [|c s IH]; intros k depth.
  { by rewrite take_nil. }
  destruct (decide (Z.of_nat k < len)) as [Hk|Hk].
  - replace (Z.to_nat len - k)%nat with (S (Z.to_nat len - S k)) by lia.
    simpl. rewrite !IH. done.
  - replace (Z.to_nat len - k)%nat with O by lia.
    rewrite take_0. rewrite !scan_span_outside by lia. done.
Qed.

(** The scanner looks at the span only. *)
Lemma find_first_free_opt_take inp len opchars :
  find_first_free_opt (take (Z.to_nat len) inp) len opchars
  = find_first_free_opt inp len opchars.
Proof.
  rewrite !find_first_free_opt_span.
  rewrite <- (scan_span_take opchars len inp 0).
  by rewrite Nat.sub_0_r.
Qed.

Lemma parse_modifier_take inp len L :
  (Z.to_nat len <= L)%nat ->
  parse_modifier (take L inp) len = parse_modifier inp len.
Proof.
  intros HL. unfold parse_modifier.
  destruct (len <=? 0) eqn:Hlen; [done|]. apply Z.leb_gt in Hlen.
  rewrite char_at_take by lia.
  destruct (modifier_type_of (char_at inp 0)); [|done].
  destruct (len <? 2); [done|].
  unfold strncpy. rewrite <- take_drop_commute_sub by lia.
  rewrite take_take. do 6 f_equal. lia.
Qed.

Lemma parse_roll_consts_take inp len d_off mod_chars rmod :
  Z.of_nat d_off < len -> 0 <= mod_chars ->
  parse_roll_consts (take (Z.to_nat len) inp) len d_off mod_chars rmod
  = parse_roll_consts inp len d_off mod_chars rmod.
Proof.
  intros Hd Hmod. unfold parse_roll_consts.
  destruct (_ <? 0) eqn:Hb; [done|]. apply Z.ltb_ge in Hb.
  unfold strncpy.
  rewrite take_take.
  replace (Z.to_nat (Z.of_nat d_off) `min` Z.to_nat len)%nat
    with (Z.to_nat (Z.of_nat d_off)) by lia.
  rewrite <- (take_drop_commute_sub inp (Z.to_nat len) (d_off + 1)) by lia.
  rewrite take_take.
  replace (Z.to_nat (len - (Z.of_nat d_off + 1 + mod_chars))
             `min` (Z.to_nat len - (d_off + 1)))%nat
    with (Z.to_nat (len - (Z.of_nat d_off + 1 + mod_chars))) by lia.
  done.
Qed.

(** [parse_roll] looks at the span only. *)
Lemma parse_roll_take inp len :
  parse_roll (take (Z.to_nat len) inp) len = parse_roll inp len.
Proof.
  unfold parse_roll.
  destruct (len <=? 0) eqn:Hlen; [done|]. apply Z.leb_gt in Hlen.
  unfold strchr. rewrite !strpbrk_take.
  destruct (strpbrk inp ["d"%char]) as [d_off|]; [|done].
  destruct (decide (d_off < Z.to_nat len)%nat) as [Hd|Hd].
  2:{ destruct (Z.of_nat d_off >=? len) eqn:E; [done|].
      rewrite Z.geb_leb in E. apply Z.leb_gt in E. lia. }
  destruct (Z.of_nat d_off >=? len) eqn:E; [done|].
  destruct (strpbrk inp (cstr "cbvw")) as [mod_off|].
  2:{ apply parse_roll_consts_take; lia. }
  destruct (decide (mod_off < Z.to_nat len)%nat) as [Hm|Hm].
  - destruct (Z.of_nat mod_off <? len) eqn:E2; [|apply Z.ltb_ge in E2; lia].
    rewrite <- take_drop_commute_sub by lia.
    rewrite parse_modifier_take by lia.
    destruct (parse_modifier (drop mod_off inp) (len - Z.of_nat mod_off))
      as [log [[m|]|]]; unfold bind; try done.
    rewrite parse_roll_consts_take by lia. done.
  - destruct (Z.of_nat mod_off <? len) eqn:E2; [apply Z.ltb_lt in E2; lia|].
    apply parse_roll_consts_take; lia.
Qed.

Lemma opchar_not_digit type c :
  mem_char c (opchars_of type) = true -> isdigit c = false.
Proof.
  destruct type; unfold mem_char; simpl; rewrite !orb_true_iff, !Ascii.eqb_eq;
    intros H; repeat (destruct H as [->|H]); done.
Qed.

Lemma parse_operator_drop (inp : list ascii) p :
  parse_operator (drop p inp)
  = parse_operator [char_at inp (Z.of_nat p)].
Proof.
  unfold parse_operator. rewrite char_at_drop_add by lia.
  replace (Z.of_nat p + 0) with (Z.of_nat p) by lia. done.
Qed.

(** When the byte behind the span is not a digit, [parse_expr] and
    [parse_obj] return what they return for the span cut out of the
    buffer. *)
Lemma parse_span_only n :
  (forall inp len type,
      (expr_depth len type <= n)%nat ->
      isdigit (char_at inp len) = false ->
      parse_expr (take (Z.to_nat len) inp) len type = parse_expr inp len type) /\
  (forall inp len,
      (obj_depth len <= n)%nat ->
      isdigit (char_at inp len) = false ->
      parse_obj (take (Z.to_nat len) inp) len = parse_obj inp len).
Proof.
  induction n as [|n [IHe IHo]]; split.
  - intros inp len [] H; unfold expr_depth in H; lia.
  - intros inp len H; unfold obj_depth in H; lia.
  - intros inp len type Hn Hstop.
    rewrite !parse_expr_eq. unfold parse_expr_body.
    destruct (len <=? 0) eqn:Hlen; [done|]. apply Z.leb_gt in Hlen.
    rewrite find_first_free_opt_take.
    destruct (find_first_free_opt inp len (opchars_of type))
      as [log [[p| |]|]] eqn:Hscan; unfold bind at 1 3; cbv beta iota; try done.
    + pose proof Hscan as Hspec. rewrite find_first_free_opt_span in Hspec.
      destruct (opchars_have_parens type) as [Hopen Hclose].
      apply (scan_span_spec _ len Hopen Hclose inp O O) in Hspec.
      destruct Hspec as (j & c & -> & Hp & _ & Hc & _ & _ & Hop). simpl in *.
      assert (Hcj : char_at inp (Z.of_nat j) = c).
      { rewrite char_at_lookup by lia. by rewrite Nat2Z.id, Hc. }
      assert (Hdigit : isdigit (char_at inp (Z.of_nat j)) = false).
      { rewrite Hcj. by eapply opchar_not_digit. }
      set (T := take (Z.to_nat len) inp).
      assert (HTj : take (Z.to_nat (Z.of_nat j)) T = take (Z.to_nat (Z.of_nat j)) inp).
      { unfold T. rewrite take_take. f_equal. lia. }
      assert (HcT : char_at T (Z.of_nat j) = char_at inp (Z.of_nat j)).
      { unfold T. apply char_at_take. lia. }
      assert (Hleft_o : parse_obj T (Z.of_nat j) = parse_obj inp (Z.of_nat j)).
      { rewrite <- (IHo T), <- (IHo inp), HTj;
          [done | unfold obj_depth, expr_depth in *; destruct type; lia | done
          | unfold obj_depth, expr_depth in *; destruct type; lia | by rewrite HcT]. }
      assert (Hleft_e : parse_expr T (Z.of_nat j) M_OP
                        = parse_expr inp (Z.of_nat j) M_OP).
      { rewrite <- (IHe T), <- (IHe inp), HTj;
          [done | unfold expr_depth in *; destruct type; lia | done
          | unfold expr_depth in *; destruct type; lia | by rewrite HcT]. }
      assert (Hop_eq : parse_operator (drop j T) = parse_operator (drop j inp)).
      { by rewrite !parse_operator_drop, HcT. }
      assert (Hright : parse_expr (drop (j + 1) T) (len - (Z.of_nat j + 1)) type
                       = parse_expr (drop (j + 1) inp) (len - (Z.of_nat j + 1)) type).
      { rewrite <- (IHe (drop (j + 1) inp)).
        - f_equal. unfold T. rewrite <- take_drop_commute_sub by lia.
          f_equal. lia.
        - unfold expr_depth in *; destruct type; lia.
        - rewrite char_at_drop_add by lia.
          replace (Z.of_nat (j + 1) + (len - (Z.of_nat j + 1))) with len by lia.
          done. }
      rewrite Hop_eq, Hright. by destruct type; rewrite ?Hleft_o, ?Hleft_e.
    + destruct type.
      * rewrite (IHe inp len M_OP); [done | unfold expr_depth in *; lia | done].
      * rewrite (IHo inp len); [done | unfold expr_depth, obj_depth in *; lia | done].
  - intros inp len Hn Hstop.
    rewrite !parse_obj_eq. unfold parse_obj_body.
    destruct (len <=? 0) eqn:Hlen; [done|]. apply Z.leb_gt in Hlen.
    rewrite !char_at_take by lia.
    destruct (Ascii.eqb (char_at inp 0) "("%char).
    + destruct (Ascii.eqb (char_at inp (len - 1)) ")"%char) eqn:Hclose; [|done].
      simpl negb. cbv iota.
      apply Ascii.eqb_eq in Hclose.
      assert (Hinner : forall X : list ascii,
                 char_at X (len - 2) = ")"%char ->
                 parse_expr (take (Z.to_nat (len - 2)) X) (len - 2) A_OP
                 = parse_expr X (len - 2) A_OP).
      { intros X HX. apply IHe; [unfold expr_depth, obj_depth in *; lia|].
        by rewrite HX. }
      assert (Hat : forall i, 0 <= i -> char_at (drop 1 inp) i = char_at inp (i + 1)).
      { intros i Hi. rewrite char_at_drop_add by lia. f_equal. lia. }
      destruct (decide (len = 1)) as [->|Hlen1].
      { rewrite !parse_expr_eq. unfold parse_expr_body. done. }
      rewrite <- (Hinner (drop 1 inp)),
              <- (Hinner (drop 1 (take (Z.to_nat len) inp))).
      * do 2 f_equal. rewrite <- take_drop_commute_sub by lia.
        rewrite take_take. f_equal. lia.
      * rewrite <- take_drop_commute_sub by lia.
        rewrite char_at_take by lia. rewrite Hat by lia.
        rewrite <- Hclose. f_equal. lia.
      * rewrite Hat by lia. rewrite <- Hclose. f_equal. lia.
    + assert (Hspan : (Z.of_nat (strspn (take (Z.to_nat len) inp) digits) =? len)
                      = (Z.of_nat (strspn inp digits) =? len)).
      { rewrite strspn_take.
        destruct (decide (Z.to_nat len <= strspn inp digits)%nat) as [Hge|Hlt].
        - rewrite (strspn_stops inp digits (Z.to_nat len)); [|done| |done].
          + by rewrite Nat.min_id.
          + by rewrite Z2Nat.id by lia.
        - by rewrite Nat.min_r by lia. }
      rewrite Hspan.
      destruct (Z.of_nat (strspn inp digits) =? len).
      * unfold strncpy. by rewrite take_take, Nat.min_id.
      * by rewrite parse_roll_take.
Qed.

(** Two buffers that agree on the span and have no digit right behind it
    parse alike. *)
Lemma parse_expr_same_span inp1 inp2 len type :
  take (Z.to_nat len) inp1 = take (Z.to_nat len) inp2 ->
  isdigit (char_at inp1 len) = false ->
  isdigit (char_at inp2 len) = false ->
  parse_expr inp1 len type = parse_expr inp2 len type.
Proof.
  intros Hsame H1 H2.
  rewrite <- (proj1 (parse_span_only (expr_depth len type)) inp1) by done.
  rewrite <- (proj1 (parse_span_only (expr_depth len type)) inp2) by done.
  by rewrite Hsame.
Qed.

(** * Further properties of the parser *)

(** ** Reported errors and the shape of the trees *)

Lemma scan_span_quiet opchars len s k depth log res :
  scan_span opchars len s k depth = (log, Some res) ->
  res <> OptSentinel -> log = [].
Proof.
  revert k depth. induction s as [|c s IH]; intros k depth H Hres; simpl in H.
  - destruct (depth =? 0); munfold_in H; congruence.
  - destruct (mem_char c opchars); [|by eapply IH].
    destruct (Z.of_nat k <? len).
    + destruct (Ascii.eqb c "("%char); [by eapply IH|].
      destruct (Ascii.eqb c ")"%char).
      { destruct (depth - 1 <? 0); [munfold_in H; congruence | by eapply IH]. }
      destruct (depth =? 0); [munfold_in H; congruence | by eapply IH].
    + destruct (depth =? 0); munfold_in H; congruence.
Qed.

Lemma parse_modifier_result inp len :
  exists log r,
    parse_modifier inp len = (log, Some r) /\
    match r with
    | Some m => log = [] /\ mod_type m <> NONE
    | None => log <> []
    end.
Proof.
  unfold parse_modifier.
  destruct (len <=? 0); [by eexists _, None|].
  unfold modifier_type_of.
  destruct (Ascii.eqb _ "c"%char);
    [destruct (len <? 2); [by eexists _, None | by eexists _, (Some _)]|].
  destruct (Ascii.eqb _ "b"%char);
    [destruct (len <? 2); [by eexists _, None | by eexists _, (Some _)]|].
  destruct (Ascii.eqb _ "v"%char);
    [destruct (len <? 2); [by eexists _, None | by eexists _, (Some _)]|].
  destruct (Ascii.eqb _ "w"%char);
    [destruct (len <? 2); [by eexists _, None | by eexists _, (Some _)]|].
  by eexists _, None.
Qed.

Lemma parse_roll_consts_result inp len d_off mod_chars rmod log r :
  parse_roll_consts inp len d_off mod_chars rmod = (log, Some r) ->
  match r with
  | Some node => log = [] /\ rollMod node = rmod
  | None => log <> []
  end.
Proof.
  unfold parse_roll_consts. intros H.
  destruct (_ <? 0); [munfold_in H; congruence|].
  destruct (_ || _); [munfold_in H; by injection H as <- <-|].
  destruct (_ || _); [munfold_in H; by injection H as <- <-|].
  munfold_in H. by injection H as <- <-.
Qed.

Lemma parse_roll_result inp len log r :
  parse_roll inp len = (log, Some r) ->
  match r with
  | Some node => log = [] /\ roll_wf node
  | None => log <> []
  end.
Proof.
  unfold parse_roll. intros H.
  destruct (len <=? 0); [munfold_in H; by injection H as <- <-|].
  destruct (strchr inp "d"%char) as [d_off|]; [|munfold_in H; by injection H as <- <-].
  destruct (Z.of_nat d_off >=? len); [munfold_in H; by injection H as <- <-|].
  assert (Plain : forall log r,
             parse_roll_consts inp len d_off 0 None = (log, Some r) ->
             match r with
             | Some node => log = [] /\ roll_wf node
             | None => log <> []
             end).
  { intros log' r' H'. apply parse_roll_consts_result in H'.
    destruct r' as [node|]; [|done]. destruct H' as [-> Hmod].
    split; [done|]. unfold roll_wf. by rewrite Hmod. }
  destruct (strpbrk inp (cstr "cbvw")) as [mod_off|]; [|by apply Plain].
  destruct (Z.of_nat mod_off <? len); [|by apply Plain].
  destruct (parse_modifier_result (drop mod_off inp) (len - Z.of_nat mod_off))
    as (logm & rm & Hm & Hrm).
  rewrite Hm in H. unfold bind in H.
  destruct rm as [m|].
  - destruct Hrm as [-> Hkind].
    destruct (parse_roll_consts inp len d_off (len - Z.of_nat mod_off) (Some m))
      as [logc rc] eqn:Hc.
    injection H as <- ->. apply parse_roll_consts_result in Hc.
    destruct r as [node|]; [|done]. destruct Hc as [-> Hmod].
    split; [done|]. unfold roll_wf. by rewrite Hmod.
  - munfold_in H. injection H as <- <-. rewrite app_nil_r. done.
Qed.

Lemma opchar_operator type c :
  mem_char c (opchars_of type) = true ->
  Ascii.eqb c "("%char = false -> Ascii.eqb c ")"%char = false ->
  op_of_level type (parse_operator [c]) = true.
Proof.
  intros Hmem H1 H2. apply Ascii.eqb_neq in H1, H2.
  destruct type; unfold mem_char in Hmem; simpl in Hmem;
    rewrite !orb_true_iff, !Ascii.eqb_eq in Hmem;
    repeat (destruct Hmem as [->|Hmem]); done.
Qed.

(** What [parse_expr] and [parse_obj] return, for spans up to a bound. *)
Lemma parse_results n :
  (forall inp len type log r,
      (expr_depth len type <= n)%nat ->
      parse_expr inp len type = (log, Some r) ->
      match r with
      | Some tree => log = [] /\ expr_wf type tree
      | None => log <> []
      end) /\
  (forall inp len log r,
      (obj_depth len <= n)%nat ->
      parse_obj inp len = (log, Some r) ->
      match r with
      | Some o => log = [] /\ obj_wf o
      | None => log <> []
      end).
Proof.
  induction n as [|n [IHe IHo]]; split.
  - intros inp len [] log r H; unfold expr_depth in H; lia.
  - intros inp len log r H; unfold obj_depth in H; lia.
  - intros inp len type log r Hn H.
    rewrite parse_expr_eq in H. unfold parse_expr_body in H.
    destruct (len <=? 0) eqn:Hlen; [munfold_in H; by injection H as <- <-|].
    apply Z.leb_gt in Hlen.
    destruct (find_first_free_opt inp len (opchars_of type))
      as [log0 [[p| |]|]] eqn:Hscan; unfold bind at 1 in H; cbv beta iota in H;
      [| |  |congruence].
    + pose proof Hscan as Hspec. rewrite find_first_free_opt_span in Hspec.
      pose proof (scan_span_quiet _ _ _ _ _ _ _ Hspec ltac:(done)) as ->.
      destruct (opchars_have_parens type) as [Hopen Hclose].
      apply (scan_span_spec _ len Hopen Hclose inp O O) in Hspec.
      destruct Hspec as (j & c & -> & Hp & _ & Hc & Hc1 & Hc2 & Hop). simpl in *.
      assert (Hoper : op_of_level type (parse_operator (drop j inp)) = true).
      { rewrite parse_operator_drop, char_at_lookup by lia.
        rewrite Nat2Z.id, Hc. by apply opchar_operator. }
      destruct (parse_expr (drop (j + 1) inp) (len - (Z.of_nat j + 1)) type)
        as [logr rr] eqn:Hr.
      assert (Hrr : forall sub, rr = Some sub ->
                match sub with
                | Some tree => logr = [] /\ expr_wf type tree
                | None => logr <> []
                end).
      { intros sub ->. eapply IHe; [|exact Hr].
        unfold expr_depth in *; destruct type; lia. }
      destruct type.
      * destruct (parse_expr inp (Z.of_nat j) M_OP) as [logl rl] eqn:Hl.
        munfold_in H. destruct rl as [l|]; [|congruence].
        apply IHe in Hl; [|unfold expr_depth in *; lia].
        destruct rr as [sub|]; [|congruence]. specialize (Hrr sub eq_refl).
        destruct (bool_decide (parse_operator (drop j inp) = NOOP)) eqn:Hnoop.
        { apply bool_decide_eq_true in Hnoop. by rewrite Hnoop in Hoper. }
        destruct l as [l|], sub as [sub|]; simpl in H; injection H as <- <-;
          rewrite ?app_nil_r.
        -- destruct Hl as [-> Hl], Hrr as [-> Hrr]. done.
        -- destruct Hl as [-> Hl]. done.
        -- intros E. apply app_eq_nil in E as [E _]. done.
        -- intros E. apply app_eq_nil in E as [E _]. done.
      * destruct (parse_obj inp (Z.of_nat j)) as [logo ro] eqn:Ho.
        munfold_in H. destruct ro as [o|]; [|congruence].
        apply IHo in Ho; [|unfold expr_depth, obj_depth in *; lia].
        destruct rr as [sub|]; [|congruence]. specialize (Hrr sub eq_refl).
        destruct (bool_decide (parse_operator (drop j inp) = NOOP)) eqn:Hnoop.
        { apply bool_decide_eq_true in Hnoop. by rewrite Hnoop in Hoper. }
        destruct o as [o|], sub as [sub|]; simpl in H; injection H as <- <-;
          rewrite ?app_nil_r.
        -- destruct Ho as [-> Ho], Hrr as [-> Hrr]. done.
        -- destruct Ho as [-> Ho]. done.
        -- intros E. apply app_eq_nil in E as [E _]. done.
        -- intros E. apply app_eq_nil in E as [E _]. done.
    + munfold_in H. congruence.
    + rewrite find_first_free_opt_span in Hscan.
      pose proof (scan_span_quiet _ _ _ _ _ _ _ Hscan ltac:(done)) as ->.
      destruct type.
      * destruct (parse_expr inp len M_OP) as [logl rl] eqn:Hl.
        munfold_in H. destruct rl as [l|]; [|congruence].
        apply IHe in Hl; [|unfold expr_depth in *; lia].
        destruct l as [l|]; simpl in H; injection H as <- <-; rewrite ?app_nil_r.
        -- destruct Hl as [-> Hl]. done.
        -- done.
      * destruct (parse_obj inp len) as [logo ro] eqn:Ho.
        munfold_in H. destruct ro as [o|]; [|congruence].
        apply IHo in Ho; [|unfold expr_depth, obj_depth in *; lia].
        destruct o as [o|]; simpl in H; injection H as <- <-; rewrite ?app_nil_r.
        -- destruct Ho as [-> Ho]. done.
        -- done.
  - intros inp len log r Hn H.
    rewrite parse_obj_eq in H. unfold parse_obj_body in H.
    destruct (len <=? 0) eqn:Hlen; [munfold_in H; by injection H as <- <-|].
    destruct (Ascii.eqb (char_at inp 0) "("%char).
    + destruct (negb _); [munfold_in H; by injection H as <- <-|].
      destruct (parse_expr (drop 1 inp) (len - 2) A_OP) as [logs rs] eqn:Hs.
      munfold_in H. destruct rs as [sub|]; [|congruence].
      apply IHe in Hs; [|unfold expr_depth, obj_depth in *; lia].
      destruct sub as [sub|]; simpl in H; injection H as <- <-; rewrite ?app_nil_r.
      * destruct Hs as [-> Hs]. done.
      * done.
    + destruct (_ =? len).
      * munfold_in H. by injection H as <- <-.
      * destruct (parse_roll inp len) as [logr rr] eqn:Hr.
        munfold_in H. destruct rr as [node|]; [|congruence].
        apply parse_roll_result in Hr.
        destruct node as [node|]; simpl in H; injection H as <- <-;
          rewrite ?app_nil_r.
        -- destruct Hr as [-> Hr]. done.
        -- done.
Qed.

(** X1.  Every failure of the parser is reported and every report is a
    failure: when [parse_expr] returns a tree nothing was handed to
    [print_error], and when it returns NULL something was. *)
Theorem parse_expr_reports_exactly_its_failures inp len type :
  match parse_expr inp len type with
  | (log, Some (Some _)) => log = []
  | (log, Some None) => log <> []
  | (_, None) => True
  end.
Proof.
  destruct (parse_expr inp len type) as [log [r|]] eqn:H; [|done].
  apply (proj1 (parse_results (expr_depth len type))) in H; [|done].
  destruct r; [by destruct H | done].
Qed.

(** X2.  The trees [parse_expr] returns have the shape [expr_wf]: an
    additive node holds a multiplicative tree in [lhList] and no object, a
    multiplicative node holds an object and no [lhList]; [rhList] is
    there exactly when [opt] is an operator, which then is one of the
    level; an object is exactly one of roll, constant and nested tree;
    a modifier is never [NONE]. *)
Theorem parse_expr_tree_well_formed inp len type :
  match parse_expr inp len type with
  | (_, Some (Some tree)) => expr_wf type tree
  | _ => True
  end.
Proof.
  destruct (parse_expr inp len type) as [log [[tree|]|]] eqn:H; try done.
  apply (proj1 (parse_results (expr_depth len type))) in H; [|done].
  by destruct H.
Qed.

(** ** The scanner returns the first free operator *)

Lemma scan_span_first opchars len :
  mem_char "("%char opchars = true -> mem_char ")"%char opchars = true ->
  forall (s : list ascii) k d log res,
    scan_span opchars len s k (Z.of_nat d) = (log, Some res) ->
    match res with
    | OptAt p =>
        exists j,
          p = (k + j)%nat /\
          forall q c,
            (q < j)%nat -> s !! q = Some c -> mem_char c opchars = true ->
            Ascii.eqb c "("%char = false -> Ascii.eqb c ")"%char = false ->
            depth_after d (take q s) <> Some O
    | OptNull =>
        forall q c,
          (q < Z.to_nat len - k)%nat -> s !! q = Some c ->
          mem_char c opchars = true ->
          Ascii.eqb c "("%char = false -> Ascii.eqb c ")"%char = false ->
          depth_after d (take q s) <> Some O
    | OptSentinel => depth_after d (take (Z.to_nat len - k) s) <> Some O
    end.
Proof.
  intros Hopen Hclose.
  assert (Finish : forall d k (s : list ascii) log res,
    (if negb (Z.of_nat d =? 0) then
       print_error MismatchedParentheses >>> ret OptSentinel
     else ret OptNull) = (log, Some res) ->
    (Z.to_nat len - k = 0)%nat \/ s = [] ->
    match res with
    | OptAt p => False
    | OptNull =>
        forall q c,
          (q < Z.to_nat len - k)%nat -> s !! q = Some c ->
          mem_char c opchars = true ->
          Ascii.eqb c "("%char = false -> Ascii.eqb c ")"%char = false ->
          depth_after d (take q s) <> Some O
    | OptSentinel => depth_after d (take (Z.to_nat len - k) s) <> Some O
    end).
  { intros d k s log res H Hs.
    destruct (Z.of_nat d =? 0) eqn:E; munfold_in H; injection H as <- <-.
    - intros q c Hq Hc. destruct Hs as [Hs | ->]; [lia | done].
    - apply Z.eqb_neq in E.
      assert (take (Z.to_nat len - k) s = []) as ->
        by (destruct Hs as [-> | ->]; [done | by rewrite take_nil]).
      simpl. intros [= ->]. lia. }
  induction s as [|c s IH]; intros k d log res H; simpl in H.
  - pose proof (Finish d k [] log res H (or_intror eq_refl)) as HF.
    by destruct res.
  - assert (Lift : forall d' res',
      (Ascii.eqb c "("%char = false -> Ascii.eqb c ")"%char = false ->
       mem_char c opchars = true -> d <> O) ->
      (forall t, depth_after d (c :: t) = depth_after d' t) ->
      Z.of_nat k < len ->
      match res' with
      | OptAt p =>
          exists j,
            p = (S k + j)%nat /\
            forall q c0,
              (q < j)%nat -> s !! q = Some c0 -> mem_char c0 opchars = true ->
              Ascii.eqb c0 "("%char = false -> Ascii.eqb c0 ")"%char = false ->
              depth_after d' (take q s) <> Some O
      | OptNull =>
          forall q c0,
            (q < Z.to_nat len - S k)%nat -> s !! q = Some c0 ->
            mem_char c0 opchars = true ->
            Ascii.eqb c0 "("%char = false -> Ascii.eqb c0 ")"%char = false ->
            depth_after d' (take q s) <> Some O
      | OptSentinel => depth_after d' (take (Z.to_nat len - S k) s) <> Some O
      end ->
      match res' with
      | OptAt p =>
          exists j,
            p = (k + j)%nat /\
            forall q c0,
              (q < j)%nat -> (c :: s) !! q = Some c0 ->
              mem_char c0 opchars = true ->
              Ascii.eqb c0 "("%char = false -> Ascii.eqb c0 ")"%char = false ->
              depth_after d (take q (c :: s)) <> Some O
      | OptNull =>
          forall q c0,
            (q < Z.to_nat len - k)%nat -> (c :: s) !! q = Some c0 ->
            mem_char c0 opchars = true ->
            Ascii.eqb c0 "("%char = false -> Ascii.eqb c0 ")"%char = false ->
            depth_after d (take q (c :: s)) <> Some O
      | OptSentinel => depth_after d (take (Z.to_nat len - k) (c :: s)) <> Some O
      end).
    { intros d' res' Hhead Hstep Hk Hrest.
      destruct res' as [p| |].
      - destruct Hrest as (j & -> & Hrest). exists (S j). split; [lia|].
        intros [|q] c0 Hq Hc0 Hm H1 H2.
        + injection Hc0 as <-. simpl. intros [= ->]. by apply Hhead.
        + change (take (S q) (c :: s)) with (c :: take q s). rewrite Hstep.
          apply (Hrest q c0); [lia | done..].
      - replace (Z.to_nat len - k)%nat with (S (Z.to_nat len - S k)) by lia.
        change (take (S (Z.to_nat len - S k)) (c :: s))
          with (c :: take (Z.to_nat len - S k) s).
        by rewrite Hstep.
      - intros [|q] c0 Hq Hc0 Hm H1 H2.
        + injection Hc0 as <-. simpl. intros [= ->]. by apply Hhead.
        + change (take (S q) (c :: s)) with (c :: take q s). rewrite Hstep.
          apply (Hrest q c0); [lia | done..]. }
    destruct (mem_char c opchars) eqn:Hc.
    + destruct (Z.of_nat k <? len) eqn:Hk.
      * apply Z.ltb_lt in Hk.
        destruct (Ascii.eqb c "("%char) eqn:Hc1.
        { replace (Z.of_nat d + 1) with (Z.of_nat (S d)) in H by lia.
          apply IH in H. apply (Lift (S d)); [done | | done | done].
          intros t. simpl. by rewrite Hc1. }
        destruct (Ascii.eqb c ")"%char) eqn:Hc2.
        { destruct (Z.of_nat d - 1 <? 0) eqn:Hd.
          - munfold_in H. injection H as <- <-.
            apply Z.ltb_lt in Hd. assert (d = O) as -> by lia.
            replace (Z.to_nat len - k)%nat with (S (Z.to_nat len - S k)) by lia.
            simpl. by rewrite Hc1, Hc2.
          - apply Z.ltb_ge in Hd. destruct d as [|d]; [lia|].
            replace (Z.of_nat (S d) - 1) with (Z.of_nat d) in H by lia.
            apply IH in H. apply (Lift d); [done | | done | done].
            intros t. simpl. by rewrite Hc1, Hc2. }
        destruct (Z.of_nat d =? 0) eqn:Hd.
        { munfold_in H. injection H as <- <-. exists O. split; [lia|].
          intros q c0 Hq. lia. }
        apply Z.eqb_neq in Hd.
        apply IH in H. apply (Lift d); [lia | | done | done].
        intros t. simpl. by rewrite Hc1, Hc2.
      * apply Z.ltb_ge in Hk.
        assert (Z.to_nat len - k = 0)%nat as Hout by lia.
        pose proof (Finish d k (c :: s) log res H (or_introl Hout)) as HF.
        by destruct res.
    + destruct (not_opchar_not_paren _ _ Hopen Hclose Hc) as [Hc1 Hc2].
      pose proof (scan_span_spec _ len Hopen Hclose _ _ _ _ _ H) as Hspec.
      apply IH in H.
      destruct (decide (Z.of_nat k < len)) as [Hk|Hk].
      * apply (Lift d); [congruence | | done | done].
        intros t. simpl. by rewrite Hc1, Hc2.
      * destruct res as [p| |].
        -- destruct Hspec as (j & c0 & -> & Hlt & _). lia.
        -- replace (Z.to_nat len - k)%nat with O by lia.
           replace (Z.to_nat len - S k)%nat with O in H by lia.
           by rewrite take_0 in *.
        -- intros q c0 Hq. lia.
Qed.

Lemma operator_opchar type c :
  op_of_level type (parse_operator [c]) = true ->
  mem_char c (opchars_of type) = true /\
  Ascii.eqb c "("%char = false /\ Ascii.eqb c ")"%char = false.
Proof.
  unfold parse_operator. change (char_at [c] 0) with c.
  destruct (Ascii.eqb c "+"%char) eqn:E1;
    [apply Ascii.eqb_eq in E1 as ->; by destruct type|].
  destruct (Ascii.eqb c "-"%char) eqn:E2;
    [apply Ascii.eqb_eq in E2 as ->; by destruct type|].
  destruct (Ascii.eqb c "*"%char) eqn:E3;
    [apply Ascii.eqb_eq in E3 as ->; by destruct type|].
  destruct (Ascii.eqb c "/"%char) eqn:E4;
    [apply Ascii.eqb_eq in E4 as ->; by destruct type|].
  by destruct type.
Qed.

(** When the scanner returns the ["?"] literal, no operator of the span
    has had depth 0 in front of it. *)
Lemma scan_span_sentinel opchars len :
  mem_char "("%char opchars = true -> mem_char ")"%char opchars = true ->
  forall (s : list ascii) k d log,
    scan_span opchars len s k (Z.of_nat d) = (log, Some OptSentinel) ->
    forall q c,
      (q < Z.to_nat len - k)%nat -> s !! q = Some c ->
      mem_char c opchars = true ->
      Ascii.eqb c "("%char = false -> Ascii.eqb c ")"%char = false ->
      depth_after d (take q s) <> Some O.
Proof.
  intros Hopen Hclose.
  induction s as [|x s IH]; intros k d log H q c Hq Hc Hm H1 H2; [done|].
  simpl in H.
  destruct (mem_char x opchars) eqn:Hx.
  - destruct (Z.of_nat k <? len) eqn:Hk; [|apply Z.ltb_ge in Hk; lia].
    apply Z.ltb_lt in Hk.
    destruct (Ascii.eqb x "("%char) eqn:Hx1.
    { destruct q as [|q]; [injection Hc as <-; congruence|].
      replace (Z.of_nat d + 1) with (Z.of_nat (S d)) in H by lia.
      cbn [take depth_after]. rewrite Hx1.
      apply (IH _ _ _ H q c); [lia|done..]. }
    destruct (Ascii.eqb x ")"%char) eqn:Hx2.
    { destruct q as [|q]; [injection Hc as <-; congruence|].
      cbn [take depth_after]. rewrite Hx1, Hx2.
      destruct d as [|d]; [done|].
      destruct (Z.of_nat (S d) - 1 <? 0) eqn:Hd; [apply Z.ltb_lt in Hd; lia|].
      replace (Z.of_nat (S d) - 1) with (Z.of_nat d) in H by lia.
      apply (IH _ _ _ H q c); [lia|done..]. }
    destruct (Z.of_nat d =? 0) eqn:Hd; [munfold_in H; congruence|].
    apply Z.eqb_neq in Hd.
    destruct q as [|q]; [simpl; intros [= ->]; lia|].
    cbn [take depth_after]. rewrite Hx1, Hx2.
    apply (IH _ _ _ H q c); [lia|done..].
  - destruct (not_opchar_not_paren _ _ Hopen Hclose Hx) as [Hx1 Hx2].
    destruct q as [|q]; [injection Hc as <-; congruence|].
    cbn [take depth_after]. rewrite Hx1, Hx2.
    apply (IH _ _ _ H q c); [lia|done..].
Qed.

(** X3.  The contract of the scanner.  When it returns an offset, that
    offset lies in the span and holds the first operator of the level
    outside parentheses; when it returns NULL the span has balanced
    parentheses and no such operator; when it returns the ["?"] literal it
    has printed "Mismatched parentheses.", the span is unbalanced and has
    no such operator either: an imbalance behind a free operator is not
    the scanner's to report.  It prints nothing in the first two cases.
    The three cases exclude each other, so each holds exactly when the
    scanner gives that answer. *)
Theorem find_first_free_opt_contract (inp : list ascii) len type :
  match find_first_free_opt inp len (opchars_of type) with
  | (log, Some (OptAt p)) =>
      log = [] /\ Z.of_nat p < len /\
      free_operator type inp p /\
      forall q, (q < p)%nat -> ~ free_operator type inp q
  | (log, Some OptNull) =>
      log = [] /\ balanced (take (Z.to_nat len) inp) /\
      forall q, (q < Z.to_nat len)%nat -> ~ free_operator type inp q
  | (log, Some OptSentinel) =>
      log = [MismatchedParentheses] /\ ~ balanced (take (Z.to_nat len) inp) /\
      forall q, (q < Z.to_nat len)%nat -> ~ free_operator type inp q
  | (_, None) => False
  end.
Proof.
  rewrite find_first_free_opt_span.
  destruct (scan_span (opchars_of type) len inp 0 0) as [log res] eqn:Hscan.
  destruct (opchars_have_parens type) as [Hopen Hclose].
  pose proof (scan_span_spec _ len Hopen Hclose inp O O log res Hscan) as Hspec.
  destruct res as [res|]; [|done].
  pose proof (scan_span_first _ len Hopen Hclose inp O O log res Hscan) as Hfirst.
  pose proof (scan_span_quiet _ _ _ _ _ _ _ Hscan) as Hquiet.
  destruct res as [p| |].
  - destruct Hspec as (j & c & -> & Hp & Hpre & Hc & Hc1 & Hc2 & Hop).
    destruct Hfirst as (j' & Hj & Hfirst). simpl in *. subst j'.
    split; [by apply Hquiet|]. split; [done|]. split.
    + exists c. split; [done|]. split; [by apply opchar_operator | done].
    + intros q Hq (c' & Hc' & Hop' & Hbal).
      apply operator_opchar in Hop' as (Hm & H1 & H2).
      by apply (Hfirst q c').
  - split; [done|]. split; [by rewrite Nat.sub_0_r in Hfirst|].
    intros q Hq (c' & Hc' & Hop' & Hbal).
    apply operator_opchar in Hop' as (Hm & H1 & H2).
    apply (scan_span_sentinel _ len Hopen Hclose inp O O log Hscan q c');
      [lia|done..].
  - rewrite Nat.sub_0_r in Hspec, Hfirst.
    split; [by apply Hquiet|]. split; [done|].
    intros q Hq (c' & Hc' & Hop' & Hbal).
    apply operator_opchar in Hop' as (Hm & H1 & H2).
    by apply (Hfirst q c').
Qed.

(** ** Bytes behind the span, once more *)

(** X4.  Two buffers that hold the same [len] bytes, neither followed by
    a decimal digit, are parsed alike by [parse_expr], when the parse of
    one of them stays within defined behaviour (so the span has balanced
    parentheses and no roll with a modifier letter in front of its
    ['d']): then so does the parse of the other, with the same tree or
    the same failure, and the same messages. *)
Theorem parse_expr_depends_on_span_up_to_digit inp1 inp2 len type :
  take (Z.to_nat len) inp1 = take (Z.to_nat len) inp2 ->
  isdigit (char_at inp1 len) = false ->
  isdigit (char_at inp2 len) = false ->
  (parse_expr inp1 len type).2 <> None ->
  balanced (take (Z.to_nat len) inp1) /\
  (parse_expr inp2 len type).2 <> None /\
  parse_expr inp1 len type = parse_expr inp2 len type.
Proof.
  intros Hsame H1 H2 Hdef.
  pose proof (parse_expr_same_span inp1 inp2 len type Hsame H1 H2) as Heq.
  split; [|split; [by rewrite <- Heq | done]].
  destruct (decide (balanced (take (Z.to_nat len) inp1))) as [|Hunb]; [done|].
  by pose proof (parse_expr_unbalanced (Z.to_nat len) inp1 len type (le_n _) Hunb).
Qed.

Lemma parse_expr_depends_on_span_up_to_digit_witness :
  balanced (take (Z.to_nat 3) (cstr "2*3 4d6")) /\
  (parse_expr (cstr "2*3)+1") 3 A_OP).2 <> None /\
  parse_expr (cstr "2*3 4d6") 3 A_OP = parse_expr (cstr "2*3)+1") 3 A_OP.
Proof.
  apply (parse_expr_depends_on_span_up_to_digit (cstr "2*3 4d6") (cstr "2*3)+1") 3 A_OP).
  - reflexivity.
  - reflexivity.
  - reflexivity.
  - vm_compute. discriminate.
Defined.

(** X5.  The scanner, [parse_modifier] and [parse_roll] never look behind
    the span: they return for a buffer what they return for its first
    [len] bytes alone. *)
Theorem scanner_and_roll_parser_stay_in_span inp len opchars :
  find_first_free_opt (take (Z.to_nat len) inp) len opchars
    = find_first_free_opt inp len opchars /\
  parse_modifier (take (Z.to_nat len) inp) len = parse_modifier inp len /\
  parse_roll (take (Z.to_nat len) inp) len = parse_roll inp len.
Proof.
  split; [apply find_first_free_opt_take|].
  split; [by apply parse_modifier_take | apply parse_roll_take].
Qed.

(** ** What [parse_roll] makes of a span *)

Lemma strpbrk_no_char set s : no_char set s = true -> strpbrk s set = None.
Proof.
  induction s as [|c s IH]; simpl; [done|].
  intros H. apply andb_true_iff in H as [Hc Hs].
  apply negb_true_iff in Hc. rewrite Hc, IH by done. done.
Qed.

Lemma strpbrk_after_no_char set a c rest :
  no_char set a = true -> mem_char c set = true ->
  strpbrk (a ++ c :: rest) set = Some (length a).
Proof.
  intros Ha Hc. induction a as [|x a IH]; simpl.
  - by rewrite Hc.
  - simpl in Ha. apply andb_true_iff in Ha as [Hx Ha].
    apply negb_true_iff in Hx. rewrite Hx, IH by done. done.
Qed.

Lemma no_char_app set a b :
  no_char set (a ++ b) = no_char set a && no_char set b.
Proof. apply forallb_app. Qed.

Lemma no_char_weaken set set' s :
  (forall c, mem_char c set' = true -> mem_char c set = true) ->
  no_char set s = true -> no_char set' s = true.
Proof.
  intros Hsub. unfold no_char. rewrite !forallb_forall.
  intros H c Hc. specialize (H c Hc).
  apply negb_true_iff in H. apply negb_true_iff.
  destruct (mem_char c set') eqn:E; [|done]. apply Hsub in E. congruence.
Qed.

Lemma strspn_is_length s accept :
  (Z.of_nat (strspn s accept) =? strlen s)
  = forallb (fun c => mem_char c accept) s.
Proof.
  unfold strlen.
  assert (strspn s accept <= length s)%nat as Hle.
  { induction s as [|c s IH]; simpl; [done|]. destruct (mem_char c accept); lia. }
  assert (forallb (fun c => mem_char c accept) s
          = bool_decide (strspn s accept = length s)) as ->.
  { clear Hle. induction s as [|c s IH]; [done|].
    cbn [forallb strspn length].
    destruct (mem_char c accept); cbn [andb].
    - rewrite IH. apply bool_decide_ext. lia.
    - symmetry. apply bool_decide_eq_false. lia. }
  destruct (Z.of_nat (strspn s accept) =? Z.of_nat (length s)) eqn:E.
  - apply Z.eqb_eq in E. symmetry. apply bool_decide_eq_true. lia.
  - apply Z.eqb_neq in E. symmetry. apply bool_decide_eq_false. lia.
Qed.

Lemma strlen_is_zero s : (strlen s =? 0) = is_empty s.
Proof. by destruct s. Qed.

(** [parse_roll_consts] when the two constants are [a] and [b]. *)
Lemma parse_roll_consts_on a b rest len mod_chars rmod :
  len = Z.of_nat (length a + 1 + length b) + mod_chars ->
  parse_roll_consts (a ++ "d"%char :: b ++ rest) len (length a) mod_chars rmod
  = if is_empty a || is_empty b then ([EmptyConstant], Some None)
    else if forallb isdigit a && forallb isdigit b then
      ([], Some (Some (mkRollNode (atoi a) (atoi b) rmod)))
    else ([InvalidConstant], Some None).
Proof.
  intros ->. unfold parse_roll_consts.
  destruct (_ <? 0) eqn:E; [apply Z.ltb_lt in E; lia|].
  unfold strncpy.
  rewrite Nat2Z.id, take_app_length.
  assert (drop (length a + 1) (a ++ "d"%char :: b ++ rest) = b ++ rest) as ->.
  { replace (a ++ "d"%char :: b ++ rest) with ((a ++ ["d"%char]) ++ b ++ rest)
      by (by rewrite <- app_assoc).
    apply drop_app_length'. rewrite length_app. simpl. lia. }
  replace (Z.to_nat _) with (length b) by lia.
  rewrite take_app_length.
  rewrite !strlen_is_zero.
  destruct (is_empty a || is_empty b); [done|].
  rewrite !strspn_is_length. fold isdigit.
  change (fun c : ascii => mem_char c digits) with isdigit.
  rewrite <- negb_andb.
  by destruct (forallb isdigit a && forallb isdigit b).
Qed.

Lemma take_span (s tail : list ascii) :
  take (Z.to_nat (Z.of_nat (length s))) (s ++ tail) = s.
Proof. rewrite Nat2Z.id. apply take_app_length. Qed.

Lemma no_char_roll_head a b :
  no_char (cstr "cbvw") a = true -> no_char (cstr "cbvw") b = true ->
  no_char (cstr "cbvw") (a ++ "d"%char :: b) = true.
Proof.
  intros Ha Hb. rewrite no_char_app, Ha.
  change (no_char (cstr "cbvw") ("d"%char :: b))
    with (negb (mem_char "d"%char (cstr "cbvw")) && no_char (cstr "cbvw") b).
  by rewrite Hb.
Qed.

(** X6.  A span without a ['d'] is no roll: [parse_roll] reports
    "Garbled roll (no 'd' delimiter)." ("Missing Roll." when the span is
    empty) and returns NULL, whatever follows the span in the buffer. *)
Theorem parse_roll_needs_delimiter s tail :
  no_char ["d"%char] s = true ->
  parse_roll (s ++ tail) (Z.of_nat (length s))
  = if is_empty s then ([MissingRoll], Some None)
    else ([MissingDelimiter], Some None).
Proof.
  intros Hs. rewrite <- parse_roll_take, take_span.
  unfold parse_roll. destruct s as [|c s]; [done|].
  destruct (_ <=? 0) eqn:E; [apply Z.leb_le in E; simpl in E; lia|].
  unfold strchr. by rewrite strpbrk_no_char.
Qed.

Lemma parse_roll_needs_delimiter_witness :
  parse_roll (cstr "36" ++ cstr "d6") (Z.of_nat (length (cstr "36")))
  = if is_empty (cstr "36") then ([MissingRoll], Some None)
    else ([MissingDelimiter], Some None).
Proof.
  apply (parse_roll_needs_delimiter (cstr "36") (cstr "d6")). reflexivity.
Defined.

(** X7.  A span [a d b] without modifier letter, where [a] holds no
    ['d']: the roll parser fails with "Missing constant." when [a] or [b]
    is empty, with "Invalid constant." when one of them holds a non-digit,
    and otherwise returns the roll of [atoi a] dice with [atoi b] sides and
    no modifier.  What follows the span does not matter. *)
Theorem parse_roll_without_modifier a b tail :
  no_char (cstr "dcbvw") a = true ->
  no_char (cstr "cbvw") b = true ->
  parse_roll (a ++ "d"%char :: b ++ tail) (Z.of_nat (length a + 1 + length b))
  = if is_empty a || is_empty b then ([EmptyConstant], Some None)
    else if forallb isdigit a && forallb isdigit b then
      ([], Some (Some (mkRollNode (atoi a) (atoi b) None)))
    else ([InvalidConstant], Some None).
Proof.
  intros Ha Hb.
  assert (Ha_d : no_char ["d"%char] a = true).
  { eapply no_char_weaken; [|exact Ha]. intros c. unfold mem_char. simpl.
    rewrite !orb_true_iff. tauto. }
  assert (Ha_m : no_char (cstr "cbvw") a = true).
  { eapply no_char_weaken; [|exact Ha]. intros c. unfold mem_char. simpl.
    rewrite !orb_true_iff. tauto. }
  rewrite <- parse_roll_take.
  replace (a ++ "d"%char :: b ++ tail) with ((a ++ "d"%char :: b) ++ tail)
    by (by rewrite <- app_assoc).
  replace (length a + 1 + length b)%nat with (length (a ++ "d"%char :: b))
    by (rewrite length_app; simpl; lia).
  rewrite take_span. unfold parse_roll.
  destruct (_ <=? 0) eqn:E;
    [apply Z.leb_le in E; rewrite length_app in E; simpl in E; lia|].
  unfold strchr. rewrite strpbrk_after_no_char by done.
  destruct (Z.of_nat (length a) >=? _) eqn:E2.
  { rewrite Z.geb_leb in E2. apply Z.leb_le in E2.
    rewrite length_app in E2. simpl in E2. lia. }
  rewrite strpbrk_no_char by (by apply no_char_roll_head).
  rewrite <- (app_nil_r b) at 1.
  rewrite (parse_roll_consts_on a b [] _ 0 None); [done|].
  rewrite length_app. simpl. lia.
Qed.

Lemma parse_roll_without_modifier_witness :
  parse_roll (cstr "12" ++ "d"%char :: cstr "20" ++ cstr "+3")
    (Z.of_nat (length (cstr "12") + 1 + length (cstr "20")))
  = if is_empty (cstr "12") || is_empty (cstr "20") then ([EmptyConstant], Some None)
    else if forallb isdigit (cstr "12") && forallb isdigit (cstr "20") then
      ([], Some (Some (mkRollNode (atoi (cstr "12")) (atoi (cstr "20")) None)))
    else ([InvalidConstant], Some None).
Proof.
  apply (parse_roll_without_modifier (cstr "12") (cstr "20") (cstr "+3")).
  - reflexivity.
  - reflexivity.
Defined.

Lemma modifier_type_of_letter m ty :
  modifier_type_of m = Some ty -> mem_char m (cstr "cbvw") = true /\ ty <> NONE.
Proof.
  unfold modifier_type_of, mem_char. simpl.
  destruct (Ascii.eqb m "c"%char); [by intros [= <-]|].
  destruct (Ascii.eqb m "b"%char); [by intros [= <-]|].
  destruct (Ascii.eqb m "v"%char); [by intros [= <-]|].
  destruct (Ascii.eqb m "w"%char); [by intros [= <-]|].
  done.
Qed.

Lemma parse_modifier_on m ty k rest :
  modifier_type_of m = Some ty ->
  parse_modifier (m :: k ++ rest) (1 + Z.of_nat (length k))
  = if is_empty k then ([MissingModifierConstant], Some None)
    else ([], Some (Some (mkRollModifier ty (atoi k)))).
Proof.
  intros Hm. unfold parse_modifier.
  destruct (1 + Z.of_nat (length k) <=? 0) eqn:E; [apply Z.leb_le in E; lia|].
  change (char_at (m :: k ++ rest) 0) with m. rewrite Hm.
  destruct k as [|k0 k]; [done|].
  destruct (_ <? 2) eqn:E5; [apply Z.ltb_lt in E5; simpl in E5; lia|].
  change (drop 1 (m :: (k0 :: k) ++ rest)) with ((k0 :: k) ++ rest).
  unfold strncpy.
  replace (Z.to_nat (1 + Z.of_nat (length (k0 :: k)) - 1)) with (length (k0 :: k))
    by lia.
  by rewrite (take_app_length (k0 :: k) rest).
Qed.

(** X8.  A span [a d b m k] whose first modifier letter is [m]: when [k]
    is empty the roll parser fails with "Missing Modifier Constant.";
    otherwise the modifier is of the kind of [m] with the constant
    [atoi k], whatever characters [k] holds, and the constants [a] and [b]
    are checked as for a roll without modifier. *)
Theorem parse_roll_with_modifier a b m ty k tail :
  no_char (cstr "dcbvw") a = true ->
  no_char (cstr "cbvw") b = true ->
  modifier_type_of m = Some ty ->
  parse_roll (a ++ "d"%char :: b ++ m :: k ++ tail)
    (Z.of_nat (length a + 1 + length b + 1 + length k))
  = if is_empty k then ([MissingModifierConstant], Some None)
    else if is_empty a || is_empty b then ([EmptyConstant], Some None)
    else if forallb isdigit a && forallb isdigit b then
      ([], Some (Some (mkRollNode (atoi a) (atoi b)
                         (Some (mkRollModifier ty (atoi k))))))
    else ([InvalidConstant], Some None).
Proof.
  intros Ha Hb Hm.
  destruct (modifier_type_of_letter m ty Hm) as [Hletter _].
  assert (Ha_d : no_char ["d"%char] a = true).
  { eapply no_char_weaken; [|exact Ha]. intros c. unfold mem_char. simpl.
    rewrite !orb_true_iff. tauto. }
  assert (Ha_m : no_char (cstr "cbvw") a = true).
  { eapply no_char_weaken; [|exact Ha]. intros c. unfold mem_char. simpl.
    rewrite !orb_true_iff. tauto. }
  rewrite <- parse_roll_take.
  replace (a ++ "d"%char :: b ++ m :: k ++ tail)
    with ((a ++ "d"%char :: b ++ m :: k) ++ tail)
    by (rewrite <- !app_assoc; simpl; by rewrite <- !app_assoc).
  replace (length a + 1 + length b + 1 + length k)%nat
    with (length (a ++ "d"%char :: b ++ m :: k))
    by (rewrite !length_app; simpl; rewrite !length_app; simpl; lia).
  rewrite take_span. unfold parse_roll.
  set (len := Z.of_nat (length (a ++ "d"%char :: b ++ m :: k))).
  assert (Hlen : len = Z.of_nat (length a + 1 + length b) + (1 + Z.of_nat (length k))).
  { unfold len. rewrite !length_app. simpl. rewrite !length_app. simpl. lia. }
  destruct (len <=? 0) eqn:E; [apply Z.leb_le in E; lia|].
  unfold strchr. rewrite strpbrk_after_no_char by done.
  destruct (Z.of_nat (length a) >=? len) eqn:E2.
  { rewrite Z.geb_leb in E2. apply Z.leb_le in E2. lia. }
  replace (a ++ "d"%char :: b ++ m :: k) with ((a ++ "d"%char :: b) ++ m :: k)
    by (by rewrite <- app_assoc).
  rewrite (strpbrk_after_no_char (cstr "cbvw") (a ++ "d"%char :: b) m k);
    [|by apply no_char_roll_head|done].
  destruct (Z.of_nat (length (a ++ "d"%char :: b)) <? len) eqn:E3.
  2:{ apply Z.ltb_ge in E3. rewrite length_app in E3. simpl in E3. lia. }
  rewrite drop_app_length.
  replace (len - Z.of_nat (length (a ++ "d"%char :: b))) with (1 + Z.of_nat (length k))
    by (rewrite length_app; simpl; lia).
  pose proof (parse_modifier_on m ty k [] Hm) as Hmod.
  rewrite app_nil_r in Hmod. rewrite Hmod.
  destruct k as [|k0 k]; [done|].
  simpl is_empty. cbv iota. unfold bind.
  replace ((a ++ "d"%char :: b) ++ m :: k0 :: k)
    with (a ++ "d"%char :: b ++ m :: k0 :: k) by (by rewrite <- app_assoc).
  rewrite (parse_roll_consts_on a b (m :: k0 :: k) len _ _ Hlen).
  by destruct (is_empty a || is_empty b), (forallb isdigit a && forallb isdigit b).
Qed.

Lemma parse_roll_with_modifier_witness :
  parse_roll (cstr "4" ++ "d"%char :: cstr "6" ++ "c"%char :: cstr "2x" ++ cstr ")")
    (Z.of_nat (length (cstr "4") + 1 + length (cstr "6") + 1 + length (cstr "2x")))
  = if is_empty (cstr "2x") then ([MissingModifierConstant], Some None)
    else if is_empty (cstr "4") || is_empty (cstr "6") then ([EmptyConstant], Some None)
    else if forallb isdigit (cstr "4") && forallb isdigit (cstr "6") then
      ([], Some (Some (mkRollNode (atoi (cstr "4")) (atoi (cstr "6"))
                         (Some (mkRollModifier CHOOSE_HIGH (atoi (cstr "2x")))))))
    else ([InvalidConstant], Some None).
Proof.
  apply (parse_roll_with_modifier (cstr "4") (cstr "6") "c"%char CHOOSE_HIGH
           (cstr "2x") (cstr ")")).
  - reflexivity.
  - reflexivity.
  - reflexivity.
Defined.

(** ** Numbers and sums of two numbers, from text to value *)

Lemma scan_span_no_ops opchars len s k depth :
  no_char opchars s = true ->
  scan_span opchars len s k depth
  = if negb (depth =? 0) then
      print_error MismatchedParentheses >>> ret OptSentinel
    else ret OptNull.
Proof.
  revert k. induction s as [|c s IH]; intros k Hs; simpl; [done|].
  simpl in Hs. apply andb_true_iff in Hs as [Hc Hs]. apply negb_true_iff in Hc.
  rewrite Hc. by apply IH.
Qed.

Lemma scan_span_at_op opchars len a c rest k :
  no_char opchars a = true ->
  mem_char c opchars = true ->
  Ascii.eqb c "("%char = false -> Ascii.eqb c ")"%char = false ->
  Z.of_nat (k + length a) < len ->
  scan_span opchars len (a ++ c :: rest) k 0 = ret (OptAt (k + length a)).
Proof.
  revert k. induction a as [|x a IH]; intros k Ha Hc H1 H2 Hlen; simpl in *.
  - rewrite Hc, H1, H2.
    destruct (Z.of_nat k <? len) eqn:E; [|apply Z.ltb_ge in E; lia].
    by rewrite Nat.add_0_r.
  - apply andb_true_iff in Ha as [Hx Ha]. apply negb_true_iff in Hx.
    rewrite Hx, IH by (done || lia). do 2 f_equal. lia.
Qed.

Lemma digits_no_opchar type s :
  forallb isdigit s = true -> no_char (opchars_of type) s = true.
Proof.
  unfold no_char. rewrite !forallb_forall. intros H c Hc.
  specialize (H c Hc). apply negb_true_iff.
  destruct (mem_char c (opchars_of type)) eqn:E; [|done].
  apply opchar_not_digit in E. congruence.
Qed.

Lemma strspn_digits_app s tail :
  forallb isdigit s = true -> isdigit (char_at tail 0) = false ->
  strspn (s ++ tail) digits = length s.
Proof.
  intros Hs Htail. induction s as [|c s IH].
  - destruct tail as [|t tail]; [done|].
    change (char_at (t :: tail) 0) with t in Htail.
    unfold isdigit in Htail. cbn [app strspn length]. by rewrite Htail.
  - cbn [forallb] in Hs. apply andb_true_iff in Hs as [Hc Hs].
    unfold isdigit in Hc. cbn [app strspn length]. rewrite Hc.
    f_equal. by apply IH.
Qed.

Lemma find_first_free_opt_number type s tail :
  forallb isdigit s = true ->
  find_first_free_opt (s ++ tail) (Z.of_nat (length s)) (opchars_of type)
  = ([], Some OptNull).
Proof.
  intros Hs. rewrite <- find_first_free_opt_take, take_span.
  rewrite find_first_free_opt_span. rewrite scan_span_no_ops; [done|].
  by apply digits_no_opchar.
Qed.

(** A non-empty string of digits, not followed by a digit, as an object
    and as an expression of either level. *)
Lemma parse_obj_number s tail :
  s <> [] -> forallb isdigit s = true -> isdigit (char_at tail 0) = false ->
  parse_obj (s ++ tail) (Z.of_nat (length s))
  = ([], Some (Some (mkObjNode None (atoi s) None))).
Proof.
  intros Hne Hs Htail. rewrite parse_obj_eq. unfold parse_obj_body.
  destruct s as [|c s]; [done|].
  destruct (_ <=? 0) eqn:E; [apply Z.leb_le in E; simpl in E; lia|].
  change (char_at ((c :: s) ++ tail) 0) with c.
  pose proof Hs as Hc. simpl in Hc. apply andb_true_iff in Hc as [Hc _].
  destruct (Ascii.eqb c "("%char) eqn:Hopen.
  { apply Ascii.eqb_eq in Hopen. subst c. done. }
  rewrite strspn_digits_app by done.
  rewrite Z.eqb_refl. unfold strncpy. by rewrite take_span.
Qed.

Lemma parse_expr_number_M s tail :
  s <> [] -> forallb isdigit s = true -> isdigit (char_at tail 0) = false ->
  parse_expr (s ++ tail) (Z.of_nat (length s)) M_OP
  = ([], Some (Some (const_term (atoi s)))).
Proof.
  intros Hne Hs Htail. rewrite parse_expr_eq. unfold parse_expr_body.
  destruct (_ <=? 0) eqn:E; [apply Z.leb_le in E; destruct s; [done | simpl in E; lia]|].
  rewrite find_first_free_opt_number by done.
  unfold bind at 1. cbv beta iota.
  by rewrite parse_obj_number.
Qed.

Lemma parse_expr_number_A s tail :
  s <> [] -> forallb isdigit s = true -> isdigit (char_at tail 0) = false ->
  parse_expr (s ++ tail) (Z.of_nat (length s)) A_OP
  = ([], Some (Some (a_singlet (const_term (atoi s))))).
Proof.
  intros Hne Hs Htail. rewrite parse_expr_eq. unfold parse_expr_body.
  destruct (_ <=? 0) eqn:E; [apply Z.leb_le in E; destruct s; [done | simpl in E; lia]|].
  rewrite find_first_free_opt_number by done.
  unfold bind at 1. cbv beta iota.
  by rewrite parse_expr_number_M.
Qed.

(** X9.  A non-empty string of digits that is not followed by a digit
    parses, at either level, to the tree of the constant [atoi] gives for
    it, without any message, and that tree evaluates to the constant
    without drawing a random number. *)
Theorem number_parses_to_constant s tail :
  s <> [] -> forallb isdigit s = true -> isdigit (char_at tail 0) = false ->
  parse_expr (s ++ tail) (Z.of_nat (length s)) M_OP
    = ([], Some (Some (const_term (atoi s)))) /\
  parse_expr (s ++ tail) (Z.of_nat (length s)) A_OP
    = ([], Some (Some (a_singlet (const_term (atoi s))))) /\
  forall stack_junk rng,
    execute_expr stack_junk (a_singlet (const_term (atoi s))) rng
    = Returns (atoi s) rng.
Proof.
  intros Hne Hs Htail.
  split; [by apply parse_expr_number_M|].
  split; [by apply parse_expr_number_A|]. done.
Qed.

Lemma number_parses_to_constant_witness :
  parse_expr (cstr "42" ++ cstr " 7") (Z.of_nat (length (cstr "42"))) M_OP
    = ([], Some (Some (const_term (atoi (cstr "42"))))) /\
  parse_expr (cstr "42" ++ cstr " 7") (Z.of_nat (length (cstr "42"))) A_OP
    = ([], Some (Some (a_singlet (const_term (atoi (cstr "42")))))) /\
  forall stack_junk rng,
    execute_expr stack_junk (a_singlet (const_term (atoi (cstr "42")))) rng
    = Returns (atoi (cstr "42")) rng.
Proof.
  apply (number_parses_to_constant (cstr "42") (cstr " 7")).
  - discriminate.
  - reflexivity.
  - reflexivity.
Defined.


Lemma op_of_level_not_noop type o : op_of_level type o = true -> o <> NOOP.
Proof. by destruct type, o. Qed.

Lemma parse_operator_head c rest : parse_operator (c :: rest) = parse_operator [c].
Proof. done. Qed.

Lemma drop_past_operator (a : list ascii) c b :
  drop (length a + 1) (a ++ c :: b) = b.
Proof.
  replace (length a + 1)%nat with (length (a ++ [c])) by (rewrite length_app; simpl; lia).
  rewrite (cons_middle c a b), app_assoc. by rewrite drop_app_length.
Qed.

(** Two numbers around one operator of the level. *)
Lemma parse_expr_two_numbers type a c b :
  a <> [] -> b <> [] ->
  forallb isdigit a = true -> forallb isdigit b = true ->
  op_of_level type (parse_operator [c]) = true ->
  parse_expr (a ++ c :: b) (strlen (a ++ c :: b)) type
  = ([], Some (Some
      match type with
      | A_OP => a_node (const_term (atoi a)) (parse_operator [c])
                  (a_singlet (const_term (atoi b)))
      | M_OP => mkExprList None (Some (mkObjNode None (atoi a) None))
                  (parse_operator [c]) (Some (const_term (atoi b)))
      end)).
Proof.
  intros Ha Hb Da Db Hop.
  pose proof (op_of_level_not_noop _ _ Hop) as Hnoop.
  apply operator_opchar in Hop as (Hc & Hopen & Hclose).
  assert (Hcd : isdigit (char_at (c :: b) 0) = false)
    by (change (char_at (c :: b) 0) with c; by eapply opchar_not_digit).
  assert (Hlen : strlen (a ++ c :: b) = Z.of_nat (length a) + 1 + Z.of_nat (length b))
    by (unfold strlen; rewrite length_app; simpl; lia).
  assert (Hscan : find_first_free_opt (a ++ c :: b) (strlen (a ++ c :: b))
                    (opchars_of type) = ([], Some (OptAt (length a)))).
  { rewrite find_first_free_opt_span.
    rewrite (scan_span_at_op _ _ a c b 0); [done|by apply digits_no_opchar|done..|].
    rewrite Hlen. lia. }
  rewrite (parse_expr_found _ _ _ _ _ Hscan).
  rewrite drop_app_length, parse_operator_head, drop_past_operator.
  replace (strlen (a ++ c :: b) - (Z.of_nat (length a) + 1))
    with (Z.of_nat (length b)) by lia.
  pose proof (parse_obj_number a (c :: b) Ha Da Hcd) as Hobj.
  pose proof (parse_expr_number_M a (c :: b) Ha Da Hcd) as HlM.
  assert (Hnul : isdigit (char_at [] 0) = false) by done.
  pose proof (parse_expr_number_M b [] Hb Db Hnul) as HrM.
  pose proof (parse_expr_number_A b [] Hb Db Hnul) as HrA.
  rewrite app_nil_r in HrM, HrA.
  destruct type.
  - rewrite HlM, HrA. munfold. by rewrite bool_decide_false.
  - rewrite Hobj, HrM. munfold. by rewrite bool_decide_false.
Qed.


Lemma parse_expr_product_at_A a c b :
  a <> [] -> b <> [] ->
  forallb isdigit a = true -> forallb isdigit b = true ->
  op_of_level M_OP (parse_operator [c]) = true ->
  parse_expr (a ++ c :: b) (strlen (a ++ c :: b)) A_OP
  = ([], Some (Some (a_singlet
      (mkExprList None (Some (mkObjNode None (atoi a) None))
         (parse_operator [c]) (Some (const_term (atoi b))))))).
Proof.
  intros Ha Hb Da Db Hop.
  pose proof (parse_expr_two_numbers M_OP a c b Ha Hb Da Db Hop) as HM.
  assert (Hc : mem_char c (opchars_of A_OP) = false).
  { revert Hop. unfold parse_operator. change (char_at [c] 0) with c.
    destruct (Ascii.eqb c "+"%char) eqn:E1; [done|].
    destruct (Ascii.eqb c "-"%char) eqn:E2; [done|].
    destruct (Ascii.eqb c "*"%char) eqn:E3;
      [apply Ascii.eqb_eq in E3; by subst c|].
    destruct (Ascii.eqb c "/"%char) eqn:E4;
      [apply Ascii.eqb_eq in E4; by subst c|done]. }
  rewrite parse_expr_eq. unfold parse_expr_body.
  destruct (_ <=? 0) eqn:E;
    [apply Z.leb_le in E; unfold strlen in E; rewrite length_app in E; simpl in E; lia|].
  rewrite find_first_free_opt_span, scan_span_no_ops.
  2:{ rewrite no_char_app. cbn [no_char forallb]. rewrite Hc.
      fold (no_char (opchars_of A_OP) b).
      by rewrite !digits_no_opchar. }
  unfold bind at 1. cbv beta iota. cbn [negb Z.eqb ret].
  unfold bind at 1. cbv beta iota.
  by rewrite HM.
Qed.

(** X10.  A whole argument made of two numbers around one of [+ - * /]
    parses without a message, and its tree evaluates, drawing no random
    number, to what the C operator gives for the two [atoi] values: the
    32-bit sum, difference or product, or the truncating quotient, the
    process stopping on a zero divisor (and on [INT_MIN / -1]). *)
Theorem two_numbers_evaluate a c b :
  a <> [] -> b <> [] ->
  forallb isdigit a = true -> forallb isdigit b = true ->
  parse_operator [c] <> NOOP ->
  exists tree,
    parse_expr (a ++ c :: b) (strlen (a ++ c :: b)) A_OP
      = ([], Some (Some tree)) /\
    forall stack_junk rng,
      execute_expr stack_junk tree rng =
      match parse_operator [c] with
      | PLUS => Returns (int_add (atoi a) (atoi b)) rng
      | MINUS => Returns (int_sub (atoi a) (atoi b)) rng
      | TIMES => Returns (int_mul (atoi a) (atoi b)) rng
      | DIVIDE =>
          if (atoi b =? 0) || ((atoi a =? INT_MIN) && (atoi b =? -1))
          then Faults
          else Returns (Z.quot (atoi a) (atoi b)) rng
      | NOOP => Faults
      end.
Proof.
  intros Ha Hb Da Db Hop.
  destruct (parse_operator [c]) eqn:Eo; [done|..].
  - eexists. split.
    + rewrite (parse_expr_two_numbers A_OP a c b) by (done || by rewrite Eo).
      by rewrite Eo.
    + done.
  - eexists. split.
    + rewrite (parse_expr_two_numbers A_OP a c b) by (done || by rewrite Eo).
      by rewrite Eo.
    + done.
  - eexists. split.
    + rewrite (parse_expr_product_at_A a c b) by (done || by rewrite Eo).
      by rewrite Eo.
    + done.
  - eexists. split.
    + rewrite (parse_expr_product_at_A a c b) by (done || by rewrite Eo).
      by rewrite Eo.
    + intros junk rng. cbn. unfold ebind, int_div, eret, fault. cbn.
      rewrite !(bool_decide_true (NOOP = NOOP)) by done.
      by destruct ((atoi b =? 0) || ((atoi a =? INT_MIN) && (atoi b =? -1))).
Qed.

Lemma two_numbers_evaluate_witness :
  exists tree,
    parse_expr (cstr "7" ++ "/"%char :: cstr "0")
      (strlen (cstr "7" ++ "/"%char :: cstr "0")) A_OP
      = ([], Some (Some tree)) /\
    forall stack_junk rng,
      execute_expr stack_junk tree rng =
      match parse_operator ["/"%char] with
      | PLUS => Returns (int_add (atoi (cstr "7")) (atoi (cstr "0"))) rng
      | MINUS => Returns (int_sub (atoi (cstr "7")) (atoi (cstr "0"))) rng
      | TIMES => Returns (int_mul (atoi (cstr "7")) (atoi (cstr "0"))) rng
      | DIVIDE =>
          if (atoi (cstr "0") =? 0)
             || ((atoi (cstr "7") =? INT_MIN) && (atoi (cstr "0") =? -1))
          then Faults
          else Returns (Z.quot (atoi (cstr "7")) (atoi (cstr "0"))) rng
      | NOOP => Faults
      end.
Proof.
  apply (two_numbers_evaluate (cstr "7") "/"%char (cstr "0")).
  - discriminate.
  - discriminate.
  - reflexivity.
  - reflexivity.
  - discriminate.
Defined.


(** * Further properties of the evaluator *)

Lemma sum_Z_faces_low dieSides l :
  Forall (fun v => 1 <= v <= dieSides) l -> Z.of_nat (length l) <= sum_Z l.
Proof.
  induction 1 as [|v l Hv _ IH]; [done|].
  change (sum_Z (v :: l)) with (v + sum_Z l).
  rewrite length_cons. lia.
Qed.

Lemma basic_turn dieSides r :
  dieSides <> 0 ->
  forall i (rolls : list Z) rest,
    (let+ v := roll_die dieSides in eret (<[i := v]> rolls)) ([r] ++ rest)
    = Returns (<[i := die_value dieSides r]> rolls) rest.
Proof.
  intros Hs i rolls rest. unfold ebind. simpl. by rewrite roll_die_cons.
Qed.

Lemma execute_basic_roll_sum stack_junk dieCount dieSides raws rest :
  dieSides <> 0 ->
  dieCount = Z.of_nat (length raws) ->
  execute_basic_roll stack_junk dieCount dieSides (raws ++ rest)
  = Returns (int_wrap (sum_Z (map (die_value dieSides) raws))) rest.
Proof.
  intros Hs ->. unfold execute_basic_roll.
  destruct (_ <? 0) eqn:E; [apply Z.ltb_lt in E; lia|].
  rewrite Nat2Z.id.
  pose (items := map (fun r => ([r], die_value dieSides r)) raws).
  assert (Hlen : length raws = length items) by (unfold items; by rewrite length_map).
  assert (H1 : raws = concat (items.*1)).
  { unfold items. clear. induction raws as [|r raws IH]; [done|].
    simpl. by f_equal. }
  assert (H2 : map (die_value dieSides) raws = items.*2).
  { unfold items. clear. induction raws as [|r raws IH]; [done|].
    simpl. by f_equal. }
  rewrite H2. rewrite H1 at 3. rewrite Hlen.
  unfold ebind.
  rewrite (for_loop_fill_all stack_junk _ items rest).
  - unfold eret. f_equal. rewrite <- (length_fmap snd items). apply sum_up_all.
  - unfold items. apply Forall_forall. intros item Hitem.
    apply list_elem_of_fmap in Hitem as (r & -> & _).
    intros i rolls rest'. by apply basic_turn.
Qed.

(** X11.  A roll without modifier of [dieCount] dice draws exactly
    [dieCount] numbers and returns the 32-bit sum of their die values;
    for a positive number of sides, with [dieCount * dieSides] within
    [int], that is the plain sum, between [dieCount] and
    [dieCount * dieSides]. *)
Theorem basic_roll_sums_the_dice stack_junk dieCount dieSides raws rest :
  dieSides <> 0 ->
  dieCount = Z.of_nat (length raws) ->
  execute_basic_roll stack_junk dieCount dieSides (raws ++ rest)
    = Returns (int_wrap (sum_Z (map (die_value dieSides) raws))) rest /\
  (0 < dieSides -> dieCount * dieSides <= INT_MAX -> Forall (fun r => 0 <= r) raws ->
   int_wrap (sum_Z (map (die_value dieSides) raws))
     = sum_Z (map (die_value dieSides) raws) /\
   dieCount <= sum_Z (map (die_value dieSides) raws) <= dieCount * dieSides).
Proof.
  intros Hs Hc. split; [by apply execute_basic_roll_sum|].
  intros Hpos Hmax Hraws.
  destruct (decide (raws = [])) as [->|Hne].
  { simpl in Hc. subst dieCount. split; [reflexivity|simpl; lia]. }
  assert (Hn : 1 <= dieCount) by (subst dieCount; destruct raws; simpl in *; [done|lia]).
  assert (Hside : 0 < dieSides <= INT_MAX) by nia.
  assert (Hf : Forall (fun v => 1 <= v <= dieSides) (map (die_value dieSides) raws)).
  { apply Forall_fmap. eapply Forall_impl; [exact Hraws|].
    intros r Hr. simpl. by apply die_value_face. }
  pose proof (sum_Z_faces _ _ Hf) as Hhi.
  pose proof (sum_Z_faces_low _ _ Hf) as Hlo.
  rewrite length_map in Hhi, Hlo. rewrite <- Hc in Hhi, Hlo.
  split; [|lia].
  apply int_wrap_small. unfold in_int, INT_MIN, INT_MAX in *. lia.
Qed.

Lemma basic_roll_sums_the_dice_witness :
  execute_basic_roll (fun _ => 0) 2 6 ([7; 11] ++ [5])
    = Returns (int_wrap (sum_Z (map (die_value 6) [7; 11]))) [5] /\
  (0 < 6 -> 2 * 6 <= INT_MAX -> Forall (fun r => 0 <= r) [7; 11] ->
   int_wrap (sum_Z (map (die_value 6) [7; 11]))
     = sum_Z (map (die_value 6) [7; 11]) /\
   2 <= sum_Z (map (die_value 6) [7; 11]) <= 2 * 6).
Proof.
  apply (basic_roll_sums_the_dice (fun _ => 0) 2 6 [7; 11] [5]).
  - lia.
  - reflexivity.
Defined.


(** X12.  A roll of at least one die with zero sides stops the process at
    its first draw, whatever its modifier: [% dieSides] divides by zero. *)
Theorem zero_sided_die_faults stack_junk roll r rng :
  dieSides roll = 0 -> 1 <= dieCount roll -> roll_wf roll ->
  execute_roll stack_junk roll (r :: rng) = Faults.
Proof.
  destruct roll as [count sides rmod]. simpl. intros -> Hcount Hwf.
  assert (Hn : exists n, Z.to_nat count = S n) by (exists (Z.to_nat (count - 1)); lia).
  destruct Hn as [n Hn].
  assert (Hneg : (count <? 0) = false) by (apply Z.ltb_ge; lia).
  unfold execute_roll, roll_wf in *. simpl in *.
  destruct rmod as [[ty k]|]; simpl in *.
  - destruct ty; [done|..].
    + unfold execute_choose_n_roll. destruct (k <? 0); [done|].
      by rewrite Hn.
    + unfold execute_choose_n_roll. destruct (k <? 0); [done|].
      by rewrite Hn.
    + unfold execute_reroll_below_roll. by rewrite Hneg, Hn.
    + unfold execute_exploding_roll. by rewrite Hneg, Hn.
  - unfold execute_basic_roll. by rewrite Hneg, Hn.
Qed.

Lemma zero_sided_die_faults_witness :
  execute_roll (fun _ => 0) (mkRollNode 2 0 (Some (mkRollModifier REROLL_BELOW 1)))
    (5 :: [6; 7]) = Faults.
Proof.
  apply (zero_sided_die_faults (fun _ => 0)
           (mkRollNode 2 0 (Some (mkRollModifier REROLL_BELOW 1))) 5 [6; 7]).
  - reflexivity.
  - simpl. lia.
  - unfold roll_wf. simpl. discriminate.
Defined.

Lemma reroll_while_starves dieSides rerollThresh rng :
  0 < dieSides <= INT_MAX -> dieSides <= rerollThresh ->
  Forall (fun r => 0 <= r) rng ->
  forall roll, roll <= rerollThresh ->
    reroll_while (length rng) dieSides rerollThresh roll rng = Starved.
Proof.
  intros Hs Ht. induction 1 as [|r rng Hr _ IH]; intros roll Hroll; simpl.
  - destruct (roll <=? rerollThresh) eqn:E; [done|apply Z.leb_gt in E; lia].
  - destruct (roll <=? rerollThresh) eqn:E; [|apply Z.leb_gt in E; lia].
    unfold ebind. rewrite roll_die_cons by lia. apply IH.
    pose proof (die_value_face dieSides r Hs Hr). lia.
Qed.

(** X13.  With a threshold at or above the number of sides no die value
    is ever kept: a reroll-below roll of at least one die asks for another
    number after every one it is given, whatever non-negative numbers
    [random()] returns. *)
Theorem reroll_below_all_faces_never_ends stack_junk dieCount dieSides rerollThresh rng :
  1 <= dieCount -> 0 < dieSides <= INT_MAX -> dieSides <= rerollThresh ->
  Forall (fun r => 0 <= r) rng ->
  execute_reroll_below_roll stack_junk dieCount dieSides rerollThresh rng = Starved.
Proof.
  intros Hcount Hs Ht Hrng. unfold execute_reroll_below_roll.
  destruct (_ <? 0) eqn:E; [apply Z.ltb_lt in E; lia|].
  assert (Hn : exists n, Z.to_nat dieCount = S n)
    by (exists (Z.to_nat (dieCount - 1)); lia).
  destruct Hn as [n ->]. cbn [for_loop]. unfold ebind at 1 2 3 4.
  destruct Hrng as [|r rng Hr Hrng]; [done|].
  rewrite roll_die_cons by lia. unfold with_supply.
  rewrite reroll_while_starves; [done..|].
  pose proof (die_value_face dieSides r Hs Hr). lia.
Qed.

Lemma reroll_below_all_faces_never_ends_witness :
  execute_reroll_below_roll (fun _ => 0) 1 6 6 [3; 8; 0; 5] = Starved.
Proof.
  apply (reroll_below_all_faces_never_ends (fun _ => 0) 1 6 6 [3; 8; 0; 5]).
  - lia.
  - unfold INT_MAX. lia.
  - lia.
  - repeat constructor; lia.
Defined.

Lemma explode_while_starves dieSides explodeThresh rng :
  0 < dieSides <= INT_MAX -> explodeThresh <= 1 ->
  Forall (fun r => 0 <= r) rng ->
  forall roll rollTotal, 1 <= roll ->
    explode_while (length rng) dieSides explodeThresh roll rollTotal rng = Starved.
Proof.
  intros Hs Ht. induction 1 as [|r rng Hr _ IH]; intros roll total Hroll; simpl.
  - destruct (roll >=? explodeThresh) eqn:E; [done|].
    rewrite Z.geb_leb in E. apply Z.leb_gt in E. lia.
  - destruct (roll >=? explodeThresh) eqn:E;
      [|rewrite Z.geb_leb in E; apply Z.leb_gt in E; lia].
    unfold ebind. rewrite roll_die_cons by lia. apply IH.
    pose proof (die_value_face dieSides r Hs Hr). lia.
Qed.

(** X14.  With a threshold of 1 or less every die value explodes: an
    exploding roll of at least one die asks for another number after
    every one it is given, whatever non-negative numbers [random()]
    returns. *)
Theorem exploding_on_every_face_never_ends stack_junk dieCount dieSides explodeThresh rng :
  1 <= dieCount -> 0 < dieSides <= INT_MAX -> explodeThresh <= 1 ->
  Forall (fun r => 0 <= r) rng ->
  execute_exploding_roll stack_junk dieCount dieSides explodeThresh rng = Starved.
Proof.
  intros Hcount Hs Ht Hrng. unfold execute_exploding_roll.
  destruct (_ <? 0) eqn:E; [apply Z.ltb_lt in E; lia|].
  assert (Hn : exists n, Z.to_nat dieCount = S n)
    by (exists (Z.to_nat (dieCount - 1)); lia).
  destruct Hn as [n ->]. cbn [for_loop]. unfold ebind at 1 2 3 4.
  destruct Hrng as [|r rng Hr Hrng]; [done|].
  rewrite roll_die_cons by lia. unfold with_supply.
  rewrite explode_while_starves; [done..|].
  pose proof (die_value_face dieSides r Hs Hr). lia.
Qed.

Lemma exploding_on_every_face_never_ends_witness :
  execute_exploding_roll (fun _ => 0) 1 6 1 [3; 8; 0; 5] = Starved.
Proof.
  apply (exploding_on_every_face_never_ends (fun _ => 0) 1 6 1 [3; 8; 0; 5]).
  - lia.
  - unfold INT_MAX. lia.
  - lia.
  - repeat constructor; lia.
Defined.


Lemma choose_fill_loop dieSides (n : nat) comp raws rest :
  dieSides <> 0 ->
  forall (k i : nat) (rolls : list Z),
    (k + length raws <= n)%nat -> (n < length rolls)%nat ->
    for_loop (length raws) i
      (fun _ '(rolls, chosen) =>
         let+ roll := roll_die dieSides in
         if chosen <? Z.of_nat n then
           eret (<[Z.to_nat chosen := roll]> rolls, chosen + 1)
         else
           eret (qsort comp (<[n := roll]> rolls), chosen))
      (rolls, Z.of_nat k) (raws ++ rest)
    = Returns (take k rolls ++ map (die_value dieSides) raws
                 ++ drop (k + length raws) rolls,
               Z.of_nat (k + length raws)) rest.
Proof.
  intros Hs. induction raws as [|r raws IH]; intros k i rolls Hk Hlen.
  - simpl. unfold eret. rewrite Nat.add_0_r, take_drop. done.
  - simpl in Hk. cbn [length for_loop app]. unfold ebind at 1 2.
    rewrite roll_die_cons by done.
    destruct (Z.of_nat k <? Z.of_nat n) eqn:E; [|apply Z.ltb_ge in E; lia].
    unfold eret at 1. rewrite !Nat2Z.id.
    replace (Z.of_nat k + 1) with (Z.of_nat (S k)) by lia.
    rewrite IH by (rewrite ?length_insert; lia).
    f_equal. f_equal; [|lia].
    + rewrite (insert_take_drop rolls k) by lia.
      assert (Hk' : length (take k rolls) = k) by (rewrite length_take; lia).
      replace (S k) with (length (take k rolls) + 1)%nat at 1 by lia.
      rewrite take_app_add' by done.
      replace (S k + length raws)%nat
        with (length (take k rolls) + S (length raws))%nat by lia.
      rewrite drop_app_add' by done.
      cbn [take drop fmap list_fmap map]. rewrite take_0, drop_drop, <- app_assoc.
      f_equal. cbn [app]. f_equal. f_equal. f_equal. lia.
Qed.

Lemma drop_STACK_ALLOC stack_junk n k :
  0 <= n -> (k <= Z.to_nat n)%nat ->
  drop k (STACK_ALLOC stack_junk n) = map stack_junk (seq k (Z.to_nat n - k)).
Proof.
  intros Hn Hk. unfold STACK_ALLOC.
  rewrite <- fmap_drop. f_equal.
  replace (Z.to_nat n) with (k + (Z.to_nat n - k))%nat at 1 by lia.
  rewrite seq_app, drop_app_length'; [done|by rewrite length_seq].
Qed.

(** X15.  When fewer dice are rolled than are to be chosen, a choose roll
    never sorts: under either comparator it returns the 32-bit sum of all
    the die values and of the slots of [rolls] that no die has filled,
    which hold what the stack held. *)
Theorem choose_more_than_rolled_adds_unset_slots
    stack_junk dieCount dieSides nChoose comp raws rest :
  dieSides <> 0 ->
  dieCount = Z.of_nat (length raws) ->
  dieCount < nChoose ->
  execute_choose_n_roll stack_junk dieCount dieSides nChoose comp (raws ++ rest)
  = Returns
      (int_wrap (sum_Z (map (die_value dieSides) raws)
                 + sum_Z (map stack_junk
                            (seq (length raws) (Z.to_nat nChoose - length raws)))))
      rest.
Proof.
  intros Hs -> Hlt. unfold execute_choose_n_roll.
  destruct (nChoose <? 0) eqn:E; [apply Z.ltb_lt in E; lia|].
  rewrite Nat2Z.id. unfold ebind at 1.
  pose proof (choose_fill_loop dieSides (Z.to_nat nChoose) comp raws rest Hs
                O O (STACK_ALLOC stack_junk (nChoose + 1))) as Hloop.
  rewrite Z2Nat.id in Hloop by lia.
  change (Z.of_nat 0) with 0 in Hloop.
  rewrite Hloop by (rewrite ?STACK_ALLOC_length; lia).
  unfold eret. f_equal.
  rewrite sum_up_take by lia. f_equal.
  rewrite take_0, app_nil_l, Nat.add_0_l.
  rewrite drop_STACK_ALLOC by lia.
  replace (Z.to_nat nChoose)
    with (length (map (die_value dieSides) raws) + (Z.to_nat nChoose - length raws))%nat
    at 1 by (rewrite length_map; lia).
  rewrite take_app_add' by done.
  rewrite <- fmap_take.
  replace (Z.to_nat (nChoose + 1) - length raws)%nat
    with ((Z.to_nat nChoose - length raws) + 1)%nat by lia.
  rewrite seq_app, take_app_length' by (by rewrite length_seq).
  clear. induction (map (die_value dieSides) raws) as [|v l IH]; [done|].
  simpl. change (sum_Z (v :: ?x)) with (v + sum_Z x). rewrite IH.
  change (sum_Z (v :: l)) with (v + sum_Z l). lia.
Qed.

Lemma choose_more_than_rolled_adds_unset_slots_witness :
  execute_choose_n_roll (fun k => Z.of_nat k * 100) 2 6 4 compare_roll_low
    ([7; 11] ++ [5])
  = Returns
      (int_wrap (sum_Z (map (die_value 6) [7; 11])
                 + sum_Z (map (fun k => Z.of_nat k * 100)
                            (seq (length [7; 11]) (Z.to_nat 4 - length [7; 11])))))
      [5].
Proof.
  apply (choose_more_than_rolled_adds_unset_slots
           (fun k => Z.of_nat k * 100) 2 6 4 compare_roll_low [7; 11] [5]).
  - lia.
  - reflexivity.
  - lia.
Defined.


(** ** Parentheses *)

(** Inside an open parenthesis the scanner passes over a stretch whose own
    parentheses never close more than they open. *)
Lemma scan_span_inside opchars len :
  mem_char "("%char opchars = true -> mem_char ")"%char opchars = true ->
  forall (s rest : list ascii) k d e,
    depth_after d s = Some e ->
    Z.of_nat (k + length s) <= len ->
    scan_span opchars len (s ++ rest) k (Z.of_nat (S d))
    = scan_span opchars len rest (k + length s) (Z.of_nat (S e)).
Proof.
  intros Hopen Hclose.
  induction s as [|c s IH]; intros rest k d e Hd Hlen.
  - simpl in *. injection Hd as <-. by rewrite Nat.add_0_r.
  - cbn [app scan_span length] in *.
    replace (k + S (length s))%nat with (S k + length s)%nat in * by lia.
    simpl in Hd.
    destruct (Ascii.eqb c "("%char) eqn:E1.
    { apply Ascii.eqb_eq in E1. subst c. rewrite Hopen.
      destruct (Z.of_nat k <? len) eqn:E; [|apply Z.ltb_ge in E; lia].
      replace (Z.of_nat (S d) + 1) with (Z.of_nat (S (S d))) by lia.
      by apply IH. }
    destruct (Ascii.eqb c ")"%char) eqn:E2.
    { apply Ascii.eqb_eq in E2. subst c. rewrite Hclose.
      destruct (Z.of_nat k <? len) eqn:E; [|apply Z.ltb_ge in E; lia].
      destruct d as [|d]; [done|].
      destruct (Z.of_nat (S (S d)) - 1 <? 0) eqn:E3; [apply Z.ltb_lt in E3; lia|].
      replace (Z.of_nat (S (S d)) - 1) with (Z.of_nat (S d)) by lia.
      by apply IH. }
    destruct (mem_char c opchars); [|by apply IH].
    destruct (Z.of_nat k <? len) eqn:E; [|apply Z.ltb_ge in E; lia].
    destruct (Z.of_nat (S d) =? 0) eqn:E3; [apply Z.eqb_eq in E3; lia|].
    by apply IH.
Qed.

Lemma find_first_free_opt_parenthesised type (s tail : list ascii) :
  balanced s ->
  find_first_free_opt ("("%char :: s ++ ")"%char :: tail)
    (Z.of_nat (length s) + 2) (opchars_of type)
  = ([], Some OptNull).
Proof.
  intros Hs. destruct (opchars_have_parens type) as [Hopen Hclose].
  rewrite find_first_free_opt_span. cbn [scan_span]. rewrite Hopen.
  destruct (Z.of_nat 0 <? _) eqn:E; [|apply Z.ltb_ge in E; lia].
  change (Ascii.eqb "(" "(") with true. cbv iota.
  change (0 + 1) with (Z.of_nat 1).
  rewrite (scan_span_inside _ _ Hopen Hclose s _ 1 O O Hs) by lia.
  cbn [scan_span]. rewrite Hclose.
  destruct (Z.of_nat (1 + length s) <? _) eqn:E'; [|apply Z.ltb_ge in E'; lia].
  change (Ascii.eqb ")" "(") with false. change (Ascii.eqb ")" ")") with true.
  cbv iota. change (Z.of_nat 1 - 1) with 0. change (0 <? 0) with false. cbv iota.
  rewrite scan_span_outside by lia. done.
Qed.

Lemma parsed_is_balanced (s : list ascii) type log t :
  parse_expr s (strlen s) type = (log, Some (Some t)) -> balanced s.
Proof.
  intros Hp. unfold balanced.
  destruct (decide (depth_after 0 s = Some O)) as [|Hn]; [done|].
  pose proof (parse_expr_unbalanced (Z.to_nat (strlen s)) s (strlen s) type
                ltac:(lia)) as H.
  unfold strlen in H. rewrite Nat2Z.id, firstn_all in H.
  specialize (H Hn). unfold strlen in Hp. by rewrite Hp in H.
Qed.

Lemma parse_obj_parenthesised (s tail : list ascii) t :
  parse_expr s (strlen s) A_OP = ([], Some (Some t)) ->
  parse_obj ("("%char :: s ++ ")"%char :: tail) (strlen s + 2)
  = ([], Some (Some (mkObjNode None 0 (Some t)))).
Proof.
  intros Hp. rewrite parse_obj_eq. unfold parse_obj_body, strlen in *.
  destruct (_ <=? 0) eqn:E; [apply Z.leb_le in E; lia|].
  change (char_at ("("%char :: s ++ ")"%char :: tail) 0) with "("%char.
  change (Ascii.eqb "(" "(") with true. cbv iota.
  assert (Hlast : char_at ("("%char :: s ++ ")"%char :: tail)
                    (Z.of_nat (length s) + 2 - 1) = ")"%char).
  { rewrite char_at_lookup by lia.
    replace (Z.to_nat (Z.of_nat (length s) + 2 - 1)) with (S (length s)) by lia.
    rewrite app_comm_cons.
    by rewrite (list_lookup_middle ("("%char :: s) tail ")"%char (S (length s))). }
  rewrite Hlast. change (Ascii.eqb ")" ")") with true. cbn [negb drop].
  replace (Z.of_nat (length s) + 2 - 2) with (Z.of_nat (length s)) by lia.
  rewrite (parse_expr_same_span (s ++ ")"%char :: tail) s).
  - by rewrite Hp.
  - by rewrite take_span, Nat2Z.id, firstn_all.
  - rewrite char_at_lookup by lia. rewrite Nat2Z.id.
    by rewrite (list_lookup_middle s tail ")"%char (length s)).
  - rewrite char_at_lookup by lia. rewrite Nat2Z.id.
    by rewrite lookup_ge_None_2.
Qed.

(** X16.  Parentheses around an expression that parses give, at either
    level and whatever follows the closing parenthesis, an object that
    holds the tree of the expression, without any message; running it is
    running the expression. *)
Theorem parentheses_keep_the_value (s tail : list ascii) t :
  parse_expr s (strlen s) A_OP = ([], Some (Some t)) ->
  let inner := mkExprList None (Some (mkObjNode None 0 (Some t))) NOOP None in
  parse_expr ("("%char :: s ++ ")"%char :: tail) (strlen s + 2) M_OP
    = ([], Some (Some inner)) /\
  parse_expr ("("%char :: s ++ ")"%char :: tail) (strlen s + 2) A_OP
    = ([], Some (Some (a_singlet inner))) /\
  forall stack_junk rng,
    execute_expr stack_junk inner rng = execute_expr stack_junk t rng /\
    execute_expr stack_junk (a_singlet inner) rng = execute_expr stack_junk t rng.
Proof.
  intros Hp inner.
  pose proof (parsed_is_balanced _ _ _ _ Hp) as Hbal.
  pose proof (parse_obj_parenthesised s tail t Hp) as Hobj.
  assert (HM : parse_expr ("("%char :: s ++ ")"%char :: tail) (strlen s + 2) M_OP
               = ([], Some (Some inner))).
  { rewrite parse_expr_eq. unfold parse_expr_body.
    destruct (_ <=? 0) eqn:E; [apply Z.leb_le in E; unfold strlen in E; lia|].
    unfold strlen at 1. rewrite find_first_free_opt_parenthesised by done.
    unfold bind at 1. cbv beta iota. by rewrite Hobj. }
  split; [done|]. split.
  - rewrite parse_expr_eq. unfold parse_expr_body.
    destruct (_ <=? 0) eqn:E; [apply Z.leb_le in E; unfold strlen in E; lia|].
    unfold strlen at 1. rewrite find_first_free_opt_parenthesised by done.
    unfold bind at 1. cbv beta iota. by rewrite HM.
  - intros junk rng. unfold inner, a_singlet. cbn. unfold ebind.
    rewrite !(bool_decide_true (NOOP = NOOP)) by done. unfold eret.
    by destruct (execute_expr junk t rng).
Qed.

Lemma parentheses_keep_the_value_witness :
  let inner :=
    mkExprList None
      (Some (mkObjNode None 0
               (Some (a_node (const_term 2) PLUS (a_singlet (const_term 3))))))
      NOOP None in
  parse_expr ("("%char :: cstr "2+3" ++ ")"%char :: cstr "*4")
    (strlen (cstr "2+3") + 2) M_OP
    = ([], Some (Some inner)) /\
  parse_expr ("("%char :: cstr "2+3" ++ ")"%char :: cstr "*4")
    (strlen (cstr "2+3") + 2) A_OP
    = ([], Some (Some (a_singlet inner))) /\
  forall stack_junk rng,
    execute_expr stack_junk inner rng
      = execute_expr stack_junk
          (a_node (const_term 2) PLUS (a_singlet (const_term 3))) rng /\
    execute_expr stack_junk (a_singlet inner) rng
      = execute_expr stack_junk
          (a_node (const_term 2) PLUS (a_singlet (const_term 3))) rng.
Proof.
  apply (parentheses_keep_the_value (cstr "2+3") (cstr "*4")
           (a_node (const_term 2) PLUS (a_singlet (const_term 3)))).
  vm_compute. reflexivity.
Defined.


(** * Properties of the command line and of the interactive mode *)

Lemma has_flag_snoc f flags (arg : cstring) :
  has_flag f (flags ++ [arg]) = has_flag f flags || strcmp_eq arg (cstr f).
Proof.
  unfold has_flag, strcmp_eq.
  destruct (decide (cstr f ∈ flags)) as [Hin|Hin];
    destruct (decide (arg = cstr f)) as [Heq|Hne].
  - rewrite !bool_decide_true; [done..|]. apply elem_of_app. by left.
  - rewrite (bool_decide_true (cstr f ∈ flags ++ [arg])), (bool_decide_true (_ ∈ flags));
      [done..|]. apply elem_of_app. by left.
  - rewrite (bool_decide_true (cstr f ∈ flags ++ [arg])), (bool_decide_false (_ ∈ flags)),
      bool_decide_true; [done..|]. apply elem_of_app. right. subst. by left.
  - rewrite (bool_decide_false (cstr f ∈ flags ++ [arg])), (bool_decide_false (_ ∈ flags)),
      bool_decide_false; [done..|].
    intros [H|H]%elem_of_app; [done|]. apply list_elem_of_singleton in H. congruence.
Qed.

(** What [parse_options] makes of the leading flags [flags]. *)
Lemma parse_options_end_flags flags :
  parse_options_end (1 + Z.of_nat (length flags)) (has_flag "-v" flags)
    (has_flag "-q" flags) (mkConfigOptions VER_DEFAULT (flags_mode flags) 0)
  = mkConfigOptions (flags_verbosity flags) (flags_mode flags)
      (Z.of_nat (length flags)).
Proof.
  unfold parse_options_end, flags_verbosity.
  replace (1 + Z.of_nat (length flags) - 1) with (Z.of_nat (length flags)) by lia.
  by destruct (has_flag "-v" flags), (has_flag "-q" flags).
Qed.

Lemma parse_options_loop_flags args : forall seen rng,
  has_flag "-help" seen = false ->
  parse_options_loop args (1 + Z.of_nat (length seen)) (has_flag "-v" seen)
    (has_flag "-q" seen) (mkConfigOptions VER_DEFAULT (flags_mode seen) 0) rng
  = let flags := seen ++ leading_flags args in
    if negb (has_flag "-help" flags) then
      ([], Returns (mkConfigOptions (flags_verbosity flags) (flags_mode flags)
                      (Z.of_nat (length flags))) rng)
    else if bool_decide (head flags = Some (cstr "-help")) then
      ([], Returns (mkConfigOptions VER_DEFAULT MODE_HELP 0) rng)
    else ([UsageText], Faults).
Proof.
  induction args as [|arg args IH]; intros seen rng Hseen; cbn zeta.
  - cbn [leading_flags parse_options_loop]. rewrite app_nil_r, Hseen. cbn [negb].
    unfold pret. by rewrite parse_options_end_flags.
  - cbn [leading_flags parse_options_loop]. fold (is_flag arg).
    destruct (is_flag arg) eqn:Hflag.
    2:{ rewrite app_nil_r, Hseen. cbn [negb].
        unfold pret. by rewrite parse_options_end_flags. }
    destruct (strcmp_eq arg (cstr "-help")) eqn:Hhelp.
    + apply bool_decide_eq_true in Hhelp. subst arg.
      assert (Hin : has_flag "-help" (seen ++ cstr "-help" :: leading_flags args) = true).
      { apply bool_decide_eq_true, elem_of_app. right. by left. }
      rewrite Hin. cbn [negb].
      destruct seen as [|s0 seen].
      * done.
      * destruct (1 + Z.of_nat (length (s0 :: seen)) =? 1) eqn:E;
          [apply Z.eqb_eq in E; simpl in E; lia|].
        rewrite bool_decide_false; [done|].
        cbn. intros [= ->]. apply bool_decide_eq_false in Hseen.
        apply Hseen. by left.
    + specialize (IH (seen ++ [arg]) rng).
      rewrite <- app_assoc in IH. cbn [app] in IH. cbn zeta in IH.
      rewrite <- IH.
      * rewrite length_app. cbn [length].
        replace (1 + Z.of_nat (length seen + 1)) with (1 + Z.of_nat (length seen) + 1)
          by lia.
        rewrite !has_flag_snoc. unfold flags_mode. rewrite has_flag_snoc.
        f_equal.
        -- by destruct (has_flag "-v" seen), (strcmp_eq arg (cstr "-v")).
        -- by destruct (has_flag "-q" seen), (strcmp_eq arg (cstr "-q")).
        -- by destruct (strcmp_eq arg (cstr "-i")), (has_flag "-i" seen).
      * by rewrite has_flag_snoc, Hseen, Hhelp.
Qed.

(** X17.  [parse_options] reads the arguments up to the first one that
    does not start with a dash, in any order and ignoring those it does
    not know.  Without [-help] among them it counts them all, is verbose
    or quiet when just one of [-v] and [-q] is there and default when
    both or none are, and interactive when [-i] is there.  [-help] in
    first place gives the help mode with a count of 0; [-help] further on
    prints the usage text and stops. *)
Theorem parse_options_reads_leading_flags argv rng :
  let flags := leading_flags (drop 1 argv) in
  parse_options argv rng =
    if negb (has_flag "-help" flags) then
      ([], Returns (mkConfigOptions (flags_verbosity flags) (flags_mode flags)
                      (Z.of_nat (length flags))) rng)
    else if bool_decide (head flags = Some (cstr "-help")) then
      ([], Returns (mkConfigOptions VER_DEFAULT MODE_HELP 0) rng)
    else ([UsageText], Faults).
Proof.
  unfold parse_options.
  exact (parse_options_loop_flags (drop 1 argv) [] rng eq_refl).
Qed.








Lemma strcspn_length s reject : (strcspn s reject <= length s)%nat.
Proof.
  induction s as [|c s IH]; simpl; [done|].
  destruct (mem_char c reject); lia.
Qed.

(** The turns handed to the loop over a line are enough for any line. *)
Lemma interactive_rolls_enough stack_junk verbose quiet turns :
  forall turns' i (cur : list ascii) rng,
    (length cur <= turns)%nat -> (length cur <= turns')%nat ->
    interactive_rolls stack_junk turns verbose quiet i cur rng
    = interactive_rolls stack_junk turns' verbose quiet i cur rng.
Proof.
  induction turns as [|turns IH]; intros turns' i cur rng H1 H2.
  - destruct cur; [by destruct turns'|simpl in H1; lia].
  - destruct cur as [|c cur]; [by destruct turns'|].
    destruct turns' as [|turns']; [simpl in H2; lia|].
    cbn [interactive_rolls]. unfold pbind.
    destruct (roll_turn _ _ _ _ _ _ _) as [out [[] rng'| |]]; [|done..].
    set (n := strcspn (c :: cur) _).
    assert (Hn : (n <= length (c :: cur))%nat) by apply strcspn_length.
    assert (Hshort :
      (length (if (strlen (drop n (c :: cur)) =? 0)%Z then drop n (c :: cur)
               else drop 1 (drop n (c :: cur))) <= length cur)%nat).
    { destruct (strlen (drop n (c :: cur)) =? 0) eqn:E.
      - apply Z.eqb_eq in E. unfold strlen in E.
        assert (length (drop n (c :: cur)) = O) as -> by lia. lia.
      - apply Z.eqb_neq in E. unfold strlen in E.
        rewrite !length_drop in *. simpl in *. lia. }
    rewrite (IH turns'); [done|simpl in *; lia..].
Qed.

Lemma leading_flags_app flags rolls :
  Forall (fun arg => is_flag arg = true) flags ->
  leading_flags rolls = [] ->
  leading_flags (flags ++ rolls) = flags.
Proof.
  intros Hflags Hrolls. induction Hflags as [|f flags Hf _ IH].
  - done.
  - cbn [app leading_flags]. by rewrite Hf, IH.
Qed.

(** X19.  Started with flags other than [-help] and [-i] and then
    arguments of which the first does not start with a dash, [main] rolls
    exactly these arguments, with the verbosity the flags ask for, and
    returns 0; with no such argument it prints the usage text and stops.
    An argument that starts with a dash and stands before them is never
    rolled. *)
Theorem main_rolls_arguments_after_flags stack_junk prog flags rolls lines rng :
  Forall (fun arg => is_flag arg = true) flags ->
  has_flag "-help" flags = false -> has_flag "-i" flags = false ->
  leading_flags rolls = [] ->
  main stack_junk (prog :: flags ++ rolls) lines rng
  = (parse_and_exec_cmdline stack_junk rolls
       (mkConfigOptions (flags_verbosity flags) MODE_CMDLINE
          (Z.of_nat (length flags))) ;;;
     pret 0) rng.
Proof.
  intros Hflags Hhelp Hi Hrolls. unfold main.
  destruct (Z.of_nat (length (prog :: flags ++ rolls)) <? 2) eqn:Eargc.
  - apply Z.ltb_lt in Eargc. cbn [length] in Eargc. rewrite length_app in Eargc.
    assert (flags = []) as -> by (destruct flags; [done|simpl in Eargc; lia]).
    assert (rolls = []) as -> by (destruct rolls; [done|simpl in Eargc; lia]).
    done.
  - unfold pbind at 1. unfold pret at 1. cbn [app].
    unfold pbind at 1.
    pose proof (parse_options_loop_flags (flags ++ rolls) [] rng eq_refl) as Hopt.
    cbn zeta in Hopt. cbn [app] in Hopt.
    rewrite leading_flags_app in Hopt by done. rewrite Hhelp in Hopt.
    cbn [negb] in Hopt.
    unfold parse_options. cbn [drop].
    change (drop 0 (flags ++ rolls)) with (flags ++ rolls).
    cbn [length] in Hopt. change (1 + Z.of_nat 0) with 1 in Hopt.
    change (has_flag "-v" []) with false in Hopt.
    change (has_flag "-q" []) with false in Hopt.
    change (flags_mode []) with MODE_CMDLINE in Hopt.
    rewrite Hopt. unfold flags_mode. rewrite Hi.
    cbn [mode option_count verbosity].
    rewrite (bool_decide_false (MODE_CMDLINE = MODE_HELP)) by done.
    replace (Z.to_nat (Z.of_nat (length flags) + 1)) with (S (length flags)) by lia.
    cbn [drop]. rewrite drop_app_length. cbn [app].
    destruct (pbind _ _ rng) as [out o]. done.
Qed.

Lemma main_rolls_arguments_after_flags_witness :
  main (fun _ => 0) (cstr "dice" :: [cstr "-q"; cstr "-5"] ++ [cstr "2d6"; cstr "-3"])
    [] [3; 4]
  = (parse_and_exec_cmdline (fun _ => 0) [cstr "2d6"; cstr "-3"]
       (mkConfigOptions (flags_verbosity [cstr "-q"; cstr "-5"]) MODE_CMDLINE
          (Z.of_nat (length [cstr "-q"; cstr "-5"]))) ;;;
     pret 0) [3; 4].
Proof.
  apply (main_rolls_arguments_after_flags (fun _ => 0) (cstr "dice")
           [cstr "-q"; cstr "-5"] [cstr "2d6"; cstr "-3"] [] [3; 4]).
  - repeat constructor.
  - reflexivity.
  - reflexivity.
  - reflexivity.
Defined.


(** X20.  A line that begins with [set ] is never rolled: it draws no
    random number, leaves the mode and the count of options as they are,
    and prints one line, either the notice of the verbosity it has set or
    an error message, the options then being unchanged. *)
Theorem set_line_only_sets_verbosity stack_junk input options rng :
  take 4 input = cstr "set " ->
  exists out options',
    parse_and_exec_interactive_input stack_junk input options rng
      = (out, Returns options' rng) /\
    mode options' = mode options /\
    option_count options' = option_count options /\
    (out = [VerbositySet (verbosity options')] \/
     options' = options /\ exists msg, out = [ErrorLine msg]).
Proof.
  intros Hset. unfold parse_and_exec_interactive_input.
  assert (Hlen : (strlen input >=? 4) = true).
  { rewrite Z.geb_leb. apply Z.leb_le. unfold strlen.
    apply (f_equal length) in Hset. rewrite length_take in Hset.
    change (length (cstr "set ")) with 4%nat in Hset. lia. }
  rewrite Hlen. unfold strncmp_eq at 1.
  rewrite (bool_decide_true (take 4 input = _)) by done. cbn [andb].
  unfold parse_and_exec_set_command.
  destruct (_ && _).
  - destruct (_ || _ || _).
    { eexists _, _. split; [reflexivity|]. cbn. eauto. }
    destruct (_ || _).
    { eexists _, _. split; [reflexivity|]. cbn. eauto. }
    destruct (_ || _ || _).
    { eexists _, _. split; [reflexivity|]. cbn. eauto. }
    eexists _, _. split; [reflexivity|]. cbn. eauto 6.
  - eexists _, _. split; [reflexivity|]. cbn. eauto 6.
Qed.

Lemma set_line_only_sets_verbosity_witness :
  exists out options',
    parse_and_exec_interactive_input (fun _ => 0)
      (cstr "set verbosity q" ++ [LF])
      (mkConfigOptions VER_DEFAULT MODE_INTERACTIVE 1) [3; 4]
      = (out, Returns options' [3; 4]) /\
    mode options' = mode (mkConfigOptions VER_DEFAULT MODE_INTERACTIVE 1) /\
    option_count options'
      = option_count (mkConfigOptions VER_DEFAULT MODE_INTERACTIVE 1) /\
    (out = [VerbositySet (verbosity options')] \/
     options' = mkConfigOptions VER_DEFAULT MODE_INTERACTIVE 1 /\
     exists msg, out = [ErrorLine msg]).
Proof.
  apply (set_line_only_sets_verbosity (fun _ => 0)
           (cstr "set verbosity q" ++ [LF])
           (mkConfigOptions VER_DEFAULT MODE_INTERACTIVE 1) [3; 4]).
  reflexivity.
Defined.

(** ** Operators without operand *)

(** X21.  There is no sign: a span that begins with an operator of the
    level being parsed, as [-3] does at additive level, is rejected with
    the message for a missing object, followed by the messages of the
    parse of what comes after the operator. *)
Theorem leading_operator_is_rejected type c (s : list ascii) len :
  op_of_level type (parse_operator [c]) = true ->
  1 <= len ->
  parse_expr (c :: s) len type
  = (let '(log, r) := parse_expr s (len - 1) type in
     (EmptyOperand :: log,
      match r with
      | Some _ => Some None
      | None => None
      end)).
Proof.
  intros Hop Hlen.
  apply operator_opchar in Hop as (Hc & Hopen & Hclose).
  assert (Hscan : find_first_free_opt (c :: s) len (opchars_of type)
                  = ([], Some (OptAt O))).
  { rewrite find_first_free_opt_span.
    by rewrite (scan_span_at_op _ len [] c s 0) by (done || simpl; lia). }
  rewrite (parse_expr_found _ _ _ _ _ Hscan).
  cbn [drop Nat.add]. change (Z.of_nat 0 + 1) with 1.
  assert (HE : parse_expr (c :: s) (Z.of_nat 0) M_OP = ([EmptyOperand], Some None)).
  { by rewrite parse_expr_eq. }
  assert (HO : parse_obj (c :: s) (Z.of_nat 0) = ([EmptyOperand], Some None)).
  { by rewrite parse_obj_eq. }
  change (drop 0 s) with s.
  destruct type; rewrite ?HE, ?HO;
    destruct (parse_expr s (len - 1) _) as [log [r|]]; munfold;
    by rewrite ?app_nil_r.
Qed.

Lemma leading_operator_is_rejected_witness :
  parse_expr ("-"%char :: cstr "3") 2 A_OP
  = (let '(log, r) := parse_expr (cstr "3") (2 - 1) A_OP in
     (EmptyOperand :: log,
      match r with
      | Some _ => Some None
      | None => None
      end)).
Proof.
  apply (leading_operator_is_rejected A_OP "-"%char (cstr "3") 2).
  - reflexivity.
  - lia.
Defined.
